(** * zk-compress: the LZSS compressor and the symbol stream

    A shallow embedding of [lzss/compress.go] and [stream.go].

    Conventions.
    - A Go [byte] is a [Z] in [0, 256); a [[]byte] is a [list Z].
    - A Go [int] is 64 bits wide.  An [int] that is a length, an index or
      a small multiple of one is modelled by the [Z] it denotes; where a
      function computes with numbers of its caller ([WriteNum], [ReadNum],
      [BreakUp], [log]) the wrap-around is written out ([wrap64]).  The
      fixed-width conversions the code performs ([uint8(..)],
      [uint32(..)]) are written out with [mod].
    - A slice is modelled by its contents, and [s[a:b]] is checked against
      its length.  Go checks it against the capacity: where the bounds come
      from the data ([compressFromHint], which slices [input] and
      [compressor.dictData] at offsets read from the hint) the model has
      the rest of the backing array as well ([Lzss.SpareCapacity]).
    - A Go function that can return an error, panic, or loop is a function
      into [outcome]. *)

From Stdlib Require Import ZArith List Bool Lia.
Import ListNotations.
Local Open Scope Z_scope.

(** ** Results of a Go call *)

Inductive error : Type :=
| ErrInputSize                 (* "input size must be <= MaxInputSize" *)
| ErrDictSize                  (* "dict size must be <= MaxDictSize" *)
| ErrNoBackref (i : Z)         (* "could not find a backref at index i" *)
| ErrWordsDoNotFit             (* "words do not fit in elements" *)
| ErrNotEnoughRoom             (* "not enough room in dst" *)
| ErrNotPowerOfTwo             (* "only powers of 2 currently supported" *)
| ErrNotEnoughBytes            (* "not enough bytes" *)
| ErrEOF.                      (* sticky error of a bit reader *)

Inductive panic : Type :=
| PanicCannotEncode            (* panic("cannot encode symbol") *)
| PanicIndexOutOfRange
| PanicSliceBounds
| PanicDivideByZero
| PanicMakeLen
| PanicFillBytes.              (* big.Int.FillBytes: buffer too small *)

Inductive outcome (A : Type) : Type :=
| Ok (a : A)
| Err (e : error)
| Panic (p : panic)
| OutOfFuel.

Arguments Ok {A} a.
Arguments Err {A} e.
Arguments Panic {A} p.
Arguments OutOfFuel {A}.

Definition bind {A B : Type} (m : outcome A) (k : A -> outcome B) : outcome B :=
  match m with
  | Ok a => k a
  | Err e => Err e
  | Panic p => Panic p
  | OutOfFuel => OutOfFuel
  end.

Declare Scope outcome_scope.
Delimit Scope outcome_scope with outcome.
Notation "x <- m ;; k" := (bind m (fun x => k))
  (at level 61, m at next level, right associativity) : outcome_scope.
Notation "' p <- m ;; k" := (bind m (fun x => let p := x in k))
  (at level 61, p pattern, m at next level, right associativity) : outcome_scope.
Local Open Scope outcome_scope.

(** ** Slices *)

Definition len {A : Type} (l : list A) : Z := Z.of_nat (length l).

(** [l[i]] *)
Definition index {A : Type} (l : list A) (i : Z) : outcome A :=
  if i <? 0 then Panic PanicIndexOutOfRange
  else match nth_error l (Z.to_nat i) with
       | Some a => Ok a
       | None => Panic PanicIndexOutOfRange
       end.

(** The contents of [l[a:b]], without the bounds check. *)
Definition sub {A : Type} (l : list A) (a b : Z) : list A :=
  firstn (Z.to_nat (b - a)) (skipn (Z.to_nat a) l).

(** [l[a:b]] *)
Definition slice {A : Type} (l : list A) (a b : Z) : outcome (list A) :=
  if (0 <=? a) && (a <=? b) && (b <=? len l) then Ok (sub l a b)
  else Panic PanicSliceBounds.

Fixpoint list_eqb (l1 l2 : list Z) : bool :=
  match l1, l2 with
  | [], [] => true
  | a :: t1, b :: t2 => (a =? b) && list_eqb t1 t2
  | _, _ => false
  end.


(** [bytes.Equal] *)
Definition bytes_Equal (a b : list Z) : bool := list_eqb a b.

(** [l[k] = v], for [k] in range. *)
Definition set_index {A : Type} (l : list A) (k : Z) (v : A) : list A :=
  firstn (Z.to_nat k) l ++ v :: skipn (S (Z.to_nat k)) l.

(** [copy(l[off:off+len(block)], block)], for a block that fits. *)
Definition splice {A : Type} (l : list A) (off : Z) (block : list A) : list A :=
  firstn (Z.to_nat off) l ++ block ++ skipn (Z.to_nat off + length block) l.

(** ** The bit reader and writer of [github.com/icza/bitio]

    Bits travel most significant first.  A writer over a [bytes.Buffer]
    never fails, so it is the list of the bits written so far; [Close] pads
    the last byte with zero bits.  A reader is the list of the bits not yet
    read together with the sticky [TryError]: once it is set every [Try]
    read returns zero. *)

Module Bitio.

(** The [n] low bits of [v], highest first. *)
Fixpoint bitsMSB (n : nat) (v : Z) : list bool :=
  match n with
  | O => []
  | S n' => Z.testbit v (Z.of_nat n') :: bitsMSB n' v
  end.

Fixpoint valueMSB (acc : Z) (bs : list bool) : Z :=
  match bs with
  | [] => acc
  | b :: bs' => valueMSB (2 * acc + Z.b2z b) bs'
  end.

Definition bytesToBits (l : list Z) : list bool := flat_map (bitsMSB 8) l.

Fixpoint bitsToBytes_aux (n : nat) (bs : list bool) : list Z :=
  match n with
  | O => []
  | S n' =>
      match bs with
      | [] => []
      | _ :: _ =>
          valueMSB 0 (firstn 8 (bs ++ repeat false 7))
            :: bitsToBytes_aux n' (skipn 8 bs)
      end
  end.

(** Whole bytes of a bit sequence, the last one padded with zero bits. *)
Definition bitsToBytes (bs : list bool) : list Z :=
  bitsToBytes_aux (length bs) bs.

Definition Writer : Type := list bool.

Definition NewWriter : Writer := [].

(** [w.TryWriteBits(r, n)]: the [n] lowest bits of [r]. *)
Definition TryWriteBits (w : Writer) (r : Z) (n : Z) : Writer :=
  w ++ bitsMSB (Z.to_nat n) r.

Definition TryWriteByte (w : Writer) (b : Z) : Writer :=
  w ++ bitsMSB 8 b.

(** [w.Close()]: what the underlying buffer has received. *)
Definition Close (w : Writer) : list Z := bitsToBytes w.

Record Reader : Type := {
  rbits : list bool;
  TryError : bool
}.

Definition NewReader (src : list Z) : Reader :=
  {| rbits := bytesToBits src; TryError := false |}.

(** [r.TryReadBits(n)], as a [uint64].  What a read of zero bits returns
    is of no account: the callers below discard it. *)
Definition TryReadBits (r : Reader) (n : Z) : Z * Reader :=
  if TryError r then (0, r)
  else if len (rbits r) <? n then (0, {| rbits := []; TryError := true |})
  else (valueMSB 0 (firstn (Z.to_nat n) (rbits r)) mod 2 ^ 64,
        {| rbits := skipn (Z.to_nat n) (rbits r); TryError := false |}).

Definition TryReadByte (r : Reader) : Z * Reader := TryReadBits r 8.

(** [r.ReadBits(n)], which [TryReadBits] wraps: the [n] bits as a [uint64]
    and the reader afterwards, or the error of the underlying reader when
    fewer than [n] bits are left. *)
Definition ReadBits (r : Reader) (n : Z) : outcome (Z * Reader) :=
  if len (rbits r) <? n then Err ErrEOF
  else Ok (valueMSB 0 (firstn (Z.to_nat n) (rbits r)) mod 2 ^ 64,
           {| rbits := skipn (Z.to_nat n) (rbits r); TryError := TryError r |}).

End Bitio.

(** ** stream.go *)

Module Stream.
Import Bitio.

Record Stream : Type := {
  D : list Z;
  NbSymbs : Z
}.

(** [1 << k] on a 64-bit [int]. *)
Definition shl1 (k : Z) : Z :=
  if k <? 63 then 2 ^ k else if k =? 63 then - 2 ^ 63 else 0.

Fixpoint bitLen_loop (fuel : nat) (bitLen n : Z) : outcome Z :=
  match fuel with
  | O => OutOfFuel
  | S fuel' =>
      if shl1 bitLen <? n then bitLen_loop fuel' (bitLen + 1) n else Ok bitLen
  end.

(** [bitLen(n)].  From [bitLen = 64] on the shifted one is zero, so a loop
    that is still running then runs for ever: 65 tests decide. *)
Definition bitLen (n : Z) : outcome Z := bitLen_loop 65 0 n.

(** [s.resize(_len)] *)
Definition resize (d : list Z) (_len : Z) : list Z :=
  let d := if len d <? _len then repeat 0 (Z.to_nat _len) else d in
  firstn (Z.to_nat _len) d.

(** The inner loop of [Pack], [j] running from [n - 1] down to [0].  The
    read [s.D[absJ]] is in range: it is guarded by [absJ < len(s.D)], and
    [absJ] is not negative. *)
Fixpoint Pack_inner (d : list Z) (i wordsPerElem radix : Z) (n : nat) (acc : Z) : Z :=
  match n with
  | O => acc
  | S j =>
      let absJ := i * wordsPerElem + Z.of_nat j in
      if absJ >=? len d then Pack_inner d i wordsPerElem radix j acc
      else Pack_inner d i wordsPerElem radix j
             (acc * radix + nth (Z.to_nat absJ) d 0)
  end.

Definition Pack (s : Stream) (nbBits : Z) : outcome (list Z) :=
  wordLen <- bitLen (NbSymbs s) ;;
  if wordLen =? 0 then Panic PanicDivideByZero else
  let wordsPerElem := Z.quot (nbBits - 1) wordLen in
  let radix := Z.shiftl 1 wordLen in
  if wordsPerElem =? 0 then Panic PanicDivideByZero else
  let n := Z.quot (len (D s) + wordsPerElem - 1) wordsPerElem in
  if n <? 0 then Panic PanicMakeLen else
  Ok (map (fun i => Pack_inner (D s) (Z.of_nat i) wordsPerElem radix
                      (Z.to_nat wordsPerElem) 0)
          (seq 0 (Z.to_nat n))).

(** [binary.BigEndian.PutUint32] and [Uint32] *)
Definition PutUint32 (v : Z) : list Z :=
  [(v / 2 ^ 24) mod 256; (v / 2 ^ 16) mod 256; (v / 2 ^ 8) mod 256; v mod 256].

Definition Uint32 (b : list Z) : Z :=
  fold_left (fun acc x => acc * 256 + x) b 0.

(** [x.FillBytes(buf)] of [math/big], for a buffer of [n] bytes: the
    absolute value, big-endian, zero-extended; a panic when it does not
    fit. *)
Fixpoint bigEndianBytes (n : nat) (v : Z) : list Z :=
  match n with
  | O => []
  | S n' => (v / 256 ^ Z.of_nat n') mod 256 :: bigEndianBytes n' v
  end.

Definition big_FillBytes (x : Z) (n : Z) : outcome (list Z) :=
  if Z.abs x <? 256 ^ n then Ok (bigEndianBytes (Z.to_nat n) (Z.abs x))
  else Panic PanicFillBytes.

(** The inner loop of [FillBytes], [j] running upwards from [j] and
    stopping ([break]) at the end of the stream. *)
Fixpoint FillBytes_inner (d : list Z) (i wordsPerElem radix : Z) (n : nat) (j : Z) (elem : Z) : Z :=
  match n with
  | O => elem
  | S n' =>
      let absJ := i * wordsPerElem + j in
      if absJ >=? len d then elem
      else FillBytes_inner d i wordsPerElem radix n' (j + 1)
             (elem * radix + nth (Z.to_nat absJ) d 0)
  end.

Fixpoint FillBytes_loop (d : list Z) (wordsPerElem bytesPerElem radix : Z)
         (n : nat) (i : Z) (dst : list Z) : outcome (list Z) :=
  match n with
  | O => Ok dst
  | S n' =>
      let elem := FillBytes_inner d i wordsPerElem radix (Z.to_nat wordsPerElem) 0 0 in
      block <- slice dst (i * bytesPerElem) ((i + 1) * bytesPerElem) ;;
      bytes <- big_FillBytes elem (len block) ;;
      FillBytes_loop d wordsPerElem bytesPerElem radix n' (i + 1)
        (splice dst (i * bytesPerElem) bytes)
  end.

(** [s.FillBytes(dst, nbBits)]: the contents of [dst] afterwards. *)
Definition FillBytes (s : Stream) (dst : list Z) (nbBits : Z) : outcome (list Z) :=
  bitsPerWord <- bitLen (NbSymbs s) ;;
  if bitsPerWord >=? nbBits then Err ErrWordsDoNotFit else
  if bitsPerWord =? 0 then Panic PanicDivideByZero else
  let wordsPerElem := Z.quot (nbBits - 1) bitsPerWord in
  let bytesPerElem := Z.quot (nbBits + 7) 8 in
  let nbElems := Z.quot (len (D s) + wordsPerElem - 1) wordsPerElem in
  if len dst <? Z.quot (len (D s) * bitsPerWord + 7) 8 + 4 then Err ErrNotEnoughRoom else
  let head := PutUint32 (len (D s) mod 2 ^ 32) in
  let radix := Z.shiftl 1 bitsPerWord in
  rest <- FillBytes_loop (D s) wordsPerElem bytesPerElem radix
            (Z.to_nat nbElems) 0 (skipn 4 dst) ;;
  Ok (head ++ rest).

(** The inner loop of [ReadBytes].  [ReadBytes] has checked that [NbSymbs]
    is [1 << bitsPerWord], so that [bitsPerWord] is at most 62 and the
    conversion [int(..)] of the word read changes nothing. *)
Fixpoint ReadBytes_inner (bitsPerWord wordsPerElem : Z) (i : Z) (n : nat) (j : Z)
         (d : list Z) (w : Reader) : list Z * Reader :=
  match n with
  | O => (d, w)
  | S n' =>
      let wordI := i * wordsPerElem + j in
      if wordI >=? len d then
        ReadBytes_inner bitsPerWord wordsPerElem i n' (j + 1) d w
      else
        let '(v, w) := TryReadBits w (bitsPerWord mod 256) in
        ReadBytes_inner bitsPerWord wordsPerElem i n' (j + 1) (set_index d wordI v) w
  end.

Fixpoint ReadBytes_loop (bitsPerWord wordsPerElem bytesPerElem nbElems : Z)
         (n : nat) (i : Z) (d : list Z) (w : Reader) : list Z * Reader :=
  match n with
  | O => (d, w)
  | S n' =>
      let '(_, w) := TryReadBits w ((8 * bytesPerElem - bitsPerWord * wordsPerElem) mod 256) in
      let w :=
        if i + 1 =? nbElems then
          let wordsToRead := len d - i * wordsPerElem in
          snd (TryReadBits w (((wordsPerElem - wordsToRead) * bitsPerWord) mod 256))
        else w in
      let '(d, w) := ReadBytes_inner bitsPerWord wordsPerElem i (Z.to_nat wordsPerElem) 0 d w in
      ReadBytes_loop bitsPerWord wordsPerElem bytesPerElem nbElems n' (i + 1) d w
  end.

(** [s.ReadBytes(src, nbBits)]: the stream afterwards. *)
Definition ReadBytes (s : Stream) (src : list Z) (nbBits : Z) : outcome Stream :=
  bitsPerWord <- bitLen (NbSymbs s) ;;
  if bitsPerWord >=? nbBits then Err ErrWordsDoNotFit else
  if negb (NbSymbs s =? shl1 bitsPerWord) then Err ErrNotPowerOfTwo else
  head <- slice src 0 4 ;;
  let d := resize (D s) (Uint32 head) in
  src <- slice src 4 (len src) ;;
  if bitsPerWord =? 0 then Panic PanicDivideByZero else
  let wordsPerElem := Z.quot (nbBits - 1) bitsPerWord in
  let bytesPerElem := Z.quot (nbBits + 7) 8 in
  let nbElems := Z.quot (len d + wordsPerElem - 1) wordsPerElem in
  if len src <? nbElems * bytesPerElem then Err ErrNotEnoughBytes else
  let '(d, w) := ReadBytes_loop bitsPerWord wordsPerElem bytesPerElem nbElems
                   (Z.to_nat nbElems) 0 d (NewReader src) in
  if TryError w then Err ErrEOF else Ok {| D := d; NbSymbs := NbSymbs s |}.

(** Readings of a group of symbols as one number in base [radix]: the first
    symbol as the least significant digit, and as the most significant. *)
Definition digitsLE (radix : Z) (group : list Z) : Z :=
  fold_right (fun d acc => d + radix * acc) 0 group.

Definition digitsBE (radix : Z) (group : list Z) : Z :=
  fold_left (fun acc d => acc * radix + d) group 0.

(** The [i]-th group of [n] symbols, cut at the end of the stream. *)
Definition group (d : list Z) (n : Z) (i : Z) : list Z :=
  firstn (Z.to_nat n) (skipn (Z.to_nat (i * n)) d).

(** The reading of the specification, to compare [Pack] with: element [i]
    is group [i] in base [NbSymbs], first symbol most significant, a short
    last group being padded with zero digits on the low side. *)
Definition Pack_big_endian (s : Stream) (wordsPerElem : Z) (i : Z) : Z :=
  let g := group (D s) wordsPerElem i in
  digitsBE (NbSymbs s) (g ++ repeat 0 (Z.to_nat wordsPerElem - length g)).

(** *** The other functions of [stream.go]

    Their [int]s are not all lengths: [WriteNum], [ReadNum], [BreakUp] and
    [log] compute with the symbols and with numbers the caller passes, so
    the wrap-around of their arithmetic is written out. *)

(** The 64-bit [int] that an integer result wraps to. *)
Definition wrap64 (x : Z) : Z := (x + 2 ^ 63) mod 2 ^ 64 - 2 ^ 63.

(** [int(n)] for a [uint64]. *)
Definition int_of_uint64 (v : Z) : Z := if v <? 2 ^ 63 then v else v - 2 ^ 64.

(** [s.Len()] *)
Definition Len (s : Stream) : Z := len (D s).

(** [s.At(i)] *)
Definition At (s : Stream) (i : Z) : outcome Z := index (D s) i.

(** The loop of [RunLen]:
    [for i+runLen < len(s.D) && s.D[i+runLen] == 0 { runLen++ }].
    The sum [i+runLen] is an [int]: it wraps around. *)
Fixpoint RunLen_loop (fuel : nat) (d : list Z) (i runLen : Z) : outcome Z :=
  if wrap64 (i + runLen) <? len d then
    x <- index d (wrap64 (i + runLen)) ;;
    if x =? 0 then
      match fuel with
      | O => OutOfFuel
      | S fuel' => RunLen_loop fuel' d i (wrap64 (runLen + 1))
      end
    else Ok runLen
  else Ok runLen.

(** [s.RunLen(i)].  Every turn of the loop has found one more symbol of the
    stream to be zero, so [len(s.D)] turns are enough. *)
Definition RunLen (s : Stream) (i : Z) : outcome Z :=
  RunLen_loop (length (D s)) (D s) i 1.

(** The loop of [NewStream]: [d[i] = int(n)] for [i] from [0] up, the
    symbols in the order they are read. *)
Fixpoint NewStream_loop (n : nat) (r : Reader) (bitsPerSymbol : Z) : outcome (list Z) :=
  match n with
  | O => Ok []
  | S n' =>
      '(v, r) <- ReadBits r bitsPerSymbol ;;
      rest <- NewStream_loop n' r bitsPerSymbol ;;
      Ok (int_of_uint64 v :: rest)
  end.

(** [NewStream(in, bitsPerSymbol)], for a [uint8] [bitsPerSymbol]. *)
Definition NewStream (in_ : list Z) (bitsPerSymbol : Z) : outcome Stream :=
  if bitsPerSymbol =? 0 then Panic PanicDivideByZero else
  d <- NewStream_loop (Z.to_nat (Z.quot (len in_ * 8) bitsPerSymbol))
         (NewReader in_) bitsPerSymbol ;;
  Ok {| D := d; NbSymbs := shl1 bitsPerSymbol |}.

(** The loop of [log]: [for pow := 1; pow < x; pow *= base { exp++ }] *)
Fixpoint log_loop (fuel : nat) (x base pow exp : Z) : outcome Z :=
  if pow <? x then
    match fuel with
    | O => OutOfFuel
    | S fuel' => log_loop fuel' x base (wrap64 (pow * base)) (exp + 1)
    end
  else Ok exp.

(** [log(x, base)]; [fuel] bounds the number of turns. *)
Definition log (fuel : nat) (x base : Z) : outcome Z := log_loop fuel x base 1 0.

(** The inner loop of [BreakUp], [j] running upwards from [j]:
    [d[(i+1)*newPerOld-j-1] = v % nbSymbs; v /= nbSymbs] *)
Fixpoint BreakUp_inner (n : nat) (nbSymbs newPerOld i j v : Z) (d : list Z)
  : outcome (list Z) :=
  match n with
  | O => Ok d
  | S n' =>
      if nbSymbs =? 0 then Panic PanicDivideByZero else
      let k := (i + 1) * newPerOld - j - 1 in
      if (0 <=? k) && (k <? len d) then
        BreakUp_inner n' nbSymbs newPerOld i (j + 1) (wrap64 (Z.quot v nbSymbs))
          (set_index d k (Z.rem v nbSymbs))
      else Panic PanicIndexOutOfRange
  end.

(** The loop [for i := range s.D] of [BreakUp], over the symbols from the
    [i]-th on. *)
Fixpoint BreakUp_loop (old : list Z) (nbSymbs newPerOld i : Z) (d : list Z)
  : outcome (list Z) :=
  match old with
  | [] => Ok d
  | v :: rest =>
      d <- BreakUp_inner (Z.to_nat newPerOld) nbSymbs newPerOld i 0 v d ;;
      BreakUp_loop rest nbSymbs newPerOld (i + 1) d
  end.

(** [s.BreakUp(nbSymbs)]; [fuel] bounds the number of turns of [log]. *)
Definition BreakUp (fuel : nat) (s : Stream) (nbSymbs : Z) : outcome Stream :=
  newPerOld <- log fuel (NbSymbs s) nbSymbs ;;
  d <- BreakUp_loop (D s) nbSymbs newPerOld 0
         (repeat 0 (Z.to_nat (len (D s) * newPerOld))) ;;
  Ok {| D := d; NbSymbs := nbSymbs |}.

(** What a call of [WriteNum] comes to: the stream, or one of its two
    panics. *)
Inductive WriteNum_result : Type :=
| Written (s : Stream)
| PanicOverflow                  (* panic("overflow") *)
| PanicZeroSymbols.              (* r % s.NbSymbs with NbSymbs = 0 *)

(** The loop of [WriteNum]: the symbols after it and what is left of [r];
    [None] is the division by zero. *)
Fixpoint WriteNum_loop (n : nat) (nbSymbs : Z) (d : list Z) (r : Z)
  : option (list Z * Z) :=
  match n with
  | O => Some (d, r)
  | S n' =>
      if nbSymbs =? 0 then None
      else WriteNum_loop n' nbSymbs (d ++ [Z.rem r nbSymbs]) (wrap64 (Z.quot r nbSymbs))
  end.

(** [s.WriteNum(r, nbWords)] *)
Definition WriteNum (s : Stream) (r nbWords : Z) : WriteNum_result :=
  match WriteNum_loop (Z.to_nat nbWords) (NbSymbs s) (D s) r with
  | None => PanicZeroSymbols
  | Some (d, r) =>
      if negb (r =? 0) then PanicOverflow
      else Written {| D := d; NbSymbs := NbSymbs s |}
  end.

(** The loop of [ReadNum], [j] running from [n - 1] down to [0]. *)
Fixpoint ReadNum_loop (n : nat) (s : Stream) (start res : Z) : outcome Z :=
  match n with
  | O => Ok res
  | S j =>
      x <- index (D s) (start + Z.of_nat j) ;;
      ReadNum_loop j s start (wrap64 (wrap64 (res * NbSymbs s) + x))
  end.

(** [s.ReadNum(start, nbWords)] *)
Definition ReadNum (s : Stream) (start nbWords : Z) : outcome Z :=
  ReadNum_loop (Z.to_nat nbWords) s start 0.

(** [s.ToBytes()]: a writer over a [bytes.Buffer] does not fail, so neither
    panic is reached. *)
Definition ToBytes (s : Stream) : outcome (list Z) :=
  bitsPerWord <- bitLen (NbSymbs s) ;;
  let w := fold_left (fun w v => TryWriteBits w (v mod 2 ^ 64) (bitsPerWord mod 256))
             (D s) NewWriter in
  Ok (Close w).

(** The loop of [Checksum]: [w.FillBytes(byts); hsh.Write(byts)].  A
    [hash.Hash] is the bytes written to it so far, its digest a function of
    them. *)
Fixpoint Checksum_loop (packed : list Z) (fieldBytes : Z) (hsh : list Z)
  : outcome (list Z) :=
  match packed with
  | [] => Ok hsh
  | w :: rest =>
      byts <- big_FillBytes w fieldBytes ;;
      Checksum_loop rest fieldBytes (hsh ++ byts)
  end.

(** [s.Checksum(hsh, fieldBits)], for a hash whose [Sum] is [hash_Sum]: the
    digest returned, and what [hsh] has been given. *)
Definition Checksum (hash_Sum : list Z -> list Z) (s : Stream) (hsh : list Z)
           (fieldBits : Z) : outcome (list Z * list Z) :=
  packed <- Pack s fieldBits ;;
  let fieldBytes := Z.quot (fieldBits + 7) 8 in
  if fieldBytes <? 0 then Panic PanicMakeLen else
  hsh <- Checksum_loop packed fieldBytes hsh ;;
  length <- big_FillBytes (Len s) fieldBytes ;;
  let hsh := hsh ++ length in
  Ok (hash_Sum hsh, hsh).

(** The [k] low digits of [v] in base [base], the highest first: what
    [BreakUp] makes of one symbol. *)
Fixpoint digitsOf (base : Z) (k : nat) (v : Z) : list Z :=
  match k with
  | O => []
  | S k' => digitsOf base k' (v / base) ++ [v mod base]
  end.

End Stream.

(** ** lzss/compress.go *)

Module Lzss.
Import Bitio.

(** Constants of the package that [compress.go] uses and other files of
    the package declare; the development is parametric in their values. *)
Class Constants : Type := {
  SymbolDict : Z;
  SymbolShort : Z;
  SymbolLong : Z;
  Version : Z;
  MaxInputSize : Z;
  MaxDictSize : Z
}.

(** The index of package [lzss/internal/suffixarray], seen through its one
    query: [LookupLongest data pattern minLen maxLen lo hi] is
    [suffixarray.New(data, _).LookupLongest(pattern, minLen, maxLen, lo, hi)]. *)
Class SuffixArray : Type := {
  LookupLongest : list Z -> list Z -> Z -> Z -> Z -> Z -> Z * Z
}.

(** A slice can be resliced up to its capacity: [s[a:b]] is legal for
    [b <= cap(s)], and then holds elements of the backing array that lie
    behind the slice.  [compressFromHint] slices [input] and
    [compressor.dictData] at offsets it reads from the hint, so the model
    has what lies behind these two slices: the bytes between length and
    capacity, as the caller of [Compress], the caller of [NewCompressor]
    or the [append] of [AugmentDict] left them. *)
Class SpareCapacity : Type := {
  inputSpare : list Z;
  dictSpare : list Z
}.

Definition Level : Type := Z.
Definition NoCompression : Level := 0.
Definition BestCompression : Level := 1.
Definition GoodCompression : Level := 2.
Definition GoodSnarkDecompression : Level := 4.
Definition BestSnarkDecompression : Level := 8.

Definition bitLen : Z := 16.

Record BackrefType : Type := {
  symbol : Z;
  nbBitsAddress : Z;
  nbBitsLength : Z;
  nbBytesBackRef : Z;
  maxAddress : Z;
  maxLength : Z;
  dictOnly : bool
}.

Record backref : Type := {
  address : Z;
  length : Z;
  bType : BackrefType
}.

(** Modelled from the spec: [newBackRefType], which is declared outside
    [compress.go].  "[nbBytesBackRef]: total encoded size in bytes =
    ceil((8 + nbBitsAddress + nbBitsLength) / 8); [maxAddress] =
    2^nbBitsAddress, [maxLength] = 2^nbBitsLength + nbBytesBackRef - 1." *)
Definition newBackRefType (symbol nbBitsAddress nbBitsLength : Z) (dictOnly : bool)
  : BackrefType :=
  let nbBytes := (8 + nbBitsAddress + nbBitsLength + 7) / 8 in
  {| symbol := symbol;
     nbBitsAddress := nbBitsAddress;
     nbBitsLength := nbBitsLength;
     nbBytesBackRef := nbBytes;
     maxAddress := 2 ^ nbBitsAddress;
     maxLength := 2 ^ nbBitsLength + nbBytes - 1;
     dictOnly := dictOnly |}.

(** Modelled from the spec: [backref.savings], which is declared outside
    [compress.go].  "For a candidate (t, a, l), savings = l -
    t.nbBytesBackRef." *)
Definition savings (b : backref) : Z := length b - nbBytesBackRef (bType b).

(** Modelled from the spec: the two numeric fields of a back-reference,
    written by code outside [compress.go].  "Length and address fields are
    stored little-endian-per-byte: successive 8-bit chunks
    least-significant-byte first, with any high residual bits written
    last." *)
Fixpoint writeNum (fuel : nat) (w : Writer) (v : Z) (nbBits : Z) : Writer :=
  match fuel with
  | O => w
  | S fuel' =>
      if 8 <=? nbBits then
        writeNum fuel' (TryWriteByte w (v mod 256)) (v / 256) (nbBits - 8)
      else if 0 <? nbBits then TryWriteBits w v nbBits
      else w
  end.

Fixpoint readNum (fuel : nat) (r : Reader) (nbBits : Z) (shift : Z) (acc : Z) : Z * Reader :=
  match fuel with
  | O => (acc, r)
  | S fuel' =>
      if 8 <=? nbBits then
        let '(b, r) := TryReadByte r in
        readNum fuel' r (nbBits - 8) (shift + 8) (acc + b * 2 ^ shift)
      else if 0 <? nbBits then
        let '(b, r) := TryReadBits r nbBits in
        (acc + b * 2 ^ shift, r)
      else (acc, r)
  end.

(** Modelled from the spec: [backref.writeTo], which is declared outside
    [compress.go].  "One escape byte ([symbol]), written as a whole byte;
    [nbBitsLength] bits carrying [length - nbBytesBackRef];
    [nbBitsAddress] bits carrying [address - 1] (non-dict) or [address]
    (dict)", where for a short or long reference emitted at position [i]
    the address carried is the distance [i - address]. *)
Definition writeTo (b : backref) (w : Writer) (i : Z) : Writer :=
  let t := bType b in
  let w := TryWriteByte w (symbol t) in
  let w := writeNum (Z.to_nat (nbBitsLength t)) w
             ((length b - nbBytesBackRef t) mod 2 ^ 64) (nbBitsLength t) in
  let addrToWrite := if dictOnly t then address b else i - address b - 1 in
  writeNum (Z.to_nat (nbBitsAddress t)) w (addrToWrite mod 2 ^ 64) (nbBitsAddress t).

(** Modelled from the spec: [backref.readFrom], the inverse of [writeTo]
    ("subtract 1 before encoding, add 1 after decoding"); the escape byte
    has been read by the caller. *)
Definition readFrom (b : backref) (r : Reader) : backref * Reader :=
  let t := bType b in
  let '(n, r) := readNum (Z.to_nat (nbBitsLength t)) r (nbBitsLength t) 0 0 in
  let length := n + nbBytesBackRef t in
  let '(n, r) := readNum (Z.to_nat (nbBitsAddress t)) r (nbBitsAddress t) 0 0 in
  let address := if dictOnly t then n else n + 1 in
  ({| address := address; length := length; bType := t |}, r).

(** Modelled from the spec: the header codec, which is declared outside
    [compress.go].  "Header: two bytes: [Version] (big-endian 8 bits) and
    [Level] (8 bits)." *)
Record Header : Type := {
  Header_Version : Z;
  Header_Level : Level
}.

(** [header.WriteTo(&buf)]: the buffer afterwards; writing to a
    [bytes.Buffer] does not fail. *)
Definition Header_WriteTo (h : Header) (buf : list Z) : list Z :=
  buf ++ [Header_Version h; Header_Level h].

(** [header.ReadFrom(in)]: [None] when the two bytes cannot be read. *)
Definition Header_ReadFrom (r : Reader) : option Header * Reader :=
  let '(v, r) := TryReadByte r in
  let '(l, r) := TryReadByte r in
  if TryError r then (None, r)
  else (Some {| Header_Version := v; Header_Level := l |}, r).

Record Compressor : Type := {
  dictData : list Z;
  level : Level
}.

(** [bits.Len(uint(x))] for [x] not negative. *)
Definition bits_Len (x : Z) : Z := if x <=? 0 then 0 else Z.log2 x + 1.

Definition max (a b : Z) : Z := if a >? b then a else b.

Section WithConstants.
Context {consts : Constants}.

(** The [for _, b := range dict] loop of [AugmentDict]; [true] is the early
    [return dict] taken when [found == mask]. *)
Fixpoint AugmentDict_loop (found : Z) (dict : list Z) : bool :=
  match dict with
  | [] => false
  | b :: rest =>
      if b =? SymbolDict then
        let found := Z.lor found 1 in
        if found =? 7 then true else AugmentDict_loop found rest
      else if b =? SymbolShort then
        let found := Z.lor found 2 in
        if found =? 7 then true else AugmentDict_loop found rest
      else if b =? SymbolLong then
        let found := Z.lor found 4 in
        if found =? 7 then true else AugmentDict_loop found rest
      else AugmentDict_loop found rest
  end.

Definition AugmentDict (dict : list Z) : list Z :=
  if AugmentDict_loop 0 dict then dict
  else dict ++ [SymbolDict; SymbolShort; SymbolLong].

(** The reading of the specification, to compare [AugmentDict] with: only
    the escapes that do not occur are appended, in the order dict, short,
    long. *)
Definition AugmentDict_missing_only (dict : list Z) : list Z :=
  dict ++ filter (fun e => negb (existsb (Z.eqb e) dict))
                 [SymbolDict; SymbolShort; SymbolLong].

Definition NewCompressor (dict : list Z) (level : Level) : outcome Compressor :=
  let dict := AugmentDict dict in
  if len dict >? MaxDictSize then Err ErrDictSize
  else Ok {| dictData := dict; level := level |}.

(** [wordAlign], on [uint8]. *)
Definition wordAlign (level : Level) (a : Z) : Z :=
  if level =? NoCompression then a mod 256
  else ((((a mod 256 + level - 1) mod 256) / level) * level) mod 256.

Definition InitBackRefTypes (dictLen : Z) (level : Level)
  : BackrefType * BackrefType * BackrefType :=
  (newBackRefType SymbolShort (wordAlign level 14) 8 false,
   newBackRefType SymbolLong (wordAlign level 19) 8 false,
   newBackRefType SymbolDict (wordAlign level (bits_Len dictLen)) 8 true).

(** The three escape symbols are distinct (a Go [switch] over them
    compiles only if they are). *)
Definition symbols_distinct : Prop :=
  SymbolDict <> SymbolShort /\ SymbolDict <> SymbolLong /\ SymbolShort <> SymbolLong.

Definition canEncodeSymbol (b : Z) : bool :=
  negb (b =? SymbolDict) && negb (b =? SymbolShort) && negb (b =? SymbolLong).

Definition writeByte (bw : Writer) (b : Z) : outcome Writer :=
  if negb (canEncodeSymbol b) then Panic PanicCannotEncode
  else Ok (TryWriteByte bw b).

Context {sa : SuffixArray}.

(** [compressor.findBackRef(data, i, bType, minLength)], where
    [compressor.inputIndex] indexes [input] and [compressor.dictIndex]
    indexes [compressor.dictData]. *)
Definition findBackRef (c : Compressor) (input : list Z)
           (data : list Z) (i : Z) (bType : BackrefType) (minLength : Z)
  : outcome (Z * Z) :=
  let minLength := if minLength =? -1 then nbBytesBackRef bType else minLength in
  if i + minLength >? len data then Ok (-1, -1) else
  let windowStart := max 0 (i - maxAddress bType) in
  let maxRefLen := maxLength bType in
  let maxRefLen := if i + maxRefLen >? len data then len data - i else maxRefLen in
  if minLength >? maxRefLen then Ok (-1, -1) else
  pattern <- slice data i (i + maxRefLen) ;;
  if dictOnly bType then
    Ok (LookupLongest (dictData c) pattern minLength maxRefLen 0 (len (dictData c)))
  else
    Ok (LookupLongest input pattern minLength maxRefLen windowStart i).

(** The variables [bDict], [bShort], [bLong] that the closures of
    [Compress] share. *)
Record backrefs : Type := {
  bDict : backref;
  bShort : backref;
  bLong : backref
}.

Definition fillBackrefs (c : Compressor) (input : list Z) (bs : backrefs)
           (i minLen : Z) : outcome (bool * backrefs) :=
  '(a, l) <- findBackRef c input input i (bType (bDict bs)) minLen ;;
  let bDict' := {| address := a; length := l; bType := bType (bDict bs) |} in
  '(a, l) <- findBackRef c input input i (bType (bShort bs)) minLen ;;
  let bShort' := {| address := a; length := l; bType := bType (bShort bs) |} in
  '(a, l) <- findBackRef c input input i (bType (bLong bs)) minLen ;;
  let bLong' := {| address := a; length := l; bType := bType (bLong bs) |} in
  Ok (negb ((length bDict' =? -1) && (length bShort' =? -1) && (length bLong' =? -1)),
      {| bDict := bDict'; bShort := bShort'; bLong := bLong' |}).

Definition bestBackref (bs : backrefs) : backref * Z :=
  if negb (length (bDict bs) =? -1)
     && (savings (bDict bs) >? savings (bShort bs))
     && (savings (bDict bs) >? savings (bLong bs))
  then (bDict bs, savings (bDict bs))
  else if negb (length (bShort bs) =? -1)
          && (savings (bShort bs) >? savings (bLong bs))
  then (bShort bs, savings (bShort bs))
  else (bLong bs, savings (bLong bs)).

(** The two-step look-ahead of the loop body of [Compress]: the position
    reached, the reference to emit there and the writer, after the literals
    the look-ahead has written. *)
Definition lookahead (c : Compressor) (input : list Z) (bs : backrefs)
           (i : Z) (bestAtI : backref) (bestSavings : Z) (bw : Writer)
  : outcome (Z * backref * Writer) :=
  if i + 1 <? len input then
    '(found, bs) <- fillBackrefs c input bs (i + 1) (length bestAtI + 1) ;;
    if found then
      let '(newBest, newSavings) := bestBackref bs in
      if newSavings >? bestSavings then
        (* we found a better backref at i+1 *)
        b <- index input i ;;
        bw <- writeByte bw b ;;
        let i := i + 1 in
        let bestSavings := newSavings in
        let bestAtI := newBest in
        (* can we find an even better backref at i+2 ? *)
        b <- index input i ;;
        if canEncodeSymbol b && (i + 1 <? len input) then
          '(found, bs) <- fillBackrefs c input bs (i + 1) (length bestAtI + 1) ;;
          if found then
            let '(newBest, newSavings) := bestBackref bs in
            if newSavings >? bestSavings then
              bw <- writeByte bw b ;;
              Ok (i + 1, newBest, bw)
            else Ok (i, bestAtI, bw)
          else Ok (i, bestAtI, bw)
        else Ok (i, bestAtI, bw)
      else Ok (i, bestAtI, bw)
    else if i + 2 <? len input then
      b1 <- index input (i + 1) ;;
      if canEncodeSymbol b1 then
        (* maybe at i+2 ? (we already tried i+1) *)
        '(found, bs) <- fillBackrefs c input bs (i + 2) (length bestAtI + 2) ;;
        if found then
          let '(newBest, newSavings) := bestBackref bs in
          if newSavings >? bestSavings then
            b <- index input i ;;
            bw <- writeByte bw b ;;
            bw <- writeByte bw b1 ;;
            Ok (i + 2, newBest, bw)
          else Ok (i, bestAtI, bw)
        else Ok (i, bestAtI, bw)
      else Ok (i, bestAtI, bw)
    else Ok (i, bestAtI, bw)
  else Ok (i, bestAtI, bw).

(** One turn of the [for i := startI; i < len(input);] loop of [Compress]:
    the next [i] and the writer. *)
Definition Compress_iter (c : Compressor) (input : list Z) (bs : backrefs)
           (i : Z) (bw : Writer) : outcome (Z * Writer) :=
  b <- index input i ;;
  if negb (canEncodeSymbol b) then
    (* we must find a backref. *)
    '(found, bs) <- fillBackrefs c input bs i 1 ;;
    if negb found then Err (ErrNoBackref i)
    else
      let '(best, _) := bestBackref bs in
      Ok (i + length best, writeTo best bw i)
  else
    '(found, bs) <- fillBackrefs c input bs i (-1) ;;
    if negb found then
      bw <- writeByte bw b ;;
      Ok (i + 1, bw)
    else
      let '(bestAtI, bestSavings) := bestBackref bs in
      '(i, bestAtI, bw) <- lookahead c input bs i bestAtI bestSavings bw ;;
      Ok (i + length bestAtI, writeTo bestAtI bw i).

Fixpoint Compress_loop (fuel : nat) (c : Compressor) (input : list Z)
         (bs : backrefs) (i : Z) (bw : Writer) : outcome Writer :=
  if i <? len input then
    match fuel with
    | O => OutOfFuel
    | S fuel' =>
        '(i, bw) <- Compress_iter c input bs i bw ;;
        Compress_loop fuel' c input bs i bw
    end
  else Ok bw.

(** The copy loop of the short and long cases of [compressFromHint]:
    [for i := 0; i < n; i++ { out.WriteByte(out.Bytes()[out.Len()-address]) }] *)
Fixpoint copyLoop (n : nat) (address : Z) (out : list Z) : outcome (list Z) :=
  match n with
  | O => Ok out
  | S n' =>
      b <- index out (len out - address) ;;
      copyLoop n' address (out ++ [b])
  end.

(** The reading of the specification, to compare [copyLoop] with: every
    turn reads the position [out.Len() - address] of loop entry. *)
Definition copyLoop_same_position (n : nat) (address : Z) (out : list Z) : list Z :=
  out ++ repeat (nth (Z.to_nat (len out - address)) out 0) n.

Context {spare : SpareCapacity}.

(** The backing array of [input], from its first element to its
    capacity. *)
Definition inputArray (input : list Z) : list Z := input ++ inputSpare.

(** The backing array of [compressor.dictData]. *)
Definition dictArray (c : Compressor) : list Z := dictData c ++ dictSpare.

(** The [case SymbolShort:] and [case SymbolLong:] arms of
    [compressFromHint], which differ in the type [t] only.  [None] is the
    early [return].  [out.Bytes()[startI : startI+length]] lies within the
    length of [out], which is [startI] when the arm is entered. *)
Definition replayCopy (input : list Z) (t : BackrefType) (in_ : Reader)
           (out : list Z) (startI : Z) (bw : Writer)
  : outcome (option (Reader * list Z * Z * Writer)) :=
  let '(b, in_) := readFrom {| address := 0; length := 0; bType := t |} in_ in
  let nad := len out - address b in
  out <- copyLoop (Z.to_nat (length b)) (address b) out ;;
  decompressed <- slice out startI (startI + length b) ;;
  expected <- slice (inputArray input) startI (startI + length b) ;;
  if negb (bytes_Equal decompressed expected) then Ok None
  else
    let b := {| address := nad; length := length b; bType := t |} in
    Ok (Some (in_, out, startI + length b, writeTo b bw startI)).

(** The [case SymbolDict:] arm. *)
Definition replayDict (c : Compressor) (input : list Z) (t : BackrefType)
           (in_ : Reader) (out : list Z) (startI : Z) (bw : Writer)
  : outcome (option (Reader * list Z * Z * Writer)) :=
  let '(b, in_) := readFrom {| address := 0; length := 0; bType := t |} in_ in
  d <- slice (dictArray c) (address b) (address b + length b) ;;
  expected <- slice (inputArray input) startI (startI + length b) ;;
  if negb (bytes_Equal d expected) then Ok None
  else Ok (Some (in_, out ++ d, startI + length b, writeTo b bw startI)).

(** The [default:] arm. *)
Definition replayLiteral (input : list Z) (s : Z) (in_ : Reader)
           (out : list Z) (startI : Z) (bw : Writer)
  : outcome (option (Reader * list Z * Z * Writer)) :=
  b <- index input startI ;;
  if negb (s =? b) then Ok None
  else
    bw <- writeByte bw b ;;
    Ok (Some (in_, out ++ [s], startI + 1, bw)).

(** The [for in.TryError == nil] loop of [compressFromHint]. *)
Fixpoint compressFromHint_loop (fuel : nat) (c : Compressor) (input : list Z)
         (short long dict : BackrefType) (in_ : Reader) (s : Z)
         (out : list Z) (startI : Z) (bw : Writer) : outcome (Z * Writer) :=
  if TryError in_ then Ok (startI, bw)
  else
    match fuel with
    | O => OutOfFuel
    | S fuel' =>
        r <- (if s =? SymbolShort then replayCopy input short in_ out startI bw
              else if s =? SymbolLong then replayCopy input long in_ out startI bw
              else if s =? SymbolDict then replayDict c input dict in_ out startI bw
              else replayLiteral input s in_ out startI bw) ;;
        match r with
        | None => Ok (startI, bw)
        | Some (in_, out, startI, bw) =>
            let '(s, in_) := TryReadByte in_ in
            compressFromHint_loop fuel' c input short long dict in_ s out startI bw
        end
    end.

(** [compressor.compressFromHint(header, input, hint)], with the bit writer
    of the compressor made explicit: the result is [startI] and the
    writer.  Every turn of the loop has read one more byte of the hint, so
    [S (len hint)] turns are enough. *)
Definition compressFromHint (c : Compressor) (header : Header)
           (input hint : list Z) (bw : Writer) : outcome (Z * Writer) :=
  let '(short, long, dict) := InitBackRefTypes (len (dictData c)) (level c) in
  let in_ := NewReader hint in
  match Header_ReadFrom in_ with
  | (None, _) => Ok (0, bw)
  | (Some hintHeader, in_) =>
      if negb (Header_Version hintHeader =? Header_Version header)
         || negb (Header_Level hintHeader =? Header_Level header)
      then Ok (0, bw)                   (* hint is not usable. *)
      else if Header_Level hintHeader =? NoCompression then Ok (0, bw)
      else
        let '(s, in_) := TryReadByte in_ in
        compressFromHint_loop (S (List.length hint)) c input short long dict
          in_ s [] 0 bw
  end.

(** [Compress] up to and including [compressor.bw.Close()], for a level
    other than [NoCompression]: the contents of [compressor.buf].  [fuel]
    bounds the number of turns of the main loop. *)
Definition Compress_stream (fuel : nat) (c : Compressor) (input : list Z)
           (hints : list (list Z)) : outcome (list Z) :=
  let header := {| Header_Version := Version; Header_Level := level c |} in
  let buf := Header_WriteTo header [] in
  let bw := NewWriter in
  let '(shortBackRefType, longBackRefType, dictBackRefType) :=
    InitBackRefTypes (len (dictData c)) (level c) in
  '(startI, bw) <- match hints with
                   | [hint] => compressFromHint c header input hint bw
                   | _ => Ok (0, bw)
                   end ;;
  let bs := {| bDict := {| address := -1; length := -1; bType := dictBackRefType |};
               bShort := {| address := -1; length := -1; bType := shortBackRefType |};
               bLong := {| address := -1; length := -1; bType := longBackRefType |} |} in
  bw <- Compress_loop fuel c input bs startI bw ;;
  Ok (buf ++ Close bw).

(** [compressor.Compress(input, hints...)] *)
Definition Compress (fuel : nat) (c : Compressor) (input : list Z)
           (hints : list (list Z)) : outcome (list Z) :=
  if len input >? MaxInputSize then Err ErrInputSize else
  if level c =? NoCompression then
    Ok (Header_WriteTo {| Header_Version := Version; Header_Level := level c |} []
          ++ input)
  else
    buf <- Compress_stream fuel c input hints ;;
    if len buf >=? len input + bitLen / 8 then
      (* compression was not worth it *)
      Ok (Header_WriteTo {| Header_Version := Version; Header_Level := NoCompression |} []
            ++ input)
    else Ok buf.

(** The header validation of [compressFromHint] rejects the hint: its
    header cannot be read, or its version or level is not the compressor's,
    or its level is [NoCompression]. *)
Definition hint_header_invalid (c : Compressor) (hint : list Z) : Prop :=
  match fst (Header_ReadFrom (NewReader hint)) with
  | None => True
  | Some h =>
      Header_Version h <> Version \/ Header_Level h <> level c \/
      Header_Level h = NoCompression
  end.

(** Modelled from the spec: the decompressor, which is not part of the
    compressor sources.  It reads the output layout: "[Version : u8]
    [Level : u8] [payload]; if Level = 0, payload is the raw input bytes;
    otherwise payload is a bit-packed sequence of items", each a literal
    byte or a back-reference.  A short or long reference copies [length]
    bytes from [address] bytes behind the write head, one at a time; a dict
    reference copies [dict[address : address+length]]. *)
Fixpoint Decompress_loop (fuel : nat) (dict : list Z)
         (short long dictT : BackrefType) (in_ : Reader) (s : Z)
         (out : list Z) : outcome (list Z) :=
  if TryError in_ then Ok out
  else
    match fuel with
    | O => OutOfFuel
    | S fuel' =>
        '(in_, out) <-
          (if (s =? SymbolShort) || (s =? SymbolLong) then
             let t := if s =? SymbolShort then short else long in
             let '(b, in_) := readFrom {| address := 0; length := 0; bType := t |} in_ in
             if TryError in_ then Err ErrEOF else
             out <- copyLoop (Z.to_nat (length b)) (address b) out ;;
             Ok (in_, out)
           else if s =? SymbolDict then
             let '(b, in_) := readFrom {| address := 0; length := 0; bType := dictT |} in_ in
             if TryError in_ then Err ErrEOF else
             d <- slice dict (address b) (address b + length b) ;;
             Ok (in_, out ++ d)
           else Ok (in_, out ++ [s])) ;;
        let '(s, in_) := TryReadByte in_ in
        Decompress_loop fuel' dict short long dictT in_ s out
    end.

Definition Decompress (dict : list Z) (c : list Z) : outcome (list Z) :=
  match c with
  | _ :: lvl :: payload =>
      if lvl =? NoCompression then Ok payload
      else
        let '(short, long, dictT) := InitBackRefTypes (len dict) lvl in
        let '(s, in_) := TryReadByte (NewReader payload) in
        Decompress_loop (S (List.length payload)) dict short long dictT in_ s []
  | _ => Err ErrEOF
  end.

(** *** Vocabulary of the statements about the emitted stream *)

(** The address a reference carries on the wire. *)
Definition wire_address (b : backref) (i : Z) : Z :=
  if dictOnly (bType b) then address b else i - address b - 1.

(** The bits of the length and address fields of a reference emitted at
    position [i]: what [writeTo] writes after the escape byte. *)
Definition ref_fields (b : backref) (i : Z) : list bool :=
  let t := bType b in
  writeNum (Z.to_nat (nbBitsAddress t))
    (writeNum (Z.to_nat (nbBitsLength t)) []
       ((length b - nbBytesBackRef t) mod 2 ^ 64) (nbBitsLength t))
    (wire_address b i mod 2 ^ 64) (nbBitsAddress t).


(** What the main loop and the replay of a hint write: literal bytes and
    back-references. *)
Inductive item : Type :=
| Lit (b : Z)
| Ref (r : backref).

(** The number of input bytes an item stands for. *)
Definition item_len (it : item) : Z :=
  match it with
  | Lit _ => 1
  | Ref r => length r
  end.

Definition emit (bw : Writer) (it : item) (i : Z) : Writer :=
  match it with
  | Lit b => TryWriteByte bw b
  | Ref r => writeTo r bw i
  end.

Fixpoint emit_all (bw : Writer) (items : list item) (i : Z) : Writer :=
  match items with
  | [] => bw
  | it :: rest => emit_all (emit bw it i) rest (i + item_len it)
  end.

(** The reference [r], emitted at position [i], stands for bytes that are
    where its address says: in the dictionary, or earlier in the input and
    within reach of the address field. *)
Definition match_at (input dict : list Z) (i : Z) (r : backref) : Prop :=
  i + length r <= len input /\
  length r <= maxLength (bType r) /\
  if dictOnly (bType r) then
    0 <= address r /\ address r + length r <= len dict /\
    forall k, 0 <= k < length r ->
      nth_error dict (Z.to_nat (address r + k)) = nth_error input (Z.to_nat (i + k))
  else
    0 <= address r < i /\ i - address r <= maxAddress (bType r) /\
    forall k, 0 <= k < length r ->
      nth_error input (Z.to_nat (address r + k)) = nth_error input (Z.to_nat (i + k)).

(** An item that the wire layout can carry at position [i]: a literal that
    is no escape symbol, or a reference of one of the three types, at
    least as long as its encoding. *)
Definition valid_item (input dict : list Z) (short long dictT : BackrefType)
           (i : Z) (it : item) : Prop :=
  match it with
  | Lit b => index input i = Ok b /\ canEncodeSymbol b = true
  | Ref r =>
      (bType r = short \/ bType r = long \/ bType r = dictT) /\
      nbBytesBackRef (bType r) <= length r /\
      match_at input dict i r
  end.

(** Items that cover the input from position [i] to position [j]. *)
Fixpoint valid_items (input dict : list Z) (short long dictT : BackrefType)
         (i : Z) (items : list item) (j : Z) : Prop :=
  match items with
  | [] => i = j
  | it :: rest =>
      valid_item input dict short long dictT i it /\
      valid_items input dict short long dictT (i + item_len it) rest j
  end.

(** The number of input bytes a list of items stands for. *)
Fixpoint items_len (items : list item) : Z :=
  match items with
  | [] => 0
  | it :: rest => item_len it + items_len rest
  end.

(** The literals among [items], laid out from position [i], are the input
    bytes at their positions, and none is an escape symbol. *)
Fixpoint literals_ok (input : list Z) (i : Z) (items : list item) : Prop :=
  match items with
  | [] => True
  | it :: rest =>
      match it with
      | Lit b => index input i = Ok b /\ canEncodeSymbol b = true
      | Ref _ => True
      end /\
      literals_ok input (i + item_len it) rest
  end.

(** Every back-reference among [items] is of one of the three types. *)
Definition refs_typed (short long dictT : BackrefType) (items : list item) : Prop :=
  Forall (fun it => match it with
                    | Lit _ => True
                    | Ref r => bType r = short \/ bType r = long \/ bType r = dictT
                    end) items.

(** Position [p] of the input lies within a back-reference of [items],
    laid out from position [i]. *)
Fixpoint in_backref (items : list item) (i p : Z) : Prop :=
  match items with
  | [] => False
  | it :: rest =>
      match it with
      | Lit _ => False
      | Ref r => i <= p < i + length r
      end \/
      in_backref rest (i + item_len it) p
  end.

(** What the statements use of a back-reference type: its fields are
    consistent with one another and the address field has at most 64
    bits. *)
Definition type_ok (t : BackrefType) : Prop :=
  0 <= symbol t < 256 /\ nbBitsLength t = 8 /\
  0 <= nbBitsAddress t <= 64 /\ 1 <= nbBytesBackRef t /\
  maxLength t = 2 ^ 8 + nbBytesBackRef t - 1 /\
  maxAddress t = 2 ^ nbBitsAddress t.

(** The three types of one compression, over a dictionary of [dictLen]
    bytes. *)
Definition types_ok (short long dictT : BackrefType) (dictLen : Z) : Prop :=
  type_ok short /\ type_ok long /\ type_ok dictT /\
  symbol short = SymbolShort /\ symbol long = SymbolLong /\
  symbol dictT = SymbolDict /\
  dictOnly short = false /\ dictOnly long = false /\ dictOnly dictT = true /\
  dictLen <= 2 ^ nbBitsAddress dictT.

(** A candidate that [findBackRef] returns at position [i] for the minimal
    length [minLen]: none, or a match that is long enough. *)
Definition cand_ok (input dict : list Z) (i minLen : Z) (r : backref) : Prop :=
  length r = -1 \/
  ((if minLen =? -1 then nbBytesBackRef (bType r) else minLen) <= length r /\
   match_at input dict i r).

(** The three references that the closures of [Compress] share keep the
    types they are created with. *)
Definition bs_types (short long dictT : BackrefType) (bs : backrefs) : Prop :=
  bType (bDict bs) = dictT /\ bType (bShort bs) = short /\ bType (bLong bs) = long.

(** The contract of [LookupLongest] that [Compress] relies on: a result
    whose length is not -1 is an occurrence, in the indexed data and
    starting in the window, of the first [l] bytes of the pattern, with [l]
    in [minLen, maxLen]. *)
Definition lookup_sound : Prop :=
  forall data pattern minLen maxLen lo hi a l,
    LookupLongest data pattern minLen maxLen lo hi = (a, l) ->
    l = -1 \/
    (lo <= a < hi /\ minLen <= l <= maxLen /\
     forall k, 0 <= k < l ->
       nth_error data (Z.to_nat (a + k)) = nth_error pattern (Z.to_nat k)).

(** The other half of the contract of [LookupLongest]: when the first
    [minLen] bytes of the pattern occur in the indexed data at an offset of
    the window, the result is a match. *)
Definition lookup_complete : Prop :=
  forall data pattern minLen maxLen lo hi o,
    0 <= lo <= o -> o < hi -> 1 <= minLen <= maxLen ->
    (forall k, 0 <= k < minLen ->
       exists x, nth_error pattern (Z.to_nat k) = Some x /\
                 nth_error data (Z.to_nat (o + k)) = Some x) ->
    snd (LookupLongest data pattern minLen maxLen lo hi) <> -1.

(** The constants are bytes. *)
Definition constants_are_bytes : Prop :=
  0 <= SymbolDict < 256 /\ 0 <= SymbolShort < 256 /\ 0 <= SymbolLong < 256 /\
  0 <= Version < 256.

(** An input of bytes none of which is an escape symbol. *)
Definition escape_free (input : list Z) : Prop :=
  Forall (fun b => 0 <= b < 256 /\ canEncodeSymbol b = true) input.

End WithConstants.

(** Modelled from the spec: [LookupLongest] of package
    [lzss/internal/suffixarray], by exhaustive search.  "Returns the longest
    occurrence of a prefix of [pattern] of length in [minLen, maxLen] whose
    start offset [o] satisfies [lo <= o < hi].  Returns (-1, -1) when none
    exists."  Among the longest the first offset is taken. *)
Fixpoint commonPrefix (a b : list Z) : Z :=
  match a, b with
  | x :: a', y :: b' => if x =? y then 1 + commonPrefix a' b' else 0
  | _, _ => 0
  end.

Fixpoint lookupScan (data pattern : list Z) (maxLen : Z) (o : Z) (n : nat)
         (best : Z * Z) : Z * Z :=
  match n with
  | O => best
  | S n' =>
      let l := Z.min maxLen (commonPrefix (skipn (Z.to_nat o) data) pattern) in
      lookupScan data pattern maxLen (o + 1) n'
        (if snd best <? l then (o, l) else best)
  end.

Definition searchLongest (data pattern : list Z) (minLen maxLen lo hi : Z) : Z * Z :=
  let lo := Z.max 0 lo in
  let best := lookupScan data pattern maxLen lo (Z.to_nat (hi - lo)) (-1, -1) in
  if snd best <? minLen then (-1, -1) else best.

Definition searchIndex : SuffixArray := {| LookupLongest := searchLongest |}.

(** What the scan holds as its best so far: nothing, or an occurrence that
    starts in the part of the window already visited. *)
Definition scan_inv (data pattern : list Z) (maxLen lo o : Z) (best : Z * Z) : Prop :=
  snd best = -1 \/
  (lo <= fst best < o /\ 0 <= snd best <= maxLen /\
   forall k, 0 <= k < snd best ->
     nth_error data (Z.to_nat (fst best + k)) = nth_error pattern (Z.to_nat k)).

(** Slices whose capacity is their length, as a slice literal has. *)
Definition noSpare : SpareCapacity := {| inputSpare := []; dictSpare := [] |}.

(** An instance to run the model on: the three highest bytes as escapes. *)
Definition sampleConstants : Constants := {|
  SymbolDict := 255;
  SymbolShort := 254;
  SymbolLong := 253;
  Version := 1;
  MaxInputSize := 2097152;
  MaxDictSize := 4194304
|}.

End Lzss.

(** ** Sample data for the concrete runs *)

(** Candidates at level 8 over a three-byte dictionary: no dict match, a
    short match of 5 bytes (cost 4) and a long match of 6 bytes (cost 5). *)
Definition tied_candidates : Lzss.backrefs :=
  let '(short, long, dict) :=
    @Lzss.InitBackRefTypes Lzss.sampleConstants 3 8 in
  {| Lzss.bDict := {| Lzss.address := -1; Lzss.length := -1; Lzss.bType := dict |};
     Lzss.bShort := {| Lzss.address := 0; Lzss.length := 5; Lzss.bType := short |};
     Lzss.bLong := {| Lzss.address := 0; Lzss.length := 6; Lzss.bType := long |} |}.

Definition sampleCompressor : Lzss.Compressor :=
  {| Lzss.dictData := [255; 254; 253]; Lzss.level := 8 |}.

Definition sampleCompress (input : list Z) (hints : list (list Z)) : outcome (list Z) :=
  @Lzss.Compress Lzss.sampleConstants Lzss.searchIndex Lzss.noSpare
    (S (List.length input)) sampleCompressor input hints.

(** The dictionary of [NewCompressor(nil, 8)]: the [append] of
    [AugmentDict] allocates eight bytes for the three escapes, and the
    other five are zero. *)
Definition spareDict : Lzss.SpareCapacity :=
  {| Lzss.inputSpare := []; Lzss.dictSpare := [0; 0; 0; 0; 0] |}.

(** An input that is the first bytes of a longer array of sevens, as
    [buf[:n]] is. *)
Definition spareInput : Lzss.SpareCapacity :=
  {| Lzss.inputSpare := repeat 7 8; Lzss.dictSpare := [] |}.

(** ** Outcomes other than the panic of [writeByte] *)

Definition no_encode_panic {A : Type} (m : outcome A) : Prop :=
  m <> Panic PanicCannotEncode.

(** The call returns a value: no error, no panic, and fuel to spare. *)
Definition returns {A : Type} (m : outcome A) : Prop :=
  exists a, m = Ok a.

(** The call ends in no error value. *)
Definition no_error {A : Type} (m : outcome A) : Prop := forall e, m <> Err e.

(** * Properties *)

(** ** Lists and slices *)

Lemma list_eqb_eq l1 l2 : list_eqb l1 l2 = true <-> l1 = l2.
Proof.
  revert l2; induction l1 as [|a t IH]; intros [|b t2]; simpl; split;
    try congruence; try reflexivity.
  - intros E. apply andb_true_iff in E. destruct E as [Eab Et].
    apply Z.eqb_eq in Eab. apply IH in Et. congruence.
  - intros E. injection E as -> ->. rewrite Z.eqb_refl. simpl. now apply IH.
Qed.

Lemma len_app {A} (l1 l2 : list A) : len (l1 ++ l2) = len l1 + len l2.
Proof. unfold len. rewrite length_app. lia. Qed.

Lemma len_nonneg {A} (l : list A) : 0 <= len l.
Proof. unfold len. lia. Qed.

Lemma index_Ok {A} (l : list A) i a :
  index l i = Ok a -> 0 <= i < len l /\ nth_error l (Z.to_nat i) = Some a.
Proof.
  unfold index. destruct (i <? 0) eqn:Ei; [discriminate|].
  destruct (nth_error l (Z.to_nat i)) eqn:En; [|discriminate].
  intros E; injection E as ->. apply Z.ltb_ge in Ei.
  assert (Hl : (Z.to_nat i < length l)%nat)
    by (apply nth_error_Some; congruence).
  unfold len. split; [lia | reflexivity].
Qed.

Lemma index_not_encode_panic {A} (l : list A) i :
  index l i <> Panic PanicCannotEncode.
Proof.
  unfold index. destruct (i <? 0); [discriminate|].
  destruct (nth_error l (Z.to_nat i)); discriminate.
Qed.

(** ** The bit reader and writer *)

Section BitioFacts.
Import Bitio.

Lemma length_bitsMSB (n : nat) (v : Z) : List.length (bitsMSB n v) = n.
Proof. induction n as [|n IH]; cbn [bitsMSB List.length]; congruence. Qed.

Lemma valueMSB_bitsMSB (n : nat) (v : Z) : forall acc,
  valueMSB acc (bitsMSB n v) = acc * 2 ^ Z.of_nat n + v mod 2 ^ Z.of_nat n.
Proof.
  induction n as [|n IH]; intros acc; cbn [bitsMSB valueMSB].
  - cbn. rewrite Z.mod_1_r. lia.
  - rewrite IH. rewrite Nat2Z.inj_succ, Z.pow_succ_r by lia.
    rewrite (Z.mul_comm 2 (2 ^ Z.of_nat n)).
    rewrite Z.rem_mul_r by lia.
    rewrite <- Z.testbit_spec' by lia. ring.
Qed.

Lemma valueMSB_app (l1 l2 : list bool) : forall acc,
  valueMSB acc (l1 ++ l2) = valueMSB (valueMSB acc l1) l2.
Proof. induction l1 as [|b l1 IH]; intros acc; cbn; [reflexivity | apply IH]. Qed.

Lemma valueMSB_acc (l : list bool) : forall acc,
  valueMSB acc l = acc * 2 ^ len l + valueMSB 0 l.
Proof.
  induction l as [|b l IH]; intros acc; cbn [valueMSB].
  - change (len []) with 0. cbn. lia.
  - rewrite IH, (IH (2 * 0 + Z.b2z b)).
    replace (len (b :: l)) with (Z.succ (len l)) by (unfold len; cbn; lia).
    rewrite Z.pow_succ_r by apply len_nonneg. ring.
Qed.

Lemma valueMSB_bound (l : list bool) : 0 <= valueMSB 0 l < 2 ^ len l.
Proof.
  induction l as [|b l IH].
  - cbn. lia.
  - cbn [valueMSB]. rewrite valueMSB_acc.
    replace (len (b :: l)) with (Z.succ (len l)) by (unfold len; cbn; lia).
    rewrite Z.pow_succ_r by apply len_nonneg.
    destruct b; cbn [Z.b2z]; lia.
Qed.

Lemma bitsMSB_mod (n : nat) (v : Z) :
  bitsMSB n (v mod 2 ^ Z.of_nat n) = bitsMSB n v.
Proof.
  assert (G : forall m, (m <= n)%nat ->
            bitsMSB m (v mod 2 ^ Z.of_nat n) = bitsMSB m v).
  { induction m as [|m IH]; intros Hm; cbn [bitsMSB]; [reflexivity|].
    rewrite IH by lia. f_equal. apply Z.mod_pow2_bits_low. lia. }
  apply G. lia.
Qed.

Lemma bitsMSB_valueMSB (l : list bool) :
  bitsMSB (List.length l) (valueMSB 0 l) = l.
Proof.
  induction l as [|b l IH]; [reflexivity|].
  cbn [List.length bitsMSB valueMSB]. rewrite valueMSB_acc.
  pose proof (valueMSB_bound l) as Hb. fold (len l). f_equal.
  - rewrite Z.testbit_eqb by apply len_nonneg.
    replace ((2 * 0 + Z.b2z b) * 2 ^ len l + valueMSB 0 l)
      with (valueMSB 0 l + Z.b2z b * 2 ^ len l) by ring.
    rewrite Z.div_add by lia. rewrite Z.div_small by lia.
    destruct b; reflexivity.
  - rewrite <- bitsMSB_mod.
    replace ((2 * 0 + Z.b2z b) * 2 ^ len l + valueMSB 0 l)
      with (valueMSB 0 l + Z.b2z b * 2 ^ len l) by ring.
    unfold len at 1. rewrite Z.mod_add by (unfold len; lia).
    rewrite Z.mod_small by (unfold len in *; lia). exact IH.
Qed.

(** Reading back what was written: [n] bits of a value below [2^n]. *)
Lemma TryReadBits_bitsMSB (n : nat) (v : Z) (rest : list bool) :
  (n <= 64)%nat -> 0 <= v < 2 ^ Z.of_nat n ->
  TryReadBits {| rbits := bitsMSB n v ++ rest; TryError := false |} (Z.of_nat n)
  = (v, {| rbits := rest; TryError := false |}).
Proof.
  intros Hn Hv. unfold TryReadBits. cbn [TryError rbits].
  rewrite len_app. unfold len at 1. rewrite length_bitsMSB.
  destruct (Z.of_nat n + len rest <? Z.of_nat n) eqn:E.
  { apply Z.ltb_lt in E. pose proof (len_nonneg rest). lia. }
  rewrite Nat2Z.id.
  rewrite firstn_app, length_bitsMSB, Nat.sub_diag, firstn_O, app_nil_r.
  rewrite firstn_all2 by (rewrite length_bitsMSB; lia).
  rewrite skipn_app, length_bitsMSB, Nat.sub_diag, skipn_O.
  rewrite skipn_all2 by (rewrite length_bitsMSB; lia). cbn [app].
  rewrite valueMSB_bitsMSB. rewrite (Z.mod_small v (2 ^ Z.of_nat n)) by lia.
  rewrite Z.mul_0_l, Z.add_0_l.
  rewrite Z.mod_small; [reflexivity|].
  assert (2 ^ Z.of_nat n <= 2 ^ 64) by (apply Z.pow_le_mono_r; lia). lia.
Qed.

Lemma TryReadByte_byte (b : Z) (rest : list bool) :
  0 <= b < 256 ->
  TryReadByte {| rbits := bitsMSB 8 b ++ rest; TryError := false |}
  = (b, {| rbits := rest; TryError := false |}).
Proof.
  intros Hb. unfold TryReadByte.
  apply (TryReadBits_bitsMSB 8 b rest); [lia | exact Hb].
Qed.

(** A read past the end sets the sticky error. *)
Lemma TryReadByte_short (bits : list bool) :
  (List.length bits < 8)%nat ->
  TryError (snd (TryReadByte {| rbits := bits; TryError := false |})) = true.
Proof.
  intros Hl. unfold TryReadByte, TryReadBits. cbn [TryError rbits].
  destruct (len bits <? 8) eqn:E; [reflexivity|].
  apply Z.ltb_ge in E. unfold len in E. lia.
Qed.

Lemma firstn_repeat_le {A} (x : A) : forall k n : nat,
  (k <= n)%nat -> firstn k (repeat x n) = repeat x k.
Proof.
  induction k as [|k IH]; intros n Hk; [reflexivity|].
  destruct n as [|n]; [lia|]. cbn. f_equal. apply IH. lia.
Qed.

Lemma bitsToBytes_aux_nil (n : nat) : bitsToBytes_aux n [] = [].
Proof. destruct n; reflexivity. Qed.

(** The bits of the bytes that [Close] hands over are the bits written,
    followed by fewer than eight bits of padding. *)
Lemma bytesToBits_bitsToBytes_aux (n : nat) : forall bs,
  (List.length bs <= n)%nat ->
  exists pad, (List.length pad < 8)%nat /\
              bytesToBits (bitsToBytes_aux n bs) = bs ++ pad.
Proof.
  induction n as [|n IH]; intros bs Hn.
  - destruct bs; [|cbn in Hn; lia]. exists []. split; [cbn; lia | reflexivity].
  - destruct bs as [|b0 bs0].
    { exists []. split; [cbn; lia | reflexivity]. }
    change (bitsToBytes_aux (S n) (b0 :: bs0))
      with (valueMSB 0 (firstn 8 ((b0 :: bs0) ++ repeat false 7))
              :: bitsToBytes_aux n (skipn 8 (b0 :: bs0))).
    assert (Hne : (0 < List.length (b0 :: bs0))%nat) by (cbn; lia).
    revert Hn Hne. generalize (b0 :: bs0). intros bs Hn Hne.
    set (chunk := firstn 8 (bs ++ repeat false 7)).
    assert (Hchunk : List.length chunk = 8%nat).
    { unfold chunk. rewrite length_firstn, length_app, repeat_length. lia. }
    unfold bytesToBits. cbn [flat_map]. fold (bytesToBits (bitsToBytes_aux n (skipn 8 bs))).
    pose proof (bitsMSB_valueMSB chunk) as Hc. rewrite Hchunk in Hc.
    rewrite Hc. clear Hc.
    destruct (Nat.le_gt_cases 8 (List.length bs)) as [Hge | Hlt].
    + destruct (IH (skipn 8 bs)) as (pad & Hpad & Epad).
      { rewrite length_skipn. lia. }
      exists pad. split; [exact Hpad|]. rewrite Epad.
      unfold chunk. rewrite firstn_app.
      replace (8 - List.length bs)%nat with 0%nat by lia.
      rewrite firstn_O, app_nil_r, app_assoc, firstn_skipn. reflexivity.
    + exists (repeat false (8 - List.length bs)).
      split; [rewrite repeat_length; lia|].
      rewrite skipn_all2 by lia. rewrite bitsToBytes_aux_nil.
      change (bytesToBits []) with (@nil bool). rewrite app_nil_r.
      unfold chunk. rewrite firstn_app, firstn_all2 by lia. f_equal.
      apply firstn_repeat_le. lia.
Qed.

Lemma bytesToBits_Close (w : Writer) :
  exists pad, (List.length pad < 8)%nat /\ bytesToBits (Close w) = w ++ pad.
Proof. apply bytesToBits_bitsToBytes_aux. lia. Qed.

Lemma bytesToBits_app (l1 l2 : list Z) :
  bytesToBits (l1 ++ l2) = bytesToBits l1 ++ bytesToBits l2.
Proof. unfold bytesToBits. apply flat_map_app. Qed.

End BitioFacts.

(** ** The wire layout of a back-reference *)

Section CodecFacts.
Import Bitio Lzss.

Lemma writeNum_app (fuel : nat) : forall w v n,
  writeNum fuel w v n = w ++ writeNum fuel [] v n.
Proof.
  induction fuel as [|fuel IH]; intros w v n; cbn [writeNum].
  - now rewrite app_nil_r.
  - destruct (8 <=? n).
    + rewrite IH, (IH (TryWriteByte [] (v mod 256))).
      unfold TryWriteByte. cbn [app]. now rewrite app_assoc.
    + destruct (0 <? n); [reflexivity | now rewrite app_nil_r].
Qed.

Lemma readNum_zero (fr : nat) (r : Reader) (shift acc : Z) :
  readNum fr r 0 shift acc = (acc, r).
Proof. destruct fr; reflexivity. Qed.

Lemma writeNum_zero (fw : nat) (w : Writer) (v : Z) : writeNum fw w v 0 = w.
Proof. destruct fw; reflexivity. Qed.

(** A field of [n] bits reads back as the value written, when the value
    fits the field. *)
Lemma readNum_writeNum (fw : nat) : forall (fr : nat) n v shift acc rest,
  0 <= n -> n <= 8 * Z.of_nat fw -> n <= 8 * Z.of_nat fr ->
  0 <= v < 2 ^ n -> 0 <= shift ->
  readNum fr {| rbits := writeNum fw [] v n ++ rest; TryError := false |}
          n shift acc
  = (acc + v * 2 ^ shift, {| rbits := rest; TryError := false |}).
Proof.
  induction fw as [|fw IH]; intros fr n v shift acc rest Hn Hw Hr Hv Hs.
  - assert (n = 0) by lia. subst n. change (2 ^ 0) with 1 in Hv.
    assert (v = 0) by lia. subst v.
    rewrite writeNum_zero, readNum_zero. cbn [app]. f_equal. lia.
  - destruct fr as [|fr].
    { assert (n = 0) by lia. subst n. change (2 ^ 0) with 1 in Hv.
      assert (v = 0) by lia. subst v.
      rewrite writeNum_zero, readNum_zero. cbn [app]. f_equal. lia. }
    cbn [writeNum readNum]. destruct (8 <=? n) eqn:E8.
    + apply Z.leb_le in E8.
      rewrite writeNum_app. unfold TryWriteByte at 1. cbn [app].
      rewrite <- app_assoc.
      rewrite TryReadByte_byte by (apply Z.mod_pos_bound; lia).
      assert (Hp : 2 ^ n = 256 * 2 ^ (n - 8)).
      { replace n with (8 + (n - 8)) at 1 by lia.
        rewrite Z.pow_add_r by lia. reflexivity. }
      rewrite IH; try lia.
      * f_equal. rewrite Z.pow_add_r by lia.
        pose proof (Z.div_mod v 256). change (2 ^ 8) with 256. nia.
      * split; [apply Z.div_pos; lia|].
        apply Z.div_lt_upper_bound; lia.
    + apply Z.leb_gt in E8. destruct (0 <? n) eqn:E0.
      * apply Z.ltb_lt in E0. unfold TryWriteBits. cbn [app].
        rewrite <- (Z2Nat.id n) at 2 by lia.
        rewrite TryReadBits_bitsMSB; [reflexivity | lia |].
        rewrite Z2Nat.id by lia. exact Hv.
      * apply Z.ltb_ge in E0. assert (n = 0) by lia. subst n.
        change (2 ^ 0) with 1 in Hv. assert (v = 0) by lia. subst v.
        cbn [app]. f_equal. lia.
Qed.

Lemma writeTo_app (b : backref) (w : Writer) (i : Z) :
  writeTo b w i = w ++ writeTo b [] i.
Proof.
  unfold writeTo. cbn zeta.
  rewrite writeNum_app.
  rewrite (writeNum_app _ (TryWriteByte w (symbol (bType b)))).
  rewrite (writeNum_app _ (writeNum _ (TryWriteByte [] _) _ _)).
  rewrite (writeNum_app _ (TryWriteByte [] (symbol (bType b)))).
  unfold TryWriteByte. cbn [app]. now rewrite !app_assoc.
Qed.

Lemma writeTo_fields (b : backref) (i : Z) :
  writeTo b [] i = bitsMSB 8 (symbol (bType b)) ++ ref_fields b i.
Proof.
  unfold writeTo, ref_fields. cbn zeta. fold (wire_address b i).
  rewrite writeNum_app.
  rewrite (writeNum_app _ (TryWriteByte [] (symbol (bType b)))).
  rewrite (writeNum_app _ (writeNum _ [] _ _)).
  unfold TryWriteByte. cbn [app]. now rewrite !app_assoc.
Qed.

(** After the escape byte, [readFrom] recovers the length and the address
    of a reference whose fields are in range. *)
Lemma readFrom_fields (b b0 : backref) (i : Z) (rest : list bool) :
  bType b0 = bType b ->
  0 <= nbBitsLength (bType b) <= 64 -> 0 <= nbBitsAddress (bType b) <= 64 ->
  0 <= length b - nbBytesBackRef (bType b) < 2 ^ nbBitsLength (bType b) ->
  0 <= wire_address b i < 2 ^ nbBitsAddress (bType b) ->
  readFrom b0 {| rbits := ref_fields b i ++ rest; TryError := false |}
  = ({| address := if dictOnly (bType b) then address b else i - address b;
        length := length b; bType := bType b |},
     {| rbits := rest; TryError := false |}).
Proof.
  intros Ht HL HA Hlen Haddr.
  assert (Hpow : forall n, 0 <= n <= 64 -> 2 ^ n <= 2 ^ 64)
    by (intros; apply Z.pow_le_mono_r; lia).
  pose proof (Hpow _ HL). pose proof (Hpow _ HA).
  unfold ref_fields. rewrite writeNum_app, <- app_assoc.
  unfold readFrom. rewrite Ht.
  rewrite (Z.mod_small (length b - nbBytesBackRef (bType b))) by lia.
  rewrite (Z.mod_small (wire_address b i)) by lia.
  rewrite readNum_writeNum; try lia.
  rewrite readNum_writeNum; try lia.
  unfold wire_address. f_equal. f_equal; destruct (dictOnly (bType b)); lia.
Qed.

End CodecFacts.

(** ** AugmentDict *)

Section AugmentDictFacts.
Import Lzss.
Context {consts : Constants}.

Lemma AugmentDict_loop_spec (dict : list Z) : forall found,
  symbols_distinct -> 0 <= found < 7 ->
  (AugmentDict_loop found dict = true <->
   (Z.testbit found 0 = true \/ In SymbolDict dict) /\
   (Z.testbit found 1 = true \/ In SymbolShort dict) /\
   (Z.testbit found 2 = true \/ In SymbolLong dict)).
Proof.
  induction dict as [|b rest IH]; intros found Hd Hf.
  - simpl. split; [discriminate|].
    intros (H0 & H1 & H2).
    assert (E : found = 0 \/ found = 1 \/ found = 2 \/ found = 3 \/
                found = 4 \/ found = 5 \/ found = 6) by lia.
    exfalso.
    destruct E as [-> | [-> | [-> | [-> | [-> | [-> | ->]]]]]];
      cbn in H0, H1, H2; intuition discriminate.
  - destruct Hd as (Hds & Hdl & Hsl).
    assert (E : found = 0 \/ found = 1 \/ found = 2 \/ found = 3 \/
                found = 4 \/ found = 5 \/ found = 6) by lia.
    cbn [AugmentDict_loop In].
    destruct (Z.eqb_spec b SymbolDict) as [-> | Nd];
      [| destruct (Z.eqb_spec b SymbolShort) as [-> | Ns];
         [| destruct (Z.eqb_spec b SymbolLong) as [-> | Nl]]];
      destruct E as [-> | [-> | [-> | [-> | [-> | [-> | ->]]]]]];
      cbn [Z.lor Pos.lor Z.eqb Pos.eqb];
      try (rewrite IH by (repeat split; (assumption || lia)));
      cbn; intuition (try discriminate; try congruence).
Qed.

Lemma AugmentDict_loop_all_present (dict : list Z) :
  symbols_distinct ->
  (AugmentDict_loop 0 dict = true <->
   In SymbolDict dict /\ In SymbolShort dict /\ In SymbolLong dict).
Proof.
  intros Hd. rewrite AugmentDict_loop_spec by (assumption || lia).
  cbn. intuition discriminate.
Qed.

(** C6, as amended.  When at least one escape symbol does not occur in the
    dictionary, [AugmentDict] appends all three of them, [SymbolDict],
    [SymbolShort], [SymbolLong] in this order, whether or not some of them
    occur already; when all three occur it returns the dictionary
    unchanged. *)
Theorem AugmentDict_appends_all_three (dict : list Z) :
  symbols_distinct ->
  ((~ In SymbolDict dict \/ ~ In SymbolShort dict \/ ~ In SymbolLong dict) ->
   AugmentDict dict = dict ++ [SymbolDict; SymbolShort; SymbolLong]) /\
  (In SymbolDict dict /\ In SymbolShort dict /\ In SymbolLong dict ->
   AugmentDict dict = dict).
Proof.
  intros Hd. pose proof (AugmentDict_loop_all_present dict Hd) as L.
  unfold AugmentDict. split.
  - intros Hmiss. destruct (AugmentDict_loop 0 dict); [|reflexivity].
    exfalso. destruct L as [L _]. specialize (L eq_refl). tauto.
  - intros Hall. destruct L as [_ L]. rewrite (L Hall). reflexivity.
Qed.

End AugmentDictFacts.

(** The dictionary [[0xff]] lacks two escapes and receives all three. *)
Lemma AugmentDict_appends_all_three_witness :
  @Lzss.AugmentDict Lzss.sampleConstants [255] = [255; 255; 254; 253].
Proof.
  apply (@AugmentDict_appends_all_three Lzss.sampleConstants [255]).
  - repeat split; discriminate.
  - right; left. simpl. intros [E | []]. discriminate E.
Defined.

(** C6, as stated, fails: a dictionary that holds [SymbolDict] only gets a
    second [SymbolDict], not just the two missing escapes. *)
Lemma AugmentDict_not_missing_only :
  ~ In (@Lzss.SymbolShort Lzss.sampleConstants) [255] /\
  @Lzss.AugmentDict Lzss.sampleConstants [255]
    <> @Lzss.AugmentDict_missing_only Lzss.sampleConstants [255].
Proof.
  split.
  - simpl. intros [E | []]. discriminate E.
  - vm_compute. discriminate.
Qed.

(** ** bestBackref *)

Section BestBackrefFacts.
Import Lzss.

(** C5, as amended.  [bestBackref] returns the dict candidate only when it
    exists and its savings strictly exceed those of the short and of the
    long candidate; the short candidate only when it exists and its savings
    strictly exceed those of the long one; so whenever the short and the
    long candidate have equal savings and the dict candidate is not
    returned, the long one is. *)
Theorem bestBackref_selection (bs : backrefs) :
  bDict bs <> bShort bs -> bDict bs <> bLong bs -> bShort bs <> bLong bs ->
  (fst (bestBackref bs) = bDict bs ->
   length (bDict bs) <> -1 /\
   savings (bDict bs) > savings (bShort bs) /\
   savings (bDict bs) > savings (bLong bs)) /\
  (fst (bestBackref bs) = bShort bs ->
   length (bShort bs) <> -1 /\ savings (bShort bs) > savings (bLong bs)) /\
  (savings (bShort bs) = savings (bLong bs) ->
   fst (bestBackref bs) <> bDict bs ->
   bestBackref bs = (bLong bs, savings (bLong bs))).
Proof.
  intros Nds Ndl Nsl. unfold bestBackref.
  destruct (length (bDict bs) =? -1) eqn:Ed;
    destruct (savings (bDict bs) >? savings (bShort bs)) eqn:E1;
    destruct (savings (bDict bs) >? savings (bLong bs)) eqn:E2;
    destruct (length (bShort bs) =? -1) eqn:Es;
    destruct (savings (bShort bs) >? savings (bLong bs)) eqn:E3;
    cbn [negb andb fst];
    rewrite ?Z.eqb_eq, ?Z.eqb_neq in *;
    rewrite ?Z.gtb_gt in *;
    repeat split; intros; try congruence; try lia;
    try (exfalso; apply Z.gtb_gt in E3; lia).
Qed.

End BestBackrefFacts.

Lemma bestBackref_selection_witness :
  Lzss.bestBackref tied_candidates
  = (Lzss.bLong tied_candidates, Lzss.savings (Lzss.bLong tied_candidates)).
Proof.
  apply (bestBackref_selection tied_candidates);
    try (vm_compute; discriminate).
  vm_compute. reflexivity.
Defined.

(** C5, as stated, fails: with a short and a long candidate of equal
    savings, the long one is returned, not the short one. *)
Lemma bestBackref_tie_picks_long :
  Lzss.length (Lzss.bShort tied_candidates) <> -1 /\
  Lzss.length (Lzss.bLong tied_candidates) <> -1 /\
  Lzss.savings (Lzss.bShort tied_candidates)
    = Lzss.savings (Lzss.bLong tied_candidates) /\
  fst (Lzss.bestBackref tied_candidates) <> Lzss.bShort tied_candidates.
Proof.
  repeat split; vm_compute; discriminate || reflexivity.
Qed.

(** ** The copy loop of compressFromHint *)

Section CopyLoopFacts.
Import Lzss.

(** C9, as amended.  The copy loop evaluates [out.Len()] afresh on every
    turn, so the position it reads advances with the buffer: when the loop
    runs to its end, the [k]-th byte it appends is the byte at index
    [out.Len() - address + k] of the final buffer, [out.Len()] being the
    length at loop entry. *)
Theorem copyLoop_advances (n : nat) (address : Z) : forall (out out' : list Z),
  copyLoop n address out = Ok out' ->
  exists added : list Z,
    out' = out ++ added /\ List.length added = n /\
    forall k : nat, (k < n)%nat ->
      nth_error added k = nth_error out' (Z.to_nat (len out - address) + k).
Proof.
  induction n as [|n IH]; intros out out' E; cbn [copyLoop] in E.
  - injection E as <-. exists []. rewrite app_nil_r.
    repeat split; intros; lia.
  - destruct (index out (len out - address)) as [b| | |] eqn:Ei;
      cbn [bind] in E; try discriminate.
    apply index_Ok in Ei. destruct Ei as [Hr Hb].
    destruct (IH _ _ E) as (added & -> & Hlen & Hk).
    exists (b :: added). rewrite <- app_assoc. cbn [app].
    split; [reflexivity|]. split; [cbn; lia|].
    intros [|k] Hlt.
    + rewrite Nat.add_0_r. cbn [nth_error].
      rewrite nth_error_app1 by (unfold len in *; lia).
      symmetry; exact Hb.
    + cbn [nth_error]. rewrite Hk by lia.
      rewrite <- app_assoc. cbn [app]. f_equal.
      rewrite len_app. change (len [b]) with 1. unfold len in *. lia.
Qed.

End CopyLoopFacts.

Lemma copyLoop_advances_witness :
  exists added : list Z,
    [1; 2; 1; 2] = [1; 2] ++ added /\ List.length added = 2%nat /\
    forall k : nat, (k < 2)%nat ->
      nth_error added k = nth_error [1; 2; 1; 2] (Z.to_nat (len [1; 2] - 2) + k).
Proof.
  apply (copyLoop_advances 2 2 [1; 2] [1; 2; 1; 2]). reflexivity.
Defined.

(** C9, as stated, fails: replaying a reference of length 2 at distance 2
    over [[1; 2]] appends [[1; 2]], not twice the byte at the entry
    position. *)
Lemma copyLoop_not_same_position :
  Lzss.copyLoop 2 2 [1; 2] = Ok [1; 2; 1; 2] /\
  Lzss.copyLoop 2 2 [1; 2] <> Ok (Lzss.copyLoop_same_position 2 2 [1; 2]).
Proof. split; vm_compute; [reflexivity | discriminate]. Qed.

(** ** Pack *)

Section PackFacts.
Import Stream.

Lemma firstn_succ_snoc {A} (l : list A) (j : nat) (d : A) :
  (j < List.length l)%nat -> firstn (S j) l = firstn j l ++ [nth j l d].
Proof.
  revert j; induction l as [|a l IH]; intros j Hj; cbn in Hj; [lia|].
  destruct j as [|j]; [reflexivity|].
  cbn [firstn nth app]. f_equal. apply IH. lia.
Qed.

Lemma nth_map_seq {A} (f : nat -> A) (d : A) (n : nat) : forall start i,
  (i < n)%nat -> nth i (map f (seq start n)) d = f (start + i)%nat.
Proof.
  induction n as [|n IH]; intros start i Hi; [lia|].
  destruct i as [|i]; cbn [seq map nth].
  - f_equal. lia.
  - rewrite IH by lia. f_equal. lia.
Qed.

Lemma digitsLE_snoc (radix : Z) (g : list Z) (x : Z) :
  digitsLE radix (g ++ [x]) = digitsLE radix g + x * radix ^ len g.
Proof.
  induction g as [|a g IH]; cbn [app digitsLE fold_right].
  - change (len []) with 0. rewrite Z.pow_0_r. lia.
  - fold (digitsLE radix (g ++ [x])). fold (digitsLE radix g). rewrite IH.
    replace (len (a :: g)) with (Z.succ (len g)) by (unfold len; cbn; lia).
    rewrite Z.pow_succ_r by apply len_nonneg. ring.
Qed.

Lemma bitLen_loop_ge (fuel : nat) : forall b n r,
  bitLen_loop fuel b n = Ok r -> b <= r.
Proof.
  induction fuel as [|fuel IH]; intros b n r E; cbn in E; [discriminate|].
  destruct (shl1 b <? n).
  - apply IH in E. lia.
  - injection E as <-. lia.
Qed.

Lemma bitLen_nonneg (n r : Z) : bitLen n = Ok r -> 0 <= r.
Proof. apply bitLen_loop_ge. Qed.

(** The inner loop of [Pack] reads its group with the first symbol as the
    least significant digit. *)
Lemma Pack_inner_digits (d : list Z) (i w radix : Z) (n : nat) : forall acc,
  0 <= i * w ->
  let g := firstn n (skipn (Z.to_nat (i * w)) d) in
  Pack_inner d i w radix n acc = acc * radix ^ len g + digitsLE radix g.
Proof.
  induction n as [|n IH]; intros acc Hoff; cbn zeta.
  - cbn [Pack_inner firstn]. change (len (@nil Z)) with 0.
    change (digitsLE radix []) with 0. rewrite Z.pow_0_r. lia.
  - cbn [Pack_inner].
    set (l := skipn (Z.to_nat (i * w)) d) in *.
    assert (Hl : List.length l = (List.length d - Z.to_nat (i * w))%nat)
      by (unfold l; apply length_skipn).
    destruct (i * w + Z.of_nat n >=? len d) eqn:Ege.
    + (* continue *)
      rewrite IH by assumption. cbn zeta. fold l.
      assert (Hn : (List.length l <= n)%nat).
      { rewrite Z.geb_leb in Ege. apply Z.leb_le in Ege. unfold len in Ege. lia. }
      rewrite (firstn_all2 l) by exact Hn.
      rewrite (firstn_all2 l) by lia. reflexivity.
    + rewrite IH by assumption. cbn zeta. fold l.
      assert (Hn : (n < List.length l)%nat).
      { rewrite Z.geb_leb in Ege. apply Z.leb_gt in Ege. unfold len in Ege. lia. }
      rewrite (firstn_succ_snoc l n 0 Hn), digitsLE_snoc.
      replace (nth (Z.to_nat (i * w + Z.of_nat n)) d 0) with (nth n l 0).
      2:{ unfold l. rewrite nth_skipn. f_equal. lia. }
      assert (Hg : len (firstn n l) = Z.of_nat n).
      { unfold len. rewrite length_firstn. lia. }
      rewrite len_app, Hg. change (len [nth n l 0]) with 1.
      rewrite Z.pow_add_r by lia. ring.
Qed.


End PackFacts.



(** ** FillBytes, then ReadBytes *)

(** C8, at a failing input: the stream is not restored.  One byte symbol
    in elements of 377 bits: [FillBytes] writes the length
    and a block of 48 bytes that ends with the symbol; [ReadBytes] has 368
    bits to skip before the symbol, skips [uint8(368) = 112] of them and
    reads a zero. *)
Example FillBytes_ReadBytes_377 :
  (dst <- Stream.FillBytes {| Stream.D := [1]; Stream.NbSymbs := 256 |}
            (repeat 0 52) 377 ;;
   Stream.ReadBytes {| Stream.D := []; Stream.NbSymbs := 256 |} dst 377)%outcome
  = Ok {| Stream.D := [0]; Stream.NbSymbs := 256 |}.
Proof. vm_compute. reflexivity. Qed.

(** An alphabet of one symbol is a power of two whose [bitLen] is zero:
    [FillBytes] divides by it. *)
Example FillBytes_one_symbol :
  Stream.FillBytes {| Stream.D := [0]; Stream.NbSymbs := 1 |} (repeat 0 8) 8
  = Panic PanicDivideByZero.
Proof. vm_compute. reflexivity. Qed.

(** ** Compress: literals are never escape symbols *)

Lemma bind_no_encode_panic {A B} (m : outcome A) (k : A -> outcome B) :
  no_encode_panic m ->
  (forall a, m = Ok a -> no_encode_panic (k a)) ->
  no_encode_panic (bind m k).
Proof.
  unfold no_encode_panic. intros Hm Hk.
  destruct m as [a | e | p |]; cbn [bind]; try discriminate.
  - apply Hk; reflexivity.
  - intros E. apply Hm. injection E as ->. reflexivity.
Qed.

Lemma Ok_no_encode_panic {A} (a : A) : no_encode_panic (Ok a).
Proof. discriminate. Qed.

Lemma Err_no_encode_panic {A} (e : error) : no_encode_panic (@Err A e).
Proof. discriminate. Qed.

Lemma index_no_encode_panic {A} (l : list A) i : no_encode_panic (index l i).
Proof. apply index_not_encode_panic. Qed.

Lemma slice_no_encode_panic {A} (l : list A) a b : no_encode_panic (slice l a b).
Proof.
  unfold slice. destruct ((0 <=? a) && (a <=? b) && (b <=? len l)); discriminate.
Qed.

Create HintDb nep.

#[local] Hint Resolve Ok_no_encode_panic Err_no_encode_panic
  index_no_encode_panic slice_no_encode_panic : nep.

(** Splits a goal [no_encode_panic m] along the binds, conditionals and
    pattern matches of [m]. *)
Ltac nep_step :=
  match goal with
  | |- no_encode_panic (bind _ _) =>
      apply bind_no_encode_panic; [ | intros ? ?]
  | |- no_encode_panic (if ?c then _ else _) => destruct c eqn:?
  | |- no_encode_panic (let '(_, _) := ?p in _) => destruct p eqn:?
  | |- no_encode_panic (match ?x with _ => _ end) => destruct x eqn:?
  | |- no_encode_panic _ => solve [auto with nep]
  end.

Section EscapeSafety.
Import Bitio Lzss.
Context {consts : Constants} {sa : SuffixArray} {spare : SpareCapacity}.

Lemma writeByte_canEncode (bw : Writer) (b : Z) :
  canEncodeSymbol b = true -> writeByte bw b = Ok (TryWriteByte bw b).
Proof. unfold writeByte. intros ->. reflexivity. Qed.

Lemma writeByte_Ok (bw bw' : Writer) (b : Z) :
  writeByte bw b = Ok bw' -> canEncodeSymbol b = true /\ bw' = TryWriteByte bw b.
Proof.
  unfold writeByte. destruct (canEncodeSymbol b); cbn [negb]; [|discriminate].
  intros E; injection E as <-. split; reflexivity.
Qed.

Lemma writeByte_no_encode_panic (bw : Writer) (b : Z) :
  canEncodeSymbol b = true -> no_encode_panic (writeByte bw b).
Proof. intros Hb. rewrite writeByte_canEncode by exact Hb. discriminate. Qed.

Lemma findBackRef_no_encode_panic c input data i t minLength :
  no_encode_panic (findBackRef c input data i t minLength).
Proof. unfold findBackRef. cbn zeta. repeat nep_step. Qed.

Lemma fillBackrefs_no_encode_panic c input bs i minLen :
  no_encode_panic (fillBackrefs c input bs i minLen).
Proof.
  unfold fillBackrefs.
  repeat (nep_step; try apply findBackRef_no_encode_panic).
Qed.

#[local] Hint Resolve fillBackrefs_no_encode_panic : nep.

Lemma index_inj {A} (l : list A) i a b :
  index l i = Ok a -> index l i = Ok b -> a = b.
Proof. congruence. Qed.

(** The look-ahead writes [input[i]] only for an [i] whose byte the caller
    has checked, and the bytes after it only after checking them itself. *)
Lemma lookahead_no_encode_panic c input bs i b bestAtI bestSavings bw :
  index input i = Ok b -> canEncodeSymbol b = true ->
  no_encode_panic (lookahead c input bs i bestAtI bestSavings bw).
Proof.
  intros Hi Hb. unfold lookahead.
  repeat (nep_step; subst;
          try match goal with
              | H : index input i = Ok ?x |- _ =>
                  assert (x = b) by (eapply index_inj; eassumption); subst x;
                  clear H
              end;
          try match goal with
              | H : (canEncodeSymbol _ && _)%bool = true |- _ =>
                  apply andb_true_iff in H; destruct H
              end;
          try (apply writeByte_no_encode_panic; assumption)).
Qed.

Lemma Compress_iter_no_encode_panic c input bs i bw :
  no_encode_panic (Compress_iter c input bs i bw).
Proof.
  unfold Compress_iter.
  repeat (nep_step;
          try match goal with
              | H : negb (canEncodeSymbol _) = false |- _ =>
                  apply negb_false_iff in H
              end;
          try (apply writeByte_no_encode_panic; assumption);
          try (eapply lookahead_no_encode_panic; eassumption)).
Qed.

Lemma Compress_loop_no_encode_panic fuel c input bs : forall i bw,
  no_encode_panic (Compress_loop fuel c input bs i bw).
Proof.
  induction fuel as [|fuel IH]; intros i bw; cbn [Compress_loop].
  - destruct (i <? len input); discriminate.
  - destruct (i <? len input); [|discriminate].
    apply bind_no_encode_panic.
    + apply Compress_iter_no_encode_panic.
    + intros [i' bw'] _. apply IH.
Qed.

Lemma copyLoop_no_encode_panic n address : forall out,
  no_encode_panic (copyLoop n address out).
Proof.
  induction n as [|n IH]; intros out; cbn [copyLoop]; [discriminate|].
  apply bind_no_encode_panic; [apply index_no_encode_panic|].
  intros; apply IH.
Qed.

Lemma replayCopy_no_encode_panic input t in_ out startI bw :
  no_encode_panic (replayCopy input t in_ out startI bw).
Proof.
  unfold replayCopy.
  repeat (nep_step; try apply copyLoop_no_encode_panic).
Qed.

Lemma replayDict_no_encode_panic c input t in_ out startI bw :
  no_encode_panic (replayDict c input t in_ out startI bw).
Proof. unfold replayDict. repeat nep_step. Qed.

(** The [default:] arm writes [input[startI]] after comparing it with the
    byte [s] read from the hint, which is no escape symbol. *)
Lemma replayLiteral_no_encode_panic input s in_ out startI bw :
  canEncodeSymbol s = true ->
  no_encode_panic (replayLiteral input s in_ out startI bw).
Proof.
  intros Hs. unfold replayLiteral.
  apply bind_no_encode_panic; [apply index_no_encode_panic|].
  intros b _. destruct (Z.eqb_spec s b) as [<- | _]; cbn [negb].
  - apply bind_no_encode_panic; [|intros; discriminate].
    apply writeByte_no_encode_panic; exact Hs.
  - discriminate.
Qed.

Lemma compressFromHint_loop_no_encode_panic fuel c input short long dict :
  forall in_ s out startI bw,
  no_encode_panic
    (compressFromHint_loop fuel c input short long dict in_ s out startI bw).
Proof.
  induction fuel as [|fuel IH]; intros in_ s out startI bw;
    cbn [compressFromHint_loop].
  - destruct (TryError in_); discriminate.
  - destruct (TryError in_); [discriminate|].
    apply bind_no_encode_panic.
    + destruct (s =? SymbolShort) eqn:Es;
        [apply replayCopy_no_encode_panic|].
      destruct (s =? SymbolLong) eqn:El;
        [apply replayCopy_no_encode_panic|].
      destruct (s =? SymbolDict) eqn:Ed;
        [apply replayDict_no_encode_panic|].
      apply replayLiteral_no_encode_panic.
      unfold canEncodeSymbol. rewrite Es, El, Ed. reflexivity.
    + intros [[[[in' out'] startI'] bw']|] _; [|discriminate].
      destruct (TryReadByte in') as [s' in'']. apply IH.
Qed.

Lemma compressFromHint_no_encode_panic c header input hint bw :
  no_encode_panic (compressFromHint c header input hint bw).
Proof.
  unfold compressFromHint.
  repeat (nep_step; try apply compressFromHint_loop_no_encode_panic).
Qed.

Lemma Compress_no_encode_panic (fuel : nat) (c : Compressor)
      (input : list Z) (hints : list (list Z)) :
  no_encode_panic (Compress fuel c input hints).
Proof.
  unfold Compress, Compress_stream.
  repeat (nep_step;
          try apply compressFromHint_no_encode_panic;
          try apply Compress_loop_no_encode_panic).
Qed.

End EscapeSafety.

(** ** Prefixes and sub-lists *)

Lemma prefix_snoc {A} (l : list A) : forall (k : nat) (x : A),
  nth_error l k = Some x -> firstn (S k) l = firstn k l ++ [x].
Proof.
  induction l as [|a l IH]; intros [|k] x E; cbn in E; try discriminate.
  - injection E as ->. reflexivity.
  - cbn [firstn app]. f_equal. now apply IH.
Qed.

Lemma prefix_sub {A} (l : list A) : forall a n : nat,
  firstn a l ++ firstn n (skipn a l) = firstn (a + n) l.
Proof.
  induction l as [|x l IH]; intros a n.
  - now rewrite skipn_nil, !firstn_nil.
  - destruct a as [|a]; [reflexivity|]. cbn. f_equal. apply IH.
Qed.

Lemma len_firstn {A} (l : list A) (k : Z) :
  0 <= k <= len l -> len (firstn (Z.to_nat k) l) = k.
Proof. intros Hk. unfold len in *. rewrite length_firstn. lia. Qed.

Lemma nth_error_sub {A} (l : list A) (a b : Z) (k : nat) :
  nth_error (sub l a b) k
  = if (k <? Z.to_nat (b - a))%nat then nth_error l (Z.to_nat a + k) else None.
Proof. unfold sub. now rewrite nth_error_firstn, nth_error_skipn. Qed.

Lemma length_sub {A} (l : list A) (a b : Z) :
  0 <= a <= b -> b <= len l -> List.length (sub l a b) = Z.to_nat (b - a).
Proof.
  intros Ha Hb. unfold sub, len in *. rewrite length_firstn, length_skipn. lia.
Qed.

(** Sub-lists that agree position by position are equal. *)
Lemma sub_ext {A} (l1 l2 : list A) (a i n : Z) :
  0 <= a -> 0 <= i -> 0 <= n -> a + n <= len l1 -> i + n <= len l2 ->
  (forall k, 0 <= k < n ->
     nth_error l1 (Z.to_nat (a + k)) = nth_error l2 (Z.to_nat (i + k))) ->
  sub l1 a (a + n) = sub l2 i (i + n).
Proof.
  intros Ha Hi Hn H1 H2 Hk. apply nth_error_ext. intros k.
  rewrite !nth_error_sub.
  replace (a + n - a) with n by lia. replace (i + n - i) with n by lia.
  destruct (Nat.ltb_spec k (Z.to_nat n)) as [Hlt | _]; [|reflexivity].
  specialize (Hk (Z.of_nat k) ltac:(lia)).
  replace (Z.to_nat (a + Z.of_nat k)) with (Z.to_nat a + k)%nat in Hk by lia.
  replace (Z.to_nat (i + Z.of_nat k)) with (Z.to_nat i + k)%nat in Hk by lia.
  exact Hk.
Qed.

Lemma slice_Ok {A} (l : list A) (a b : Z) :
  0 <= a <= b -> b <= len l -> slice l a b = Ok (sub l a b).
Proof.
  intros Ha Hb. unfold slice.
  destruct (0 <=? a) eqn:E1; [|apply Z.leb_gt in E1; lia].
  destruct (a <=? b) eqn:E2; [|apply Z.leb_gt in E2; lia].
  destruct (b <=? len l) eqn:E3; [|apply Z.leb_gt in E3; lia].
  reflexivity.
Qed.

(** A slice that ends within the length does not see what lies behind. *)
Lemma sub_app_within {A} (l sp : list A) (a b : Z) :
  0 <= a <= b -> b <= len l -> sub (l ++ sp) a b = sub l a b.
Proof.
  intros Ha Hb. unfold sub, len in *.
  rewrite skipn_app, firstn_app, length_skipn.
  replace (Z.to_nat (b - a) - (List.length l - Z.to_nat a))%nat with 0%nat by lia.
  cbn [firstn]. now rewrite app_nil_r.
Qed.

Lemma slice_app_within {A} (l sp : list A) (a b : Z) :
  0 <= a <= b -> b <= len l -> slice (l ++ sp) a b = Ok (sub l a b).
Proof.
  intros Ha Hb. rewrite slice_Ok; [|exact Ha|].
  - now rewrite sub_app_within.
  - rewrite len_app. unfold len in *. lia.
Qed.

Lemma sub_prefix {A} (l : list A) (i n : Z) :
  0 <= i -> 0 <= n ->
  sub (firstn (Z.to_nat (i + n)) l) i (i + n) = sub l i (i + n).
Proof.
  intros Hi Hn. unfold sub. rewrite skipn_firstn_comm.
  replace (Z.to_nat (i + n) - Z.to_nat i)%nat with (Z.to_nat (i + n - i)) by lia.
  now rewrite firstn_firstn, Nat.min_id.
Qed.

Lemma prefix_app_sub {A} (l : list A) (i n : Z) :
  0 <= i -> 0 <= n ->
  firstn (Z.to_nat i) l ++ sub l i (i + n) = firstn (Z.to_nat (i + n)) l.
Proof.
  intros Hi Hn. unfold sub. rewrite prefix_sub. f_equal. lia.
Qed.

Lemma index_nth_error {A} (l : list A) (i : Z) (x : A) :
  0 <= i -> nth_error l (Z.to_nat i) = Some x -> index l i = Ok x.
Proof.
  intros Hi E. unfold index.
  destruct (i <? 0) eqn:E0; [apply Z.ltb_lt in E0; lia|]. now rewrite E.
Qed.

Lemma bytes_Equal_refl (l : list Z) : bytes_Equal l l = true.
Proof. unfold bytes_Equal. now apply list_eqb_eq. Qed.

(** ** Replaying a hint *)

Section CopyLoopMatch.
Import Lzss.

(** The copy loop over a prefix of the input, for a match of the bytes at
    [i] with the bytes at [a]: it extends the prefix by the matched bytes,
    also when the two ranges overlap. *)
Lemma copyLoop_match (input : list Z) (i a l : Z) :
  0 <= a < i -> 0 <= l -> i + l <= len input ->
  (forall k, 0 <= k < l ->
     nth_error input (Z.to_nat (a + k)) = nth_error input (Z.to_nat (i + k))) ->
  copyLoop (Z.to_nat l) (i - a) (firstn (Z.to_nat i) input)
  = Ok (firstn (Z.to_nat (i + l)) input).
Proof.
  intros Ha Hl Hlen Hk.
  assert (G : forall (n : nat) (m : Z),
            0 <= m -> m + Z.of_nat n = l ->
            copyLoop n (i - a) (firstn (Z.to_nat (i + m)) input)
            = Ok (firstn (Z.to_nat (i + l)) input)).
  { induction n as [|n IH]; intros m Hm Hmn; cbn [copyLoop].
    - do 3 f_equal. lia.
    - rewrite len_firstn by lia.
      assert (Hx : exists x, nth_error input (Z.to_nat (i + m)) = Some x).
      { destruct (nth_error input (Z.to_nat (i + m))) as [x|] eqn:E; [eauto|].
        apply nth_error_None in E. unfold len in Hlen. lia. }
      destruct Hx as [x Hx].
      rewrite (index_nth_error _ _ x); [|lia|].
      2:{ rewrite nth_error_firstn.
          destruct (Nat.ltb_spec (Z.to_nat (i + m - (i - a))) (Z.to_nat (i + m)));
            [|lia].
          replace (i + m - (i - a)) with (a + m) by lia.
          rewrite Hk by lia. exact Hx. }
      cbn [bind]. rewrite <- (prefix_snoc _ _ _ Hx).
      replace (S (Z.to_nat (i + m))) with (Z.to_nat (i + (m + 1))) by lia.
      apply IH; lia. }
  specialize (G (Z.to_nat l) 0). rewrite Z.add_0_r in G. apply G; lia.
Qed.

End CopyLoopMatch.

Section Replay.
Import Bitio Lzss.
Context {consts : Constants} {sa : SuffixArray} {spare : SpareCapacity}.

Lemma emit_app (bw : Writer) (it : item) (i : Z) :
  emit bw it i = bw ++ emit [] it i.
Proof. destruct it as [b | r]; cbn [emit]; [reflexivity | apply writeTo_app]. Qed.

Lemma emit_all_app (items : list item) : forall bw i,
  emit_all bw items i = bw ++ emit_all [] items i.
Proof.
  induction items as [|it items IH]; intros bw i; cbn [emit_all].
  - now rewrite app_nil_r.
  - rewrite IH, (IH (emit [] it i)), (emit_app bw). now rewrite app_assoc.
Qed.

Lemma canEncodeSymbol_false_iff (b : Z) :
  canEncodeSymbol b = true ->
  (b =? SymbolShort) = false /\ (b =? SymbolLong) = false /\
  (b =? SymbolDict) = false.
Proof.
  unfold canEncodeSymbol. intros E.
  apply andb_true_iff in E. destruct E as [E E3].
  apply andb_true_iff in E. destruct E as [E1 E2].
  apply negb_true_iff in E1, E2, E3. auto.
Qed.

Variables (c : Compressor) (input : list Z) (short long dictT : BackrefType).
Hypothesis Htypes : types_ok short long dictT (len (dictData c)).
Hypothesis Hdistinct : symbols_distinct.
Hypothesis Hbytes : Forall (fun b => 0 <= b < 256) input.

Lemma input_byte (i b : Z) : index input i = Ok b -> 0 <= b < 256.
Proof.
  intros E. apply index_Ok in E. destruct E as [_ E].
  apply nth_error_In in E. rewrite Forall_forall in Hbytes. now apply Hbytes.
Qed.

(** The fields of a valid reference fit the wire layout. *)
Lemma valid_ref_fits (i : Z) (r : backref) :
  0 <= i -> valid_item input (dictData c) short long dictT i (Ref r) ->
  type_ok (bType r) /\ 1 <= length r /\
  0 <= length r - nbBytesBackRef (bType r) < 2 ^ nbBitsLength (bType r) /\
  0 <= wire_address r i < 2 ^ nbBitsAddress (bType r).
Proof.
  intros Hi (Ht & Hnb & Hend & Hmax & Hm).
  destruct Htypes as (Hs & Hl & Hd & _ & _ & _ & Ds & Dl & Dd & Hdl).
  assert (Hok : type_ok (bType r)) by (destruct Ht as [-> | [-> | ->]]; assumption).
  split; [exact Hok|].
  destruct Hok as (_ & HL & HA & Hnb1 & HmaxL & HmaxA).
  split; [lia|]. split; [rewrite HL; lia|].
  unfold wire_address.
  destruct Ht as [E | [E | E]]; rewrite E in *.
  - rewrite Ds in *. lia.
  - rewrite Dl in *. lia.
  - rewrite Dd in *. lia.
Qed.

(** The short and long arms of the replay accept a valid reference, and
    emit it again. *)
Lemma replayCopy_valid (t : BackrefType) (i : Z) (r : backref)
      (rest : list bool) (bw : Writer) :
  0 <= i -> bType r = t -> dictOnly t = false ->
  valid_item input (dictData c) short long dictT i (Ref r) ->
  replayCopy input t {| rbits := ref_fields r i ++ rest; TryError := false |}
    (firstn (Z.to_nat i) input) i bw
  = Ok (Some ({| rbits := rest; TryError := false |},
              firstn (Z.to_nat (i + length r)) input,
              i + length r, writeTo r bw i)).
Proof.
  intros Hi Et Dt Hv.
  destruct (valid_ref_fits i r Hi Hv) as (Hok & Hlen1 & Hlen & Haddr).
  destruct Hok as (_ & HL & HA & _).
  destruct Hv as (_ & Hnb & Hend & Hmax & Hm).
  rewrite Et, Dt in Hm. destruct Hm as (Ha & Hreach & Hk).
  unfold replayCopy.
  rewrite (readFrom_fields r) by (cbn [bType]; (congruence || lia)).
  rewrite Et, Dt. cbn [address length bType].
  rewrite len_firstn by lia.
  rewrite copyLoop_match by (assumption || lia). cbn [bind].
  rewrite slice_Ok by (rewrite ?len_firstn; lia). cbn [bind].
  unfold inputArray. rewrite slice_app_within by lia. cbn [bind].
  rewrite sub_prefix by lia. rewrite bytes_Equal_refl. cbn [negb].
  do 4 f_equal. destruct r as [ra rl rt]. cbn in *. subst t. f_equal. lia.
Qed.

(** The dict arm of the replay accepts a valid reference, and emits it
    again. *)
Lemma replayDict_valid (i : Z) (r : backref) (rest : list bool) (bw : Writer) :
  0 <= i -> bType r = dictT ->
  valid_item input (dictData c) short long dictT i (Ref r) ->
  replayDict c input dictT {| rbits := ref_fields r i ++ rest; TryError := false |}
    (firstn (Z.to_nat i) input) i bw
  = Ok (Some ({| rbits := rest; TryError := false |},
              firstn (Z.to_nat (i + length r)) input,
              i + length r, writeTo r bw i)).
Proof.
  intros Hi Et Hv.
  destruct (valid_ref_fits i r Hi Hv) as (Hok & Hlen1 & Hlen & Haddr).
  destruct Hok as (_ & HL & HA & _).
  destruct Hv as (_ & Hnb & Hend & Hmax & Hm).
  assert (Dd : dictOnly dictT = true) by apply Htypes.
  rewrite Et, Dd in Hm. destruct Hm as (Ha & Hin & Hk).
  unfold replayDict.
  rewrite (readFrom_fields r) by (cbn [bType]; (congruence || lia)).
  rewrite Et, Dd. cbn [address length bType].
  unfold dictArray, inputArray.
  rewrite slice_app_within by lia. cbn [bind].
  rewrite slice_app_within by lia. cbn [bind].
  rewrite (sub_ext (dictData c) input (address r) i (length r)) by (assumption || lia).
  rewrite bytes_Equal_refl. cbn [negb].
  rewrite prefix_app_sub by lia.
  do 4 f_equal. destruct r as [ra rl rt]. cbn in *. subst rt. reflexivity.
Qed.

(** Replaying the stream of valid items that cover the input from [i] to
    [j], followed by the padding of the last byte, emits the same items
    again and stops at [j]. *)
Lemma replay_items (items : list item) : forall (i : Z) (bw : Writer) (fuel : nat)
    (tail : list bool) (j : Z),
  0 <= i ->
  valid_items input (dictData c) short long dictT i items j ->
  (List.length items < fuel)%nat -> (List.length tail < 8)%nat ->
  (let '(s, in_) :=
     TryReadByte {| rbits := emit_all [] items i ++ tail; TryError := false |} in
   compressFromHint_loop fuel c input short long dictT in_ s
     (firstn (Z.to_nat i) input) i bw)
  = Ok (j, emit_all bw items i).
Proof.
  induction items as [|it items IH]; intros i bw fuel tail j Hi Hv Hfuel Htail.
  - cbn [valid_items] in Hv. subst j. cbn [emit_all app].
    pose proof (TryReadByte_short tail Htail) as Herr.
    destruct (TryReadByte {| rbits := tail; TryError := false |}) as [s in_].
    cbn [snd] in Herr.
    destruct fuel; cbn [compressFromHint_loop]; rewrite Herr; reflexivity.
  - cbn [valid_items] in Hv. destruct Hv as [Hit Hrest].
    destruct fuel as [|fuel]; [cbn in Hfuel; lia|].
    cbn [List.length] in Hfuel.
    cbn [emit_all]. rewrite (emit_all_app items (emit [] it i)), <- app_assoc.
    destruct it as [b | r].
    + (* a literal *)
      destruct Hit as [Hb Hcan]. cbn [emit item_len] in *.
      unfold TryWriteByte at 1. cbn [app].
      rewrite TryReadByte_byte by (eapply input_byte; eassumption).
      cbn [compressFromHint_loop TryError].
      destruct (canEncodeSymbol_false_iff b Hcan) as (-> & -> & ->).
      unfold replayLiteral. rewrite Hb. cbn [bind].
      rewrite Z.eqb_refl. cbn [negb].
      rewrite (writeByte_canEncode _ _ Hcan). cbn [bind].
      assert (Hout : firstn (Z.to_nat i) input ++ [b]
                     = firstn (Z.to_nat (i + 1)) input).
      { apply index_Ok in Hb. destruct Hb as [Hr Hb].
        rewrite <- (prefix_snoc _ _ _ Hb). f_equal. lia. }
      rewrite Hout.
      specialize (IH (i + 1) (TryWriteByte bw b) fuel tail j
                ltac:(lia) Hrest ltac:(lia) Htail).
      exact IH.
    + (* a back-reference *)
      cbn [emit item_len] in *.
      destruct (valid_ref_fits i r Hi Hit) as (Hok & Hlen1 & _ & _).
      destruct Hok as (Hsym & _).
      rewrite writeTo_fields, <- app_assoc.
      rewrite TryReadByte_byte by exact Hsym.
      cbn [compressFromHint_loop TryError].
      specialize (IH (i + length r) (writeTo r bw i) fuel tail j
                    ltac:(lia) Hrest ltac:(lia) Htail).
      destruct Htypes as (_ & _ & _ & Ss & Sl & Sd & Ds & Dl & Dd & _).
      destruct Hdistinct as (Nds & Ndl & Nsl).
      pose proof Hit as (Ht & _).
      destruct Ht as [Et | [Et | Et]]; rewrite Et.
      * rewrite Ss, Z.eqb_refl.
        rewrite (replayCopy_valid short) by assumption.
        cbn [bind]. exact IH.
      * rewrite Sl, Z.eqb_refl.
        destruct (Z.eqb_spec SymbolLong SymbolShort) as [E|_]; [congruence|].
        rewrite (replayCopy_valid long) by assumption.
        cbn [bind]. exact IH.
      * rewrite Sd, Z.eqb_refl.
        destruct (Z.eqb_spec SymbolDict SymbolShort) as [E|_]; [congruence|].
        destruct (Z.eqb_spec SymbolDict SymbolLong) as [E|_]; [congruence|].
        rewrite replayDict_valid by assumption.
        cbn [bind]. exact IH.
Qed.

End Replay.

(** ** The main loop of Compress emits valid items *)

(** Inverts [H : (x <- m ;; k) = Ok r]. *)
Ltac bind_inv H :=
  match type of H with
  | bind ?m _ = Ok _ =>
      let E := fresh "E" in
      destruct m as [? | ? | ? |] eqn:E; cbn [bind] in H; [| discriminate H ..]
  end.

Lemma slice_inv {A} (l : list A) (a b : Z) (s : list A) :
  slice l a b = Ok s -> 0 <= a <= b /\ b <= len l /\ s = sub l a b.
Proof.
  unfold slice. destruct (0 <=? a) eqn:E1; [|discriminate].
  destruct (a <=? b) eqn:E2; [|discriminate].
  destruct (b <=? len l) eqn:E3; [|discriminate].
  cbn [andb]. intros E. injection E as <-.
  apply Z.leb_le in E1, E2, E3. auto.
Qed.

Section MainLoop.
Import Bitio Lzss.
Context {consts : Constants} {sa : SuffixArray} {spare : SpareCapacity}.

Variables (c : Compressor) (input : list Z) (short long dictT : BackrefType).
Hypothesis Htypes : types_ok short long dictT (len (dictData c)).
Hypothesis Hsound : lookup_sound.
Hypothesis Hfree : escape_free input.

Lemma input_literal (i b : Z) :
  index input i = Ok b -> 0 <= b < 256 /\ canEncodeSymbol b = true.
Proof.
  intros E. apply index_Ok in E. destruct E as [_ E].
  apply nth_error_In in E. unfold escape_free in Hfree.
  rewrite Forall_forall in Hfree. now apply Hfree.
Qed.

Lemma escape_free_bytes : Forall (fun b => 0 <= b < 256) input.
Proof.
  unfold escape_free in Hfree. rewrite Forall_forall in *.
  intros b Hb. now apply Hfree.
Qed.

(** What [findBackRef] returns is no match, or a match that is at least
    [minLength] long. *)
Lemma findBackRef_sound (i : Z) (t : BackrefType) (minLength a l : Z) :
  0 <= i ->
  findBackRef c input input i t minLength = Ok (a, l) ->
  cand_ok input (dictData c) i minLength
    {| address := a; length := l; bType := t |}.
Proof.
  intros Hi. unfold findBackRef, cand_ok. cbn [address length bType].
  set (minLength' := if minLength =? -1 then nbBytesBackRef t else minLength).
  destruct (i + minLength' >? len input) eqn:E1.
  { intros E; injection E as <- <-. now left. }
  set (maxRefLen := if i + maxLength t >? len input then len input - i
                    else maxLength t).
  destruct (minLength' >? maxRefLen) eqn:E2.
  { intros E; injection E as <- <-. now left. }
  assert (Hmax : maxRefLen <= maxLength t /\ i + maxRefLen <= len input).
  { unfold maxRefLen. destruct (i + maxLength t >? len input) eqn:E3.
    - apply Z.gtb_gt in E3. lia.
    - rewrite Z.gtb_ltb in E3. apply Z.ltb_ge in E3. lia. }
  intros E. bind_inv E. apply slice_inv in E0.
  destruct E0 as (Hr1 & Hr2 & ->).
  assert (Hpat : forall k, 0 <= k < maxRefLen ->
            nth_error (sub input i (i + maxRefLen)) (Z.to_nat k)
            = nth_error input (Z.to_nat (i + k))).
  { intros k Hk. rewrite nth_error_sub.
    destruct (Nat.ltb_spec (Z.to_nat k) (Z.to_nat (i + maxRefLen - i))); [|lia].
    f_equal. lia. }
  unfold match_at. cbn [address length bType].
  destruct (dictOnly t); injection E as E;
    apply Hsound in E; destruct E as [-> | (Hw & Hl & Hocc)];
    try (now left); right.
  - assert (Hin : a + l <= len (dictData c)).
    { destruct (Z.le_gt_cases l 0) as [Hl0 | Hl0]; [lia|].
      specialize (Hocc (l - 1) ltac:(lia)). rewrite Hpat in Hocc by lia.
      destruct (nth_error input (Z.to_nat (i + (l - 1)))) as [x|] eqn:Ex.
      - assert (Hlt : (Z.to_nat (a + (l - 1)) < List.length (dictData c))%nat)
          by (apply nth_error_Some; congruence).
        unfold len. lia.
      - apply nth_error_None in Ex. unfold len in Hmax. lia. }
    repeat split; try lia.
    intros k Hk. rewrite Hocc by lia. apply Hpat. lia.
  - unfold max in Hw.
    destruct (0 >? i - maxAddress t) eqn:E4;
      [apply Z.gtb_gt in E4 | rewrite Z.gtb_ltb in E4; apply Z.ltb_ge in E4];
      (repeat split; try lia;
       intros k Hk; rewrite Hocc by lia; apply Hpat; lia).
Qed.

Lemma fillBackrefs_sound (bs bs' : backrefs) (i minLen : Z) (found : bool) :
  0 <= i -> bs_types short long dictT bs ->
  fillBackrefs c input bs i minLen = Ok (found, bs') ->
  bs_types short long dictT bs' /\
  cand_ok input (dictData c) i minLen (bDict bs') /\
  cand_ok input (dictData c) i minLen (bShort bs') /\
  cand_ok input (dictData c) i minLen (bLong bs') /\
  (found = true ->
   length (bDict bs') <> -1 \/ length (bShort bs') <> -1 \/ length (bLong bs') <> -1).
Proof.
  intros Hi (Td & Ts & Tl). unfold fillBackrefs. intros E.
  bind_inv E. destruct a as [a1 l1]. apply (findBackRef_sound _ _ _ _ _ Hi) in E0.
  bind_inv E. destruct a as [a2 l2]. apply (findBackRef_sound _ _ _ _ _ Hi) in E1.
  bind_inv E. destruct a as [a3 l3]. apply (findBackRef_sound _ _ _ _ _ Hi) in E2.
  injection E as <- <-. cbn [bDict bShort bLong length bType].
  unfold bs_types. cbn [bDict bShort bLong bType].
  repeat split; try assumption.
  intros Hf. apply negb_true_iff in Hf.
  destruct (Z.eqb_spec l1 (-1)); [|now left].
  destruct (Z.eqb_spec l2 (-1)); [|now right; left].
  destruct (Z.eqb_spec l3 (-1)); [discriminate Hf | now right; right].
Qed.

Lemma bestBackref_is_candidate (bs : backrefs) :
  snd (bestBackref bs) = savings (fst (bestBackref bs)) /\
  (fst (bestBackref bs) = bDict bs \/ fst (bestBackref bs) = bShort bs \/
   fst (bestBackref bs) = bLong bs).
Proof.
  unfold bestBackref.
  destruct (negb (length (bDict bs) =? -1) && _ && _);
    [|destruct (negb (length (bShort bs) =? -1) && _)];
    cbn [fst snd]; auto.
Qed.

(** When some candidate exists and every existing candidate has savings
    that are not negative, so has the best. *)
Lemma bestBackref_savings (bs : backrefs) :
  bs_types short long dictT bs ->
  (forall r, r = bDict bs \/ r = bShort bs \/ r = bLong bs ->
             length r = -1 \/ 0 <= savings r) ->
  length (bDict bs) <> -1 \/ length (bShort bs) <> -1 \/ length (bLong bs) <> -1 ->
  0 <= snd (bestBackref bs).
Proof.
  intros (Td & Ts & Tl) Hall Hsome.
  destruct Htypes as ((_ & _ & _ & Ns & _) & (_ & _ & _ & Nl & _) &
                      (_ & _ & _ & Nd & _) & _).
  pose proof (Hall _ (or_introl eq_refl)) as Hd.
  pose proof (Hall _ (or_intror (or_introl eq_refl))) as Hs.
  pose proof (Hall _ (or_intror (or_intror eq_refl))) as Hl.
  unfold bestBackref, savings in *. rewrite Td, Ts, Tl in *.
  destruct (Z.eqb_spec (length (bDict bs)) (-1)) as [Ed | Ed];
    destruct (Z.eqb_spec (length (bShort bs)) (-1)) as [Es | Es];
    cbn [negb andb];
    repeat match goal with
           | |- context [?x >? ?y] =>
               let E := fresh "E" in
               destruct (x >? y) eqn:E;
               [apply Z.gtb_gt in E | rewrite Z.gtb_ltb in E; apply Z.ltb_ge in E]
           end;
    cbn [andb fst snd]; lia.
Qed.

(** An existing candidate whose savings are not negative is a valid
    item. *)
Lemma candidate_valid (bs : backrefs) (i minLen : Z) (r : backref) :
  bs_types short long dictT bs ->
  r = bDict bs \/ r = bShort bs \/ r = bLong bs ->
  cand_ok input (dictData c) i minLen r ->
  0 <= savings r -> length r <> -1 ->
  valid_item input (dictData c) short long dictT i (Ref r).
Proof.
  intros (Td & Ts & Tl) Hr Hc Hsav Hlen.
  destruct Hc as [Hc | [_ Hm]]; [contradiction|].
  cbn [valid_item]. unfold savings in Hsav.
  split; [|split; [lia | exact Hm]].
  destruct Hr as [-> | [-> | ->]]; auto.
Qed.


(** The best of sound candidates is a valid item as soon as its savings
    are not negative. *)
Lemma best_valid (bs : backrefs) (i minLen : Z) :
  bs_types short long dictT bs ->
  cand_ok input (dictData c) i minLen (bDict bs) ->
  cand_ok input (dictData c) i minLen (bShort bs) ->
  cand_ok input (dictData c) i minLen (bLong bs) ->
  0 <= snd (bestBackref bs) ->
  valid_item input (dictData c) short long dictT i (Ref (fst (bestBackref bs))).
Proof.
  intros Hbs Hd Hs Hl Hsav.
  destruct (bestBackref_is_candidate bs) as [Es Hr]. rewrite Es in Hsav.
  assert (Hc : cand_ok input (dictData c) i minLen (fst (bestBackref bs)))
    by (destruct Hr as [-> | [-> | ->]]; assumption).
  apply (candidate_valid bs i minLen); try assumption.
  destruct Hbs as (Td & Ts & Tl).
  destruct Htypes as ((_ & _ & _ & Ns & _) & (_ & _ & _ & Nl & _) &
                      (_ & _ & _ & Nd & _) & _).
  unfold savings in Hsav.
  destruct Hr as [E | [E | E]]; rewrite E in *;
    rewrite ?Td, ?Ts, ?Tl in Hsav; lia.
Qed.

Lemma valid_items_app (l1 : list item) : forall i j k l2,
  valid_items input (dictData c) short long dictT i l1 j ->
  valid_items input (dictData c) short long dictT j l2 k ->
  valid_items input (dictData c) short long dictT i (l1 ++ l2) k.
Proof.
  induction l1 as [|it l1 IH]; intros i j k l2 H1 H2; cbn [valid_items app] in *.
  - now subst j.
  - destruct H1 as [Hit H1]. split; [exact Hit | eapply IH; eassumption].
Qed.

Lemma emit_all_items_app (l1 : list item) : forall bw i j l2,
  valid_items input (dictData c) short long dictT i l1 j ->
  emit_all bw (l1 ++ l2) i = emit_all (emit_all bw l1 i) l2 j.
Proof.
  induction l1 as [|it l1 IH]; intros bw i j l2 H1; cbn [valid_items app emit_all] in *.
  - now subst j.
  - destruct H1 as [_ H1]. now apply IH.
Qed.

(** Valid items advance, and stay within the input. *)
Lemma valid_items_bound (items : list item) : forall i j,
  0 <= i <= len input ->
  valid_items input (dictData c) short long dictT i items j ->
  i <= j <= len input /\ (items <> [] -> i < j).
Proof.
  induction items as [|it items IH]; intros i j Hi Hv; cbn [valid_items] in Hv.
  - subst j. split; [lia | congruence].
  - destruct Hv as [Hit Hv].
    assert (Hstep : 1 <= item_len it /\ i + item_len it <= len input).
    { destruct it as [b | r]; cbn [item_len].
      - destruct Hit as [Hb _]. apply index_Ok in Hb. lia.
      - destruct (valid_ref_fits c input short long dictT Htypes i r
                    ltac:(lia) Hit) as (_ & H1 & _).
        destruct Hit as (_ & _ & Hend & _). lia. }
    assert (Hi' : 0 <= i + item_len it <= len input) by lia.
    destruct (IH _ _ Hi' Hv) as [Hb _]. split; [lia | intros _; lia].
Qed.

(** The look-ahead replaces a valid reference by a valid reference, after
    the literals it has written. *)
Lemma lookahead_sound (bs : backrefs) (i b : Z) (bestAtI : backref)
      (bestSavings : Z) (bw : Writer) (i' : Z) (best' : backref) (bw' : Writer) :
  0 <= i -> bs_types short long dictT bs -> index input i = Ok b ->
  valid_item input (dictData c) short long dictT i (Ref bestAtI) ->
  0 <= bestSavings ->
  lookahead c input bs i bestAtI bestSavings bw = Ok (i', best', bw') ->
  exists lits,
    valid_items input (dictData c) short long dictT i lits i' /\
    bw' = emit_all bw lits i /\
    valid_item input (dictData c) short long dictT i' (Ref best').
Proof.
  intros Hi Hbs Hb Hbest Hsav H.
  assert (Keep : Ok (i, bestAtI, bw) = Ok (i', best', bw') ->
    exists lits,
      valid_items input (dictData c) short long dictT i lits i' /\
      bw' = emit_all bw lits i /\
      valid_item input (dictData c) short long dictT i' (Ref best')).
  { intros E; injection E as <- <- <-. exists []. cbn. auto. }
  assert (One : forall r,
    valid_item input (dictData c) short long dictT (i + 1) (Ref r) ->
    Ok (i + 1, r, TryWriteByte bw b) = Ok (i', best', bw') ->
    exists lits,
      valid_items input (dictData c) short long dictT i lits i' /\
      bw' = emit_all bw lits i /\
      valid_item input (dictData c) short long dictT i' (Ref best')).
  { intros r Hr E; injection E as <- <- <-. exists [Lit b].
    cbn [valid_items valid_item emit_all emit item_len].
    destruct (input_literal _ _ Hb). auto. }
  assert (Two : forall r b1 k,
    k = i + 2 -> index input (i + 1) = Ok b1 ->
    valid_item input (dictData c) short long dictT k (Ref r) ->
    Ok (k, r, TryWriteByte (TryWriteByte bw b) b1) = Ok (i', best', bw') ->
    exists lits,
      valid_items input (dictData c) short long dictT i lits i' /\
      bw' = emit_all bw lits i /\
      valid_item input (dictData c) short long dictT i' (Ref best')).
  { intros r b1 k -> Hb1 Hr E; injection E as <- <- <-. exists [Lit b; Lit b1].
    cbn [valid_items valid_item emit_all emit item_len].
    destruct (input_literal _ _ Hb). destruct (input_literal _ _ Hb1).
    replace (i + 1 + 1) with (i + 2) by lia. auto 10. }
  unfold lookahead in H.
  destruct (i + 1 <? len input); [|now apply Keep].
  bind_inv H. destruct a as [found bs1].
  apply fillBackrefs_sound in E; [|lia|assumption].
  destruct E as (Hbs1 & Cd1 & Cs1 & Cl1 & _).
  destruct found.
  - destruct (bestBackref bs1) as [newBest newSavings] eqn:EB.
    destruct (newSavings >? bestSavings) eqn:Egt; [|now apply Keep].
    apply Z.gtb_gt in Egt.
    pose proof (best_valid bs1 _ _ Hbs1 Cd1 Cs1 Cl1) as Hnew.
    rewrite EB in Hnew. cbn [fst snd] in Hnew. specialize (Hnew ltac:(lia)).
    rewrite Hb in H. cbn [bind] in H.
    rewrite (writeByte_canEncode _ _ (proj2 (input_literal _ _ Hb))) in H.
    cbn [bind] in H.
    bind_inv H. rename a into b1.
    destruct (canEncodeSymbol b1 && (i + 1 + 1 <? len input));
      [|now apply (One newBest)].
    bind_inv H. destruct a as [found2 bs2].
    apply fillBackrefs_sound in E0; [|lia|assumption].
    destruct E0 as (Hbs2 & Cd2 & Cs2 & Cl2 & _).
    destruct found2; [|now apply (One newBest)].
    destruct (bestBackref bs2) as [newBest2 newSavings2] eqn:EB2.
    destruct (newSavings2 >? newSavings) eqn:Egt2; [|now apply (One newBest)].
    apply Z.gtb_gt in Egt2.
    pose proof (best_valid bs2 _ _ Hbs2 Cd2 Cs2 Cl2) as Hnew2.
    rewrite EB2 in Hnew2. cbn [fst snd] in Hnew2. specialize (Hnew2 ltac:(lia)).
    rewrite (writeByte_canEncode _ _ (proj2 (input_literal _ _ E))) in H.
    cbn [bind] in H.
    apply (Two newBest2 b1 (i + 1 + 1)); (assumption || reflexivity || lia).
  - destruct (i + 2 <? len input); [|now apply Keep].
    bind_inv H. rename a into b1.
    destruct (canEncodeSymbol b1); [|now apply Keep].
    bind_inv H. destruct a as [found2 bs2].
    apply fillBackrefs_sound in E0; [|lia|assumption].
    destruct E0 as (Hbs2 & Cd2 & Cs2 & Cl2 & _).
    destruct found2; [|now apply Keep].
    destruct (bestBackref bs2) as [newBest2 newSavings2] eqn:EB2.
    destruct (newSavings2 >? bestSavings) eqn:Egt2; [|now apply Keep].
    apply Z.gtb_gt in Egt2.
    pose proof (best_valid bs2 _ _ Hbs2 Cd2 Cs2 Cl2) as Hnew2.
    rewrite EB2 in Hnew2. cbn [fst snd] in Hnew2. specialize (Hnew2 ltac:(lia)).
    rewrite Hb in H. cbn [bind] in H.
    rewrite (writeByte_canEncode _ _ (proj2 (input_literal _ _ Hb))) in H.
    cbn [bind] in H.
    rewrite (writeByte_canEncode _ _ (proj2 (input_literal _ _ E))) in H.
    cbn [bind] in H.
    apply (Two newBest2 b1 (i + 2)); (assumption || reflexivity || lia).
Qed.

(** One turn of the main loop emits valid items and advances. *)
Lemma Compress_iter_sound (bs : backrefs) (i : Z) (bw : Writer) (i' : Z) (bw' : Writer) :
  0 <= i <= len input -> bs_types short long dictT bs ->
  Compress_iter c input bs i bw = Ok (i', bw') ->
  exists items,
    valid_items input (dictData c) short long dictT i items i' /\
    bw' = emit_all bw items i /\ items <> [].
Proof.
  intros Hi Hbs H. unfold Compress_iter in H.
  bind_inv H. rename a into b.
  destruct (input_literal _ _ E) as [Hbyte Hcan].
  rewrite Hcan in H. cbn [negb] in H.
  bind_inv H. destruct a as [found bs1].
  apply fillBackrefs_sound in E0; [|lia|assumption].
  destruct E0 as (Hbs1 & Cd1 & Cs1 & Cl1 & Hfound).
  destruct found; cbn [negb] in H.
  - destruct (bestBackref bs1) as [bestAtI bestSavings] eqn:EB.
    assert (Hsav : 0 <= snd (bestBackref bs1)).
    { apply bestBackref_savings; [assumption | | now apply Hfound].
      intros r Hr.
      assert (Hc : cand_ok input (dictData c) i (-1) r)
        by (destruct Hr as [-> | [-> | ->]]; assumption).
      destruct Hc as [Hc | [Hc _]]; [now left | right].
      cbn in Hc. unfold savings. lia. }
    pose proof (best_valid bs1 _ _ Hbs1 Cd1 Cs1 Cl1 Hsav) as Hbest.
    rewrite EB in Hsav, Hbest. cbn [fst snd] in Hsav, Hbest.
    bind_inv H. destruct a as [[i2 best2] bw2].
    injection H as <- <-.
    assert (Hi0 : 0 <= i) by lia.
    destruct (lookahead_sound _ _ _ _ _ _ _ _ _ Hi0 Hbs1 E Hbest Hsav E0)
      as (lits & Hl & -> & Hb2).
    exists (lits ++ [Ref best2]). split; [|split].
    + eapply valid_items_app; [exact Hl|].
      cbn [valid_items item_len]. auto.
    + rewrite (emit_all_items_app _ _ _ _ _ Hl). reflexivity.
    + destruct lits; discriminate.
  - rewrite (writeByte_canEncode _ _ Hcan) in H. cbn [bind] in H.
    injection H as <- <-. exists [Lit b].
    cbn [valid_items valid_item emit_all emit item_len]. repeat split; auto.
    discriminate.
Qed.

(** The main loop emits valid items that cover the rest of the input. *)
Lemma Compress_loop_sound (fuel : nat) (bs : backrefs) : forall i bw bw',
  0 <= i <= len input -> bs_types short long dictT bs ->
  Compress_loop fuel c input bs i bw = Ok bw' ->
  exists items,
    valid_items input (dictData c) short long dictT i items (len input) /\
    bw' = emit_all bw items i.
Proof.
  induction fuel as [|fuel IH]; intros i bw bw' Hi Hbs H; cbn [Compress_loop] in H.
  - destruct (i <? len input) eqn:E; [discriminate|].
    apply Z.ltb_ge in E. injection H as <-. exists []. cbn. split; [lia | reflexivity].
  - destruct (i <? len input) eqn:E.
    + bind_inv H. destruct a as [i1 bw1].
      destruct (Compress_iter_sound _ _ _ _ _ Hi Hbs E0) as (items1 & Hv1 & -> & _).
      destruct (valid_items_bound _ _ _ Hi Hv1) as [Hb _].
      assert (Hi1 : 0 <= i1 <= len input) by lia.
      destruct (IH _ _ _ Hi1 Hbs H) as (items2 & Hv2 & ->).
      exists (items1 ++ items2). split.
      * eapply valid_items_app; eassumption.
      * now rewrite (emit_all_items_app _ _ _ _ _ Hv1).
    + apply Z.ltb_ge in E. injection H as <-. exists []. cbn.
      split; [lia | reflexivity].
Qed.

End MainLoop.

(** ** The main loop of Compress terminates *)

Lemma bind_returns {A B} (m : outcome A) (k : A -> outcome B) :
  returns m -> (forall a, m = Ok a -> returns (k a)) -> returns (bind m k).
Proof.
  intros [a ->] Hk. cbn [bind]. now apply Hk.
Qed.

Lemma Ok_returns {A} (a : A) : returns (Ok a).
Proof. now exists a. Qed.

Lemma index_returns {A} (l : list A) (i : Z) :
  0 <= i < len l -> returns (index l i).
Proof.
  intros Hi. unfold index.
  destruct (i <? 0) eqn:E; [apply Z.ltb_lt in E; lia|].
  destruct (nth_error l (Z.to_nat i)) as [a|] eqn:En; [now exists a|].
  apply nth_error_None in En. unfold len in Hi. lia.
Qed.

(** Splits a goal [returns m] along the binds, conditionals and pattern
    matches of [m], keeping the tests as hypotheses. *)
Ltac returns_step :=
  match goal with
  | |- returns (Ok _) => apply Ok_returns
  | |- returns (bind _ _) => apply bind_returns; [ | intros ? ?]
  | |- returns (if ?c then _ else _) => destruct c eqn:?
  | |- returns (let '(_, _) := ?p in _) => destruct p eqn:?
  | |- returns (match ?x with _ => _ end) => destruct x eqn:?
  end.

Section Termination.
Import Bitio Lzss.
Context {consts : Constants} {sa : SuffixArray} {spare : SpareCapacity}.

Variables (c : Compressor) (input : list Z) (short long dictT : BackrefType).
Hypothesis Htypes : types_ok short long dictT (len (dictData c)).
Hypothesis Hsound : lookup_sound.
Hypothesis Hfree : escape_free input.

Lemma writeByte_returns (bw : Writer) (i b : Z) :
  index input i = Ok b -> returns (writeByte bw b).
Proof.
  intros Hb. destruct (input_literal input Hfree _ _ Hb) as [_ Hcan].
  rewrite (writeByte_canEncode _ _ Hcan). apply Ok_returns.
Qed.

Lemma findBackRef_returns (i : Z) (t : BackrefType) (minLength : Z) :
  0 <= i <= len input -> 0 <= maxLength t ->
  returns (findBackRef c input input i t minLength).
Proof.
  intros Hi Hmax. unfold findBackRef. cbn zeta.
  set (maxRefLen := if i + maxLength t >? len input then len input - i
                    else maxLength t).
  assert (Hr : 0 <= maxRefLen /\ i + maxRefLen <= len input).
  { unfold maxRefLen. destruct (i + maxLength t >? len input) eqn:E3;
      [apply Z.gtb_gt in E3 | rewrite Z.gtb_ltb in E3; apply Z.ltb_ge in E3];
      lia. }
  rewrite slice_Ok by lia. repeat returns_step.
Qed.

Lemma fillBackrefs_returns (bs : backrefs) (i minLen : Z) :
  0 <= i <= len input -> bs_types short long dictT bs ->
  returns (fillBackrefs c input bs i minLen).
Proof.
  intros Hi (Td & Ts & Tl).
  destruct Htypes as ((_ & _ & _ & Ns & Ms & _) & (_ & _ & _ & Nl & Ml & _) &
                      (_ & _ & _ & Nd & Md & _) & _).
  unfold fillBackrefs. rewrite Td, Ts, Tl.
  repeat (returns_step; try (apply findBackRef_returns; lia)).
Qed.

Lemma lookahead_returns (bs : backrefs) (i : Z) (bestAtI : backref)
      (bestSavings : Z) (bw : Writer) :
  0 <= i < len input -> bs_types short long dictT bs ->
  returns (lookahead c input bs i bestAtI bestSavings bw).
Proof.
  intros Hi Hbs. unfold lookahead.
  repeat (returns_step;
          repeat match goal with
                 | H : (_ <? _) = true |- _ => apply Z.ltb_lt in H
                 | H : (_ && _)%bool = true |- _ =>
                     apply andb_true_iff in H; destruct H
                 | H : fillBackrefs _ _ _ _ _ = Ok (_, _) |- _ =>
                     apply (fillBackrefs_sound c input short long dictT Hsound)
                       in H; [destruct H as (? & _) | lia | assumption]
                 end;
          try (apply index_returns; lia);
          try (eapply writeByte_returns; eassumption);
          try (apply fillBackrefs_returns; [lia | assumption])).
Qed.

Lemma Compress_iter_returns (bs : backrefs) (i : Z) (bw : Writer) :
  0 <= i < len input -> bs_types short long dictT bs ->
  returns (Compress_iter c input bs i bw).
Proof.
  intros Hi Hbs. unfold Compress_iter.
  apply bind_returns; [apply index_returns; lia|]. intros b Hb.
  destruct (input_literal input Hfree _ _ Hb) as [_ Hcan].
  rewrite Hcan. cbn [negb].
  apply bind_returns; [apply fillBackrefs_returns; [lia | assumption]|].
  intros [found bs1] Hf.
  apply (fillBackrefs_sound c input short long dictT Hsound) in Hf;
    [destruct Hf as (Hbs1 & _) | lia | assumption].
  destruct found; cbn [negb].
  - destruct (bestBackref bs1) as [bestAtI bestSavings].
    apply bind_returns; [now apply lookahead_returns|].
    intros [[i2 best2] bw2] _. apply Ok_returns.
  - apply bind_returns; [eapply writeByte_returns; eassumption|].
    intros; apply Ok_returns.
Qed.

(** With one unit of fuel for every byte left, the main loop runs to its
    end. *)
Lemma Compress_loop_returns (fuel : nat) (bs : backrefs) : forall i bw,
  0 <= i <= len input -> len input - i <= Z.of_nat fuel ->
  bs_types short long dictT bs ->
  returns (Compress_loop fuel c input bs i bw).
Proof.
  induction fuel as [|fuel IH]; intros i bw Hi Hfuel Hbs; cbn [Compress_loop].
  - destruct (i <? len input) eqn:E; [apply Z.ltb_lt in E; lia | apply Ok_returns].
  - destruct (i <? len input) eqn:E; [|apply Ok_returns].
    apply Z.ltb_lt in E.
    apply bind_returns; [apply Compress_iter_returns; [lia | assumption]|].
    intros [i1 bw1] Hit.
    destruct (Compress_iter_sound c input short long dictT Htypes Hsound Hfree
                _ _ _ _ _ Hi Hbs Hit) as (items & Hv & _ & Hne).
    destruct (valid_items_bound c input short long dictT Htypes _ _ _ Hi Hv)
      as [Hb Hlt].
    specialize (Hlt Hne). apply IH; (assumption || lia).
Qed.

End Termination.

(** ** Compress: the no-compression fallback and the size of the output *)

Section Fallback.
Import Bitio Lzss.
Context {consts : Constants} {sa : SuffixArray} {spare : SpareCapacity}.

(** C4.  When the buffer holds at least [len(input) + bitLen/8 =
    len(input) + 2] bytes after the bit writer is closed, [Compress]
    returns the two header bytes, with level 0, followed by the input
    itself; and whatever [Compress] returns is at most [len(input) + 2]
    bytes long. *)
Theorem Compress_fallback_and_bound (fuel : nat) (c : Compressor)
        (input : list Z) (hints : list (list Z)) :
  (forall buf, len input <= MaxInputSize -> level c <> NoCompression ->
     Compress_stream fuel c input hints = Ok buf ->
     len input + bitLen / 8 <= len buf ->
     Compress fuel c input hints = Ok ([Version; NoCompression] ++ input)) /\
  (forall out, Compress fuel c input hints = Ok out ->
     len out <= len input + 2).
Proof.
  split.
  - intros buf Hsize Hlevel Hs Hbuf. unfold Compress.
    destruct (len input >? MaxInputSize) eqn:E1.
    { apply Z.gtb_gt in E1. lia. }
    destruct (level c =? NoCompression) eqn:E2.
    { apply Z.eqb_eq in E2. contradiction. }
    rewrite Hs. cbn [bind].
    destruct (len buf >=? len input + bitLen / 8) eqn:E3; [reflexivity|].
    rewrite Z.geb_leb in E3. apply Z.leb_gt in E3. lia.
  - intros out. unfold Compress.
    destruct (len input >? MaxInputSize); [discriminate|].
    destruct (level c =? NoCompression).
    { intros E; injection E as <-. unfold Header_WriteTo. cbn [app].
      unfold len. cbn [List.length]. lia. }
    destruct (Compress_stream fuel c input hints) as [buf| | |];
      cbn [bind]; try discriminate.
    destruct (len buf >=? len input + bitLen / 8) eqn:E3;
      intros E; injection E as <-.
    + unfold Header_WriteTo. cbn [app]. unfold len. cbn [List.length]. lia.
    + rewrite Z.geb_leb in E3. apply Z.leb_gt in E3.
      change (bitLen / 8) with 2 in E3. lia.
Qed.

(** ** Compress: a hint that fails the header validation *)

Lemma compressFromHint_rejects (c : Compressor) (input hint : list Z) (bw : Writer) :
  hint_header_invalid c hint ->
  compressFromHint c {| Header_Version := Version; Header_Level := level c |}
    input hint bw = Ok (0, bw).
Proof.
  intros Hinv. unfold compressFromHint, hint_header_invalid in *.
  destruct (InitBackRefTypes (len (dictData c)) (level c)) as [[short long] dict].
  destruct (Header_ReadFrom (NewReader hint)) as [[h|] in_]; [|reflexivity].
  cbn [fst Header_Version Header_Level] in *.
  destruct (Z.eqb_spec (Header_Version h) Version) as [Ev | Nv];
    cbn [negb orb]; [|reflexivity].
  destruct (Z.eqb_spec (Header_Level h) (level c)) as [El | Nl];
    cbn [negb]; [|reflexivity].
  destruct (Z.eqb_spec (Header_Level h) NoCompression) as [E0 | N0];
    [reflexivity|].
  exfalso. destruct Hinv as [Hv | [Hl | Hz]]; contradiction.
Qed.

Lemma Compress_rejected_hint (fuel : nat) (c : Compressor) (input hint : list Z) :
  hint_header_invalid c hint ->
  Compress fuel c input [hint] = Compress fuel c input [].
Proof.
  intros Hinv. unfold Compress, Compress_stream.
  rewrite (compressFromHint_rejects c input hint _ Hinv). reflexivity.
Qed.

(** C10.  A hint whose header cannot be read, or whose version or level
    differs from the compressor's, or whose level is [NoCompression], makes
    [compressFromHint] return [startI = 0] with the bit writer as it was,
    and [Compress] return what it returns without a hint. *)
Theorem invalid_hint_is_ignored (fuel : nat) (c : Compressor)
        (input hint : list Z) (bw : Writer) :
  hint_header_invalid c hint ->
  compressFromHint c {| Header_Version := Version; Header_Level := level c |}
    input hint bw = Ok (0, bw) /\
  Compress fuel c input [hint] = Compress fuel c input [].
Proof.
  intros Hinv. split.
  - now apply compressFromHint_rejects.
  - now apply Compress_rejected_hint.
Qed.

End Fallback.

(** The hint [[1; 0; 97; 97]] has level 0, which is not level 8. *)
Lemma invalid_hint_is_ignored_witness :
  let c := {| Lzss.dictData := [255; 254; 253]; Lzss.level := 8 |} in
  @Lzss.compressFromHint Lzss.sampleConstants Lzss.noSpare c
    {| Lzss.Header_Version := 1; Lzss.Header_Level := 8 |}
    [97; 97; 97] [1; 0; 97; 97] [] = Ok (0, []) /\
  @Lzss.Compress Lzss.sampleConstants Lzss.searchIndex Lzss.noSpare 4 c [97; 97; 97] [[1; 0; 97; 97]]
  = @Lzss.Compress Lzss.sampleConstants Lzss.searchIndex Lzss.noSpare 4 c [97; 97; 97] [].
Proof.
  apply (@invalid_hint_is_ignored Lzss.sampleConstants Lzss.searchIndex Lzss.noSpare 4
           {| Lzss.dictData := [255; 254; 253]; Lzss.level := 8 |}
           [97; 97; 97] [1; 0; 97; 97] []).
  vm_compute. right; left. discriminate.
Defined.

(** Three bytes cannot be compressed: the closed stream has five bytes,
    and [Compress] falls back to the five bytes of the raw encoding. *)
Lemma Compress_fallback_and_bound_witness :
  let c := {| Lzss.dictData := [255; 254; 253]; Lzss.level := 8 |} in
  @Lzss.Compress Lzss.sampleConstants Lzss.searchIndex Lzss.noSpare 4 c [97; 97; 97] []
  = Ok ([1; 0] ++ [97; 97; 97]) /\
  len [1; 0; 97; 97; 97] <= len [97; 97; 97] + 2.
Proof.
  pose proof (@Compress_fallback_and_bound Lzss.sampleConstants Lzss.searchIndex Lzss.noSpare 4
                {| Lzss.dictData := [255; 254; 253]; Lzss.level := 8 |}
                [97; 97; 97] []) as [Hfallback Hbound].
  split.
  - apply (Hfallback [1; 8; 97; 97; 97]); vm_compute; congruence.
  - apply Hbound. vm_compute. reflexivity.
Defined.

(** ** The back-reference types of a compression *)

Section TypesFacts.
Import Lzss.
Context {consts : Constants}.

Lemma wordAlign_bounds (level a : Z) :
  level = 1 \/ level = 2 \/ level = 4 \/ level = 8 ->
  0 <= a <= 63 ->
  a <= wordAlign level a <= 64.
Proof.
  intros Hl Ha. unfold wordAlign.
  rewrite (Z.mod_small a 256) by lia.
  rewrite (Z.mod_small (a + level - 1) 256) by lia.
  destruct Hl as [-> | [-> | [-> | ->]]]; cbn [Z.eqb NoCompression];
    match goal with
    | |- context [(?x / ?l * ?l) mod 256] =>
        pose proof (Z.div_mod x l ltac:(lia));
        pose proof (Z.mod_pos_bound x l ltac:(lia));
        rewrite (Z.mod_small (x / l * l) 256) by lia
    end; lia.
Qed.

Lemma bits_Len_bounds (x : Z) :
  0 <= x < 2 ^ 63 -> 0 <= bits_Len x <= 63 /\ x < 2 ^ bits_Len x.
Proof.
  intros Hx. unfold bits_Len. destruct (x <=? 0) eqn:E.
  - apply Z.leb_le in E. cbn. lia.
  - apply Z.leb_gt in E.
    pose proof (Z.log2_nonneg x).
    pose proof (proj1 (Z.log2_lt_pow2 x 63 E) ltac:(lia)).
    pose proof (Z.log2_spec x E). 
    replace (Z.log2 x + 1) with (Z.succ (Z.log2 x)) by lia. lia.
Qed.

Lemma newBackRefType_ok (sym A : Z) (flag : bool) :
  0 <= sym < 256 -> 0 <= A <= 64 -> type_ok (newBackRefType sym A 8 flag).
Proof.
  intros Hs HA. unfold type_ok, newBackRefType.
  cbn [symbol nbBitsLength nbBitsAddress nbBytesBackRef maxLength maxAddress].
  repeat split; try lia.
  apply Z.div_le_lower_bound; lia.
Qed.

(** The types of a compression at one of the four levels. *)
Lemma InitBackRefTypes_ok (dictLen level : Z) :
  constants_are_bytes ->
  level = 1 \/ level = 2 \/ level = 4 \/ level = 8 ->
  0 <= dictLen < 2 ^ 63 ->
  let '(short, long, dictT) := InitBackRefTypes dictLen level in
  types_ok short long dictT dictLen.
Proof.
  intros (Bd & Bs & Bl & _) Hl Hd. unfold InitBackRefTypes, types_ok.
  destruct (bits_Len_bounds dictLen Hd) as [Hb Hlt].
  pose proof (wordAlign_bounds level 14 Hl ltac:(lia)).
  pose proof (wordAlign_bounds level 19 Hl ltac:(lia)).
  pose proof (wordAlign_bounds level (bits_Len dictLen) Hl ltac:(lia)) as Hw.
  repeat split; try (apply newBackRefType_ok; lia).
  cbn [newBackRefType nbBitsAddress].
  assert (2 ^ bits_Len dictLen <= 2 ^ wordAlign level (bits_Len dictLen))
    by (apply Z.pow_le_mono_r; lia).
  lia.
Qed.

End TypesFacts.

(** ** A hint that is the compressor's own output *)

Section OwnOutput.
Import Bitio Lzss.
Context {consts : Constants} {sa : SuffixArray} {spare : SpareCapacity}.

Lemma length_emit (it : item) (i : Z) : (8 <= List.length (emit [] it i))%nat.
Proof.
  destruct it as [b | r]; cbn [emit].
  - unfold TryWriteByte. cbn. lia.
  - rewrite writeTo_fields, length_app, length_bitsMSB. lia.
Qed.

Lemma length_emit_all (items : list item) : forall i,
  (8 * List.length items <= List.length (emit_all [] items i))%nat.
Proof.
  induction items as [|it items IH]; intros i; cbn [emit_all List.length]; [lia|].
  rewrite emit_all_app, length_app.
  pose proof (length_emit it i). specialize (IH (i + item_len it)). lia.
Qed.

Lemma length_bytesToBits (l : list Z) :
  List.length (bytesToBits l) = (8 * List.length l)%nat.
Proof.
  induction l as [|b l IH]; [reflexivity|].
  change (bytesToBits (b :: l)) with (bitsMSB 8 b ++ bytesToBits l).
  rewrite length_app, length_bitsMSB, IH. cbn [List.length]. lia.
Qed.

Lemma Header_ReadFrom_bytes (v l : Z) (payload : list Z) :
  0 <= v < 256 -> 0 <= l < 256 ->
  Header_ReadFrom (NewReader (v :: l :: payload))
  = (Some {| Header_Version := v; Header_Level := l |},
     {| rbits := bytesToBits payload; TryError := false |}).
Proof.
  intros Hv Hl. unfold Header_ReadFrom, NewReader.
  change (bytesToBits (v :: l :: payload))
    with (bitsMSB 8 v ++ bitsMSB 8 l ++ bytesToBits payload).
  rewrite TryReadByte_byte by exact Hv.
  rewrite TryReadByte_byte by exact Hl. reflexivity.
Qed.

(** The replay of a stream of valid items that cover the input up to [j]
    emits the stream again and stops at [j]. *)
Lemma compressFromHint_own_stream (c : Compressor) (input : list Z) (bw0 bw : Writer)
      (short long dictT : BackrefType) (items : list item) (j : Z) :
  constants_are_bytes -> symbols_distinct ->
  level c = 1 \/ level c = 2 \/ level c = 4 \/ level c = 8 ->
  InitBackRefTypes (len (dictData c)) (level c) = (short, long, dictT) ->
  types_ok short long dictT (len (dictData c)) ->
  Forall (fun b => 0 <= b < 256) input ->
  valid_items input (dictData c) short long dictT 0 items j ->
  bw = emit_all [] items 0 ->
  compressFromHint c {| Header_Version := Version; Header_Level := level c |}
    input (Version :: level c :: Close bw) bw0
  = Ok (j, bw0 ++ bw).
Proof.
  intros (_ & _ & _ & Bv) Hdist Hl Et Htypes Hbytes Hv ->.
  unfold compressFromHint. rewrite Et.
  rewrite Header_ReadFrom_bytes by (assumption || lia).
  cbn [Header_Version Header_Level]. rewrite !Z.eqb_refl. cbn [negb orb].
  destruct (Z.eqb_spec (level c) NoCompression) as [E0 | _];
    [unfold NoCompression in E0; lia|].
  destruct (bytesToBits_Close (emit_all [] items 0)) as (pad & Hpad & Epad).
  rewrite Epad.
  assert (Hfuel : (List.length items
                   < S (List.length (Version :: level c :: Close (emit_all [] items 0))))%nat).
  { pose proof (length_emit_all items 0) as H8.
    pose proof (length_bytesToBits (Close (emit_all [] items 0))) as Hb.
    rewrite Epad, length_app in Hb. cbn [List.length]. lia. }
  pose proof (replay_items c input short long dictT Htypes Hdist Hbytes
                items 0 bw0 _ pad j ltac:(lia) Hv Hfuel Hpad) as R.
  change (firstn (Z.to_nat 0) input) with (@nil Z) in R.
  rewrite <- emit_all_app. exact R.
Qed.

(** Valid items over a prefix of the input are valid over the input. *)
Lemma valid_items_prefix (c : Compressor) (p rest : list Z)
      (short long dictT : BackrefType) (items : list item) : forall i j,
  types_ok short long dictT (len (dictData c)) ->
  0 <= i <= len p ->
  valid_items p (dictData c) short long dictT i items j ->
  valid_items (p ++ rest) (dictData c) short long dictT i items j.
Proof.
  induction items as [|it items IH]; intros i j Htypes Hi Hv;
    cbn [valid_items] in *; [exact Hv|].
  destruct Hv as [Hit Hv].
  assert (Hin : forall k, 0 <= k < len p ->
            nth_error (p ++ rest) (Z.to_nat k) = nth_error p (Z.to_nat k)).
  { intros k Hk. apply nth_error_app1. unfold len in Hk. lia. }
  assert (Hstep : 0 <= i + item_len it <= len p).
  { destruct (valid_items_bound c p short long dictT Htypes [it] i (i + item_len it) Hi)
      as [Hb _]; [cbn [valid_items]; auto | lia]. }
  split; [|now apply IH].
  destruct it as [b | r]; cbn [valid_item item_len] in *.
  - destruct Hit as [Hb Hcan]. split; [|exact Hcan].
    apply index_Ok in Hb. destruct Hb as [Hr Hb].
    apply index_nth_error; [lia|]. rewrite Hin by lia. exact Hb.
  - destruct Hit as (Ht & Hnb & Hend & Hmax & Hm).
    split; [exact Ht|]. split; [exact Hnb|].
    unfold match_at. rewrite len_app. pose proof (len_nonneg rest).
    split; [lia|]. split; [exact Hmax|].
    destruct (dictOnly (bType r)).
    + destruct Hm as (Ha & Hd & Hk). repeat split; try lia.
      intros k Hkr. rewrite Hin by lia. now apply Hk.
    + destruct Hm as (Ha & Hreach & Hk). repeat split; try lia.
      intros k Hkr. rewrite !Hin by lia. now apply Hk.
Qed.

(** What [Compress] returns on an input without escape symbols: the raw
    encoding, or the header and the closed stream of valid items that
    cover the input. *)
Lemma Compress_output_shape (fuel : nat) (c : Compressor) (input h : list Z)
      (short long dictT : BackrefType) :
  constants_are_bytes -> lookup_sound ->
  level c = 1 \/ level c = 2 \/ level c = 4 \/ level c = 8 ->
  len (dictData c) < 2 ^ 63 ->
  escape_free input ->
  InitBackRefTypes (len (dictData c)) (level c) = (short, long, dictT) ->
  Compress fuel c input [] = Ok h ->
  h = Version :: NoCompression :: input \/
  exists items,
    valid_items input (dictData c) short long dictT 0 items (len input) /\
    Compress_loop fuel c input
      {| bDict := {| address := -1; length := -1; bType := dictT |};
         bShort := {| address := -1; length := -1; bType := short |};
         bLong := {| address := -1; length := -1; bType := long |} |}
      0 [] = Ok (emit_all [] items 0) /\
    h = Version :: level c :: Close (emit_all [] items 0) /\
    (len h >=? len input + bitLen / 8) = false.
Proof.
  intros Hbytes Hsound Hl Hd Hfree Et H. unfold Compress in H.
  destruct (len input >? MaxInputSize) eqn:Esize; [discriminate|].
  destruct (Z.eqb_spec (level c) NoCompression) as [E0 | N0];
    [unfold NoCompression in E0; lia|].
  bind_inv H. rename a into buf.
  destruct (len buf >=? len input + bitLen / 8) eqn:Efall;
    injection H as <-; [now left | right].
  unfold Compress_stream in E. rewrite Et in E.
  cbn [bind] in E. bind_inv E. rename a into bw. injection E as <-.
  match goal with
  | L : Compress_loop _ _ _ _ _ _ = Ok _ |- _ => rename L into E1
  end.
  pose proof (InitBackRefTypes_ok (len (dictData c)) (level c) Hbytes Hl
                ltac:(pose proof (len_nonneg (dictData c)); lia)) as Htypes.
  rewrite Et in Htypes.
  assert (Hrange : 0 <= 0 <= len input) by (pose proof (len_nonneg input); lia).
  match type of E1 with
  | Compress_loop _ _ _ ?bs _ _ = _ =>
      assert (Hbs0 : bs_types short long dictT bs) by (repeat split)
  end.
  destruct (Compress_loop_sound c input short long dictT Htypes Hsound Hfree
              fuel _ 0 NewWriter bw Hrange Hbs0 E1) as (items & Hv & Ebw).
  unfold NewWriter in *. rewrite emit_all_app in Ebw. cbn [app] in Ebw. subst bw.
  exists items. unfold Header_WriteTo in *.
  cbn [app Header_Version Header_Level] in *. auto.
Qed.

(** The replay of the compressor's own output leaves the output as it
    is. *)
Lemma Compress_own_output_replayed (fuel : nat) (c : Compressor) (input h : list Z) :
  constants_are_bytes -> symbols_distinct -> lookup_sound ->
  level c = 1 \/ level c = 2 \/ level c = 4 \/ level c = 8 ->
  len (dictData c) < 2 ^ 63 ->
  escape_free input ->
  Compress fuel c input [] = Ok h ->
  Compress fuel c input [h] = Ok h.
Proof.
  intros Hbytes Hdist Hsound Hl Hd Hfree H.
  destruct (InitBackRefTypes (len (dictData c)) (level c))
    as [[short long] dictT] eqn:Et.
  pose proof (InitBackRefTypes_ok (len (dictData c)) (level c) Hbytes Hl
                ltac:(pose proof (len_nonneg (dictData c)); lia)) as Htypes.
  rewrite Et in Htypes.
  destruct (Compress_output_shape fuel c input h short long dictT
              Hbytes Hsound Hl Hd Hfree Et H)
    as [-> | (items & Hv & Eloop & -> & Efall)].
  - (* the fallback: a hint of level 0 *)
    rewrite <- H. apply Compress_rejected_hint. unfold hint_header_invalid.
    rewrite Header_ReadFrom_bytes by (unfold NoCompression; apply Hbytes || lia).
    cbn [fst Header_Level]. right; right. reflexivity.
  - pose proof H as H0. unfold Compress in H |- *.
    destruct (len input >? MaxInputSize) eqn:Esize; [discriminate|].
    destruct (Z.eqb_spec (level c) NoCompression) as [E0 | N0];
      [unfold NoCompression in E0; lia|].
    unfold Compress_stream. rewrite Et. unfold Header_WriteTo, NewWriter.
    cbn [app Header_Version Header_Level].
    pose proof (compressFromHint_own_stream c input [] _ short long dictT items
                  (len input)
                  Hbytes Hdist Hl Et Htypes (escape_free_bytes input Hfree) Hv eq_refl)
      as Hreplay.
    unfold Level in *. rewrite Hreplay.
    cbn [bind app].
    assert (Edone : forall bs bw, Compress_loop fuel c input bs (len input) bw = Ok bw).
    { intros bs bw. destruct fuel; cbn [Compress_loop]; rewrite Z.ltb_irrefl; reflexivity. }
    rewrite Edone. cbn [bind]. rewrite Efall. reflexivity.
Qed.

(** On an input without escape symbols [Compress] returns, given one unit
    of fuel for every byte. *)
Lemma Compress_returns (fuel : nat) (c : Compressor) (input : list Z) :
  constants_are_bytes -> lookup_sound ->
  level c = 1 \/ level c = 2 \/ level c = 4 \/ level c = 8 ->
  len (dictData c) < 2 ^ 63 ->
  escape_free input ->
  len input <= MaxInputSize -> len input <= Z.of_nat fuel ->
  returns (Compress fuel c input []).
Proof.
  intros Hbytes Hsound Hl Hd Hfree Hsize Hfuel. unfold Compress.
  destruct (len input >? MaxInputSize) eqn:Esize; [apply Z.gtb_gt in Esize; lia|].
  destruct (Z.eqb_spec (level c) NoCompression) as [E0 | N0];
    [unfold NoCompression in E0; lia|].
  unfold Compress_stream.
  pose proof (InitBackRefTypes_ok (len (dictData c)) (level c) Hbytes Hl
                ltac:(pose proof (len_nonneg (dictData c)); lia)) as Htypes.
  destruct (InitBackRefTypes (len (dictData c)) (level c)) as [[short long] dictT].
  cbn [bind].
  assert (Hrange : 0 <= 0 <= len input) by (pose proof (len_nonneg input); lia).
  match goal with
  | |- context [Compress_loop fuel c input ?bs 0 NewWriter] =>
      destruct (Compress_loop_returns c input short long dictT Htypes Hsound Hfree
                  fuel bs 0 NewWriter Hrange ltac:(lia)
                  (conj eq_refl (conj eq_refl eq_refl))) as [bw ->]
  end.
  cbn [bind]. destruct (_ >=? _); apply Ok_returns.
Qed.

(** C2, as amended.  Let [p] be a prefix of the input that holds no escape
    symbol, compressed at one of the levels 1, 2, 4, 8 with an index that
    returns occurrences only.  Then [Compress(p)] returns an output [h];
    [compressFromHint], given [h] as a hint for the input, either rejects
    it ([h] is the raw encoding of [p]) and leaves the bit writer empty, or
    replays it to the end, returning [startI = len(p)] with the bit writer
    holding the very stream that [h] closes, for the main loop to resume
    there; and for the input [p] itself the hint does not alter the output:
    [Compress(p, Compress(p))] is [Compress(p)], byte for byte. *)
Theorem hint_of_prefix_replayed (fuel : nat) (c : Compressor) (p rest : list Z) :
  constants_are_bytes -> symbols_distinct -> lookup_sound ->
  level c = 1 \/ level c = 2 \/ level c = 4 \/ level c = 8 ->
  len (dictData c) < 2 ^ 63 ->
  escape_free p -> Forall (fun b => 0 <= b < 256) rest ->
  len p <= MaxInputSize -> len p <= Z.of_nat fuel ->
  exists h,
    Compress fuel c p [] = Ok h /\
    (exists startI bw,
       compressFromHint c {| Header_Version := Version; Header_Level := level c |}
         (p ++ rest) h [] = Ok (startI, bw) /\
       ((startI = 0 /\ bw = [] /\ h = Version :: NoCompression :: p) \/
        (startI = len p /\ h = Version :: level c :: Close bw))) /\
    Compress fuel c p [h] = Ok h.
Proof.
  intros Hbytes Hdist Hsound Hl Hd Hfree Hrest Hsize Hfuel.
  destruct (Compress_returns fuel c p Hbytes Hsound Hl Hd Hfree Hsize Hfuel)
    as [h Hh].
  exists h. split; [exact Hh|]. split;
    [|now apply Compress_own_output_replayed].
  destruct (InitBackRefTypes (len (dictData c)) (level c))
    as [[short long] dictT] eqn:Et.
  pose proof (InitBackRefTypes_ok (len (dictData c)) (level c) Hbytes Hl
                ltac:(pose proof (len_nonneg (dictData c)); lia)) as Htypes.
  rewrite Et in Htypes.
  destruct (Compress_output_shape fuel c p h short long dictT
              Hbytes Hsound Hl Hd Hfree Et Hh)
    as [-> | (items & Hv & _ & -> & _)].
  - exists 0, []. split; [|left; auto].
    apply compressFromHint_rejects. unfold hint_header_invalid.
    rewrite Header_ReadFrom_bytes by (unfold NoCompression; apply Hbytes || lia).
    cbn [fst Header_Level]. right; right. reflexivity.
  - exists (len p), (emit_all [] items 0). split; [|right; auto].
    assert (Hrange : 0 <= 0 <= len p) by (pose proof (len_nonneg p); lia).
    pose proof (compressFromHint_own_stream c (p ++ rest) [] _ short long dictT
                  items (len p) Hbytes Hdist Hl Et Htypes
                  ltac:(apply Forall_app; split;
                        [apply (escape_free_bytes p Hfree) | exact Hrest])
                  (valid_items_prefix c p rest short long dictT items 0 (len p)
                     Htypes Hrange Hv)
                  eq_refl) as Hreplay.
    unfold Level in *. exact Hreplay.
Qed.

End OwnOutput.

(** ** The round trip on inputs without escape symbols *)

Section RoundTrip.
Import Bitio Lzss.
Context {consts : Constants} {sa : SuffixArray} {spare : SpareCapacity}.

Variables (c : Compressor) (input : list Z) (short long dictT : BackrefType).
Hypothesis Htypes : types_ok short long dictT (len (dictData c)).
Hypothesis Hdistinct : symbols_distinct.
Hypothesis Hbytes : Forall (fun b => 0 <= b < 256) input.

(** Decoding the stream of valid items that cover the input from [i] to
    [j] extends the first [i] bytes of the input to its first [j] bytes. *)
Lemma Decompress_items (items : list item) : forall (i : Z) (fuel : nat)
    (tail : list bool) (j : Z),
  0 <= i ->
  valid_items input (dictData c) short long dictT i items j ->
  (List.length items < fuel)%nat -> (List.length tail < 8)%nat ->
  (let '(s, in_) :=
     TryReadByte {| rbits := emit_all [] items i ++ tail; TryError := false |} in
   Decompress_loop fuel (dictData c) short long dictT in_ s
     (firstn (Z.to_nat i) input))
  = Ok (firstn (Z.to_nat j) input).
Proof.
  induction items as [|it items IH]; intros i fuel tail j Hi Hv Hfuel Htail.
  - cbn [valid_items] in Hv. subst j. cbn [emit_all app].
    pose proof (TryReadByte_short tail Htail) as Herr.
    destruct (TryReadByte {| rbits := tail; TryError := false |}) as [s in_].
    cbn [snd] in Herr.
    destruct fuel; cbn [Decompress_loop]; rewrite Herr; reflexivity.
  - cbn [valid_items] in Hv. destruct Hv as [Hit Hrest].
    destruct fuel as [|fuel]; [cbn in Hfuel; lia|].
    cbn [List.length] in Hfuel.
    cbn [emit_all]. rewrite (emit_all_app items (emit [] it i)), <- app_assoc.
    destruct it as [b | r].
    + (* a literal *)
      destruct Hit as [Hb Hcan]. cbn [emit item_len] in *.
      unfold TryWriteByte at 1. cbn [app].
      rewrite TryReadByte_byte
        by (eapply (input_byte input Hbytes); eassumption).
      cbn [Decompress_loop TryError].
      destruct (canEncodeSymbol_false_iff b Hcan) as (-> & -> & ->).
      cbn [orb bind].
      assert (Hout : firstn (Z.to_nat i) input ++ [b]
                     = firstn (Z.to_nat (i + 1)) input).
      { apply index_Ok in Hb. destruct Hb as [Hr Hb].
        rewrite <- (prefix_snoc _ _ _ Hb). f_equal. lia. }
      rewrite Hout.
      assert (Hi1 : 0 <= i + 1) by lia.
      exact (IH (i + 1) fuel tail j Hi1 Hrest ltac:(lia) Htail).
    + (* a back-reference *)
      cbn [emit item_len] in *.
      destruct (valid_ref_fits c input short long dictT Htypes i r Hi Hit)
        as (Hok & Hlen1 & Hlen & Haddr).
      destruct Hok as (Hsym & HL & HA & _).
      rewrite writeTo_fields, <- app_assoc.
      rewrite TryReadByte_byte by exact Hsym.
      cbn [Decompress_loop TryError].
      assert (Hi1 : 0 <= i + length r) by lia.
      specialize (IH (i + length r) fuel tail j Hi1 Hrest ltac:(lia) Htail).
      destruct Htypes as (_ & _ & _ & Ss & Sl & Sd & Ds & Dl & Dd & _).
      destruct Hdistinct as (Nds & Ndl & Nsl).
      pose proof Hit as (Ht & Hnb & Hend & Hmax & Hm).
      destruct Ht as [Et | [Et | Et]]; rewrite Et in *.
      * rewrite Ss, Z.eqb_refl. cbn [orb].
        rewrite (readFrom_fields r)
          by (cbn [bType]; rewrite ?Et; (reflexivity || lia)).
        rewrite Et, Ds in *. cbn [TryError address length].
        destruct Hm as (Ha & Hreach & Hk).
        rewrite copyLoop_match by (assumption || lia). cbn [bind]. exact IH.
      * rewrite Sl, Z.eqb_refl.
        destruct (Z.eqb_spec SymbolLong SymbolShort) as [E|_]; [congruence|].
        cbn [orb].
        rewrite (readFrom_fields r)
          by (cbn [bType]; rewrite ?Et; (reflexivity || lia)).
        rewrite Et, Dl in *. cbn [TryError address length].
        destruct Hm as (Ha & Hreach & Hk).
        rewrite copyLoop_match by (assumption || lia). cbn [bind]. exact IH.
      * rewrite Sd, Z.eqb_refl.
        destruct (Z.eqb_spec SymbolDict SymbolShort) as [E|_]; [congruence|].
        destruct (Z.eqb_spec SymbolDict SymbolLong) as [E|_]; [congruence|].
        cbn [orb].
        rewrite (readFrom_fields r)
          by (cbn [bType]; rewrite ?Et; (reflexivity || lia)).
        rewrite Et, Dd in *. cbn [TryError address length].
        destruct Hm as (Ha & Hin & Hk).
        rewrite slice_Ok by lia. cbn [bind].
        rewrite (sub_ext (dictData c) input (address r) i (length r))
          by (assumption || lia).
        rewrite prefix_app_sub by lia. exact IH.
Qed.

End RoundTrip.

Section RoundTripCompress.
Import Bitio Lzss.
Context {consts : Constants} {sa : SuffixArray} {spare : SpareCapacity}.

(** X21.  On an input without escape symbols and without a hint,
    [Compress] returns, within one turn of its loop for every byte, and
    what it returns decodes to the input, under the spec's layout and with
    the compressor's dictionary. *)
Lemma round_trip_escape_free (fuel : nat) (c : Compressor) (input : list Z) :
  constants_are_bytes -> symbols_distinct -> lookup_sound ->
  level c = 1 \/ level c = 2 \/ level c = 4 \/ level c = 8 ->
  len (dictData c) < 2 ^ 63 ->
  escape_free input ->
  len input <= MaxInputSize -> len input <= Z.of_nat fuel ->
  exists h,
    Compress fuel c input [] = Ok h /\ Decompress (dictData c) h = Ok input.
Proof.
  intros Hbytes Hdist Hsound Hl Hd Hfree Hsize Hfuel.
  destruct (Compress_returns fuel c input Hbytes Hsound Hl Hd Hfree Hsize Hfuel)
    as [h Hh].
  exists h. split; [exact Hh|].
  destruct (InitBackRefTypes (len (dictData c)) (level c))
    as [[short long] dictT] eqn:Et.
  pose proof (InitBackRefTypes_ok (len (dictData c)) (level c) Hbytes Hl
                ltac:(pose proof (len_nonneg (dictData c)); lia)) as Htypes.
  rewrite Et in Htypes.
  destruct (Compress_output_shape fuel c input h short long dictT
              Hbytes Hsound Hl Hd Hfree Et Hh)
    as [-> | (items & Hv & _ & -> & _)]; [reflexivity|].
  set (bw := emit_all [] items 0).
  cbn [Decompress].
  destruct (Z.eqb_spec (level c) NoCompression) as [E0 | _];
    [unfold NoCompression in E0; lia|].
  rewrite Et. unfold NewReader.
  destruct (bytesToBits_Close bw) as (pad & Hpad & Epad). rewrite Epad.
  assert (Hfuel' : (List.length items < S (List.length (Close bw)))%nat).
  { pose proof (length_emit_all items 0) as H8. fold bw in H8.
    pose proof (length_bytesToBits (Close bw)) as Hb.
    rewrite Epad, length_app in Hb. lia. }
  pose proof (Decompress_items c input short long dictT Htypes Hdist
                (escape_free_bytes input Hfree)
                items 0 _ pad (len input) ltac:(lia) Hv Hfuel' Hpad) as R.
  change (firstn (Z.to_nat 0) input) with (@nil Z) in R.
  fold bw in R. rewrite R. unfold len. now rewrite Nat2Z.id, firstn_all.
Qed.

End RoundTripCompress.

(** ** The exhaustive index meets the contract *)

Section SearchFacts.
Import Lzss.

Lemma commonPrefix_spec (a : list Z) : forall b,
  0 <= commonPrefix a b /\
  forall k : nat, Z.of_nat k < commonPrefix a b -> nth_error a k = nth_error b k.
Proof.
  induction a as [|x a IH]; intros [|y b]; cbn [commonPrefix];
    try (split; [lia | intros; lia]).
  destruct (Z.eqb_spec x y) as [-> | _]; [|split; [lia | intros; lia]].
  destruct (IH b) as [H0 Hk]. split; [lia|].
  intros [|k] Hlt; cbn [nth_error]; [reflexivity|]. apply Hk. lia.
Qed.

Lemma lookupScan_inv (data pattern : list Z) (maxLen lo : Z) (n : nat) :
  forall o best,
    0 <= lo <= o ->
    scan_inv data pattern maxLen lo o best ->
    scan_inv data pattern maxLen lo (o + Z.of_nat n)
      (lookupScan data pattern maxLen o n best).
Proof.
  induction n as [|n IH]; intros o best Ho Hinv; cbn [lookupScan].
  - rewrite Z.add_0_r. exact Hinv.
  - replace (o + Z.of_nat (S n)) with (o + 1 + Z.of_nat n) by lia.
    apply IH; [lia|].
    destruct (commonPrefix_spec (skipn (Z.to_nat o) data) pattern) as [Hc0 Hck].
    set (cp := commonPrefix (skipn (Z.to_nat o) data) pattern) in *.
    destruct (snd best <? Z.min maxLen cp) eqn:E.
    + apply Z.ltb_lt in E. right. cbn [fst snd].
      assert (-1 <= snd best) by (destruct Hinv as [-> | (_ & ? & _)]; lia).
      repeat split; try lia.
      intros k Hk. specialize (Hck (Z.to_nat k) ltac:(lia)).
      rewrite nth_error_skipn in Hck. rewrite <- Hck. f_equal. lia.
    + destruct Hinv as [Hn | (Hw & Hl & Hocc)]; [now left | right].
      repeat split; try lia. exact Hocc.
Qed.

Lemma searchLongest_sound : @lookup_sound searchIndex.
Proof.
  intros data pattern minLen maxLen lo hi a l. cbn [LookupLongest searchIndex].
  unfold searchLongest.
  set (lo' := Z.max 0 lo).
  pose proof (lookupScan_inv data pattern maxLen lo' (Z.to_nat (hi - lo')) lo' (-1, -1)
                ltac:(lia) (or_introl eq_refl)) as Hinv.
  destruct (lookupScan data pattern maxLen lo' (Z.to_nat (hi - lo')) (-1, -1))
    as [a0 l0].
  cbn [snd]. destruct (l0 <? minLen) eqn:E; intros Eq; injection Eq as <- <-.
  - now left.
  - apply Z.ltb_ge in E.
    destruct Hinv as [Hn | (Hw & Hl & Hocc)]; cbn [fst snd] in *; [now left | right].
    repeat split; try lia. exact Hocc.
Qed.

End SearchFacts.

(** ** Compress with a hint, and the round trip, on concrete inputs

    The runs below use the escapes [0xff], [0xfe], [0xfd], the exhaustive
    index, level 8 and the empty dictionary, which [NewCompressor] augments
    to the three escapes. *)

Example sampleCompressor_new :
  @Lzss.NewCompressor Lzss.sampleConstants [] 8 = Ok sampleCompressor.
Proof. reflexivity. Qed.

(** C2, as stated, fails.  Twelve [a] compress to a literal and a short
    reference of length 11; twenty-four [a] compress to a literal and a
    short reference of length 23; with the former as a hint, the reference
    of length 11 is replayed and the main loop adds a second reference for
    the other twelve bytes. *)
Lemma hint_of_prefix_changes_output :
  sampleCompress (repeat 97 12) [] = Ok [1; 8; 97; 254; 7; 0; 0] /\
  sampleCompress (repeat 97 24) [] = Ok [1; 8; 97; 254; 19; 0; 0] /\
  sampleCompress (repeat 97 24) [[1; 8; 97; 254; 7; 0; 0]]
  = Ok [1; 8; 97; 254; 7; 0; 0; 254; 8; 11; 0] /\
  sampleCompress (repeat 97 24) [[1; 8; 97; 254; 7; 0; 0]]
  <> sampleCompress (repeat 97 24) [].
Proof. repeat split; vm_compute; (reflexivity || discriminate). Qed.

(** The length field of the spec's layout carries [length -
    nbBytesBackRef] in 8 bits, and so no reference shorter than its own
    encoding, while [Compress] emits references of length 1 for an escape
    byte ([fillBackrefs(i, 1)]).  Twenty-four [a] and then the escape
    [0xff]: the escape is emitted as a dict reference of length 1; the 8
    bits written for [1 - nbBytesBackRef = -2] are 254, which the layout
    as worded reads back as a length of 257, more than the dictionary
    holds.  The codec itself is not part of these sources. *)
Example escape_at_end_does_not_round_trip :
  sampleCompress (repeat 97 24 ++ [255]) []
  = Ok [1; 8; 97; 254; 19; 0; 0; 255; 254; 0] /\
  @Lzss.Decompress Lzss.sampleConstants [255; 254; 253]
    [1; 8; 97; 254; 19; 0; 0; 255; 254; 0]
  = Panic PanicSliceBounds.
Proof. split; vm_compute; reflexivity. Qed.

(** The raw encoding, which [Compress] falls back to, decodes to the input. *)
Lemma Decompress_raw {consts : Lzss.Constants} (dict input : list Z) (v : Z) :
  Lzss.Decompress dict (v :: Lzss.NoCompression :: input) = Ok input.
Proof. reflexivity. Qed.

(** Twelve [a], a prefix of twenty-four: a literal and one short
    reference, replayed as they are. *)
Lemma hint_of_prefix_replayed_witness :
  exists h,
    sampleCompress (repeat 97 12) [] = Ok h /\
    (exists startI bw,
       @Lzss.compressFromHint Lzss.sampleConstants Lzss.noSpare sampleCompressor
         {| Lzss.Header_Version := 1; Lzss.Header_Level := 8 |}
         (repeat 97 12 ++ repeat 97 12) h [] = Ok (startI, bw) /\
       ((startI = 0 /\ bw = [] /\ h = 1 :: 0 :: repeat 97 12) \/
        (startI = len (repeat 97 12) /\ h = 1 :: 8 :: Bitio.Close bw))) /\
    sampleCompress (repeat 97 12) [h] = Ok h.
Proof.
  apply (@hint_of_prefix_replayed Lzss.sampleConstants Lzss.searchIndex Lzss.noSpare 13
           sampleCompressor (repeat 97 12) (repeat 97 12)).
  - repeat split; discriminate.
  - repeat split; discriminate.
  - exact searchLongest_sound.
  - right; right; right. reflexivity.
  - reflexivity.
  - unfold Lzss.escape_free. apply Forall_forall. intros b Hb.
    apply repeat_spec in Hb. subst b. split; [lia | reflexivity].
  - apply Forall_forall. intros b Hb.
    apply repeat_spec in Hb. subst b. lia.
  - vm_compute. discriminate.
  - vm_compute. discriminate.
Defined.

(** * Further properties of the code

    [stream.go]: [bitLen], [RunLen], [NewStream] and [ToBytes], [BreakUp]
    and [log], [Pack], [FillBytes] and [ReadBytes], [WriteNum] and
    [ReadNum], [Checksum].  [lzss/compress.go]: [AugmentDict],
    [NewCompressor], [InitBackRefTypes], [findBackRef], the errors of
    [Compress], and [Compress] with a hint that is not its own output. *)

(** ** bitLen *)

Section StreamFacts.
Import Bitio Stream.

Lemma shl1_pow (b : Z) : 0 <= b <= 62 -> shl1 b = 2 ^ b.
Proof. intros Hb. unfold shl1. destruct (Z.ltb_spec b 63); [reflexivity | lia]. Qed.

Lemma bitLen_loop_least (n : Z) (fuel : nat) : forall b,
  n <= 2 ^ 62 -> 0 <= b <= 62 -> (0 < b -> 2 ^ (b - 1) < n) ->
  63 - b <= Z.of_nat fuel ->
  exists r, bitLen_loop fuel b n = Ok r /\ 0 <= r <= 62 /\ n <= 2 ^ r /\
            (0 < r -> 2 ^ (r - 1) < n).
Proof.
  induction fuel as [|fuel IH]; intros b Hn Hb Hlow Hfuel; [lia|].
  cbn [bitLen_loop]. rewrite shl1_pow by exact Hb.
  destruct (Z.ltb_spec (2 ^ b) n) as [Hlt | Hge].
  - assert (b < 62).
    { destruct (Z.lt_ge_cases b 62) as [|Hge]; [assumption|].
      pose proof (Z.pow_le_mono_r 2 62 b ltac:(lia) Hge). lia. }
    apply IH; try lia. intros _. now replace (b + 1 - 1) with b by lia.
  - exists b. auto.
Qed.

Lemma shl1_small (n b : Z) : 2 ^ 62 < n -> 0 <= b -> shl1 b < n.
Proof.
  intros Hn Hb. unfold shl1.
  destruct (Z.ltb_spec b 63).
  - pose proof (Z.pow_le_mono_r 2 b 62 ltac:(lia) ltac:(lia)). lia.
  - destruct (b =? 63); lia.
Qed.

Lemma bitLen_loop_diverges (n : Z) (fuel : nat) : forall b,
  2 ^ 62 < n -> 0 <= b -> bitLen_loop fuel b n = OutOfFuel.
Proof.
  induction fuel as [|fuel IH]; intros b Hn Hb; cbn [bitLen_loop]; [reflexivity|].
  pose proof (shl1_small n b Hn Hb) as Hlt. apply Z.ltb_lt in Hlt. rewrite Hlt.
  apply IH; lia.
Qed.

(** X1.  [bitLen(n)] is the least [b] with [n <= 2^b]: for every [n] up to
    [2^62] it returns that [b], which is at most 62, and 0 for [n <= 1],
    negative [n] included; for a larger [n] no shift of 1 in an [int]
    reaches [n]: the loop is still running after 65 turns, from where on
    its test stays true. *)
Theorem bitLen_least_power (n : Z) :
  (n <= 2 ^ 62 ->
   exists b, bitLen n = Ok b /\ 0 <= b <= 62 /\ n <= 2 ^ b /\
             (0 < b -> 2 ^ (b - 1) < n)) /\
  (2 ^ 62 < n -> bitLen n = OutOfFuel).
Proof.
  split; intros Hn.
  - apply bitLen_loop_least; cbn; lia.
  - apply bitLen_loop_diverges; lia.
Qed.

End StreamFacts.

(** ** WriteNum and ReadNum *)

Section NumFacts.
Import Bitio Stream.

Lemma wrap64_mod (x : Z) : wrap64 x mod 2 ^ 64 = x mod 2 ^ 64.
Proof.
  unfold wrap64.
  rewrite <- Zminus_mod_idemp_l.
  rewrite Z.mod_mod by lia.
  rewrite Zminus_mod_idemp_l. f_equal. lia.
Qed.

Lemma wrap64_eq (x : Z) : exists k, wrap64 x = x + k * 2 ^ 64.
Proof.
  exists (- ((x + 2 ^ 63) / 2 ^ 64)). unfold wrap64.
  rewrite Z.mod_eq by lia. lia.
Qed.

Lemma wrap64_small (x : Z) : - 2 ^ 63 <= x < 2 ^ 63 -> wrap64 x = x.
Proof. intros Hx. unfold wrap64. rewrite Z.mod_small by lia. lia. Qed.

Lemma wrap64_range (x : Z) : - 2 ^ 63 <= wrap64 x < 2 ^ 63.
Proof. unfold wrap64. pose proof (Z.mod_pos_bound (x + 2 ^ 63) (2 ^ 64) ltac:(lia)). lia. Qed.

Lemma wrap64_congr (x y : Z) : x mod 2 ^ 64 = y mod 2 ^ 64 -> wrap64 x = wrap64 y.
Proof.
  intros E. unfold wrap64. f_equal.
  rewrite <- (Zplus_mod_idemp_l x), <- (Zplus_mod_idemp_l y), E. reflexivity.
Qed.

(** What the loop of [WriteNum] appends, and what it leaves of [r]. *)
Lemma WriteNum_loop_digits (N : Z) (n : nat) : forall d r d' q,
  WriteNum_loop n N d r = Some (d', q) ->
  exists ds, d' = d ++ ds /\ List.length ds = n /\
    (digitsLE N ds + N ^ Z.of_nat n * q) mod 2 ^ 64 = r mod 2 ^ 64.
Proof.
  induction n as [|n IH]; intros d r d' q E; cbn [WriteNum_loop] in E.
  - injection E as <- <-. exists []. rewrite app_nil_r. repeat split.
    change (digitsLE N []) with 0. cbn [Z.of_nat]. rewrite Z.pow_0_r. f_equal. lia.
  - destruct (Z.eqb_spec N 0) as [|HN]; [discriminate|].
    apply IH in E. destruct E as (ds & -> & Hlen & Hval).
    exists (Z.rem r N :: ds). rewrite <- app_assoc. repeat split.
    + cbn [List.length]. lia.
    + change (digitsLE N (Z.rem r N :: ds)) with (Z.rem r N + N * digitsLE N ds).
      rewrite Nat2Z.inj_succ, Z.pow_succ_r by lia.
      replace (Z.rem r N + N * digitsLE N ds + N * N ^ Z.of_nat n * q)
        with (Z.rem r N + N * (digitsLE N ds + N ^ Z.of_nat n * q)) by ring.
      rewrite <- Zplus_mod_idemp_r, <- Zmult_mod_idemp_r, Hval.
      rewrite Zmult_mod_idemp_r, Zplus_mod_idemp_r.
      destruct (wrap64_eq (Z.quot r N)) as [k ->].
      rewrite (Z.quot_rem' r N) at 3.
      rewrite <- (Z_mod_plus_full (N * Z.quot r N + Z.rem r N) (N * k) (2 ^ 64)).
      f_equal. ring.
Qed.

Lemma int64_eq (x y : Z) :
  - 2 ^ 63 <= x < 2 ^ 63 -> - 2 ^ 63 <= y < 2 ^ 63 ->
  x mod 2 ^ 64 = y mod 2 ^ 64 -> x = y.
Proof.
  intros Hx Hy E. apply wrap64_congr in E.
  now rewrite !wrap64_small in E by assumption.
Qed.

Lemma ReadNum_loop_digits (N : Z) (pre : list Z) (n : nat) : forall ds post res,
  List.length ds = n -> - 2 ^ 63 <= res < 2 ^ 63 ->
  exists v,
    ReadNum_loop n {| D := pre ++ ds ++ post; NbSymbs := N |} (len pre) res = Ok v /\
    - 2 ^ 63 <= v < 2 ^ 63 /\
    v mod 2 ^ 64 = (res * N ^ Z.of_nat n + digitsLE N ds) mod 2 ^ 64.
Proof.
  induction n as [|n IH]; intros ds post res Hlen Hres.
  - destruct ds; [|discriminate]. exists res. cbn [ReadNum_loop].
    change (digitsLE N []) with 0. cbn [Z.of_nat]. rewrite Z.pow_0_r.
    repeat split; try lia. f_equal. lia.
  - destruct (exists_last (l := ds)) as (ds' & x & ->);
      [destruct ds; [discriminate | congruence]|].
    rewrite length_app in Hlen. cbn [List.length] in Hlen.
    assert (Hlen' : List.length ds' = n) by lia.
    cbn [ReadNum_loop D NbSymbs].
    assert (Ex : index (pre ++ (ds' ++ [x]) ++ post) (len pre + Z.of_nat n) = Ok x).
    { apply index_nth_error; [pose proof (len_nonneg pre); lia|].
      unfold len. rewrite <- Nat2Z.inj_add, Nat2Z.id.
      rewrite nth_error_app2 by lia.
      replace (length pre + n - length pre)%nat with n by lia.
      rewrite <- app_assoc. rewrite nth_error_app2 by lia.
      rewrite Hlen', Nat.sub_diag. reflexivity. }
    rewrite Ex. cbn [bind].
    rewrite <- app_assoc.
    destruct (IH ds' ([x] ++ post) (wrap64 (wrap64 (res * N) + x)) Hlen'
                (wrap64_range _)) as (v & E & Hv & Hmod).
    exists v. split; [exact E|]. split; [exact Hv|].
    rewrite Hmod, digitsLE_snoc. unfold len. rewrite Hlen'.
    rewrite Nat2Z.inj_succ, Z.pow_succ_r by lia.
    destruct (wrap64_eq (res * N)) as [k1 ->].
    destruct (wrap64_eq (res * N + k1 * 2 ^ 64 + x)) as [k2 ->].
    rewrite <- (Z_mod_plus_full (res * (N * N ^ Z.of_nat n) + _)
                  ((k1 + k2) * N ^ Z.of_nat n) (2 ^ 64)).
    f_equal. ring.
Qed.

(** X3.  What [WriteNum(r, nbWords)] appends, [ReadNum] reads back: when
    [WriteNum] returns, the stream has kept its symbols and its [NbSymbs],
    has grown by [nbWords] symbols, and [ReadNum(start, nbWords)] at the
    old length returns [r].  This holds for every [int] [r] and every
    [NbSymbs], negative ones included. *)
Theorem WriteNum_ReadNum (s s' : Stream) (r nbWords : Z) :
  - 2 ^ 63 <= r < 2 ^ 63 ->
  WriteNum s r nbWords = Written s' ->
  NbSymbs s' = NbSymbs s /\
  firstn (length (D s)) (D s') = D s /\
  Len s' = Len s + Z.max 0 nbWords /\
  ReadNum s' (Len s) nbWords = Ok r.
Proof.
  intros Hr E. unfold WriteNum in E.
  destruct (WriteNum_loop (Z.to_nat nbWords) (NbSymbs s) (D s) r)
    as [[d q]|] eqn:El; [|discriminate].
  destruct (Z.eqb_spec q 0) as [-> | _]; [|discriminate].
  cbn [negb] in E. injection E as <-.
  apply WriteNum_loop_digits in El. destruct El as (ds & -> & Hlen & Hval).
  cbn [NbSymbs D]. unfold Len. cbn [D].
  split; [reflexivity|]. split.
  { rewrite firstn_app, Nat.sub_diag, firstn_all. cbn. apply app_nil_r. }
  split.
  { rewrite len_app. unfold len. lia. }
  unfold ReadNum.
  destruct (ReadNum_loop_digits (NbSymbs s) (D s) (Z.to_nat nbWords) ds [] 0 Hlen
              ltac:(lia)) as (v & E & Hv & Hmod).
  rewrite app_nil_r in E. rewrite E. f_equal.
  apply int64_eq; try assumption.
  rewrite Hmod, <- Hval. f_equal. ring.
Qed.

Lemma WriteNum_loop_quot (N : Z) (n : nat) : forall d r,
  1 <= N -> 0 <= r < 2 ^ 63 ->
  exists d', WriteNum_loop n N d r = Some (d', r / N ^ Z.of_nat n) /\
             Forall (fun x => 0 <= x < N) (skipn (length d) d').
Proof.
  induction n as [|n IH]; intros d r HN Hr; cbn [WriteNum_loop].
  - exists d. cbn [Z.of_nat]. rewrite Z.pow_0_r, Z.div_1_r. split; [reflexivity|].
    rewrite skipn_all. constructor.
  - destruct (Z.eqb_spec N 0); [lia|].
    rewrite Z.quot_div_nonneg, Z.rem_mod_nonneg by lia.
    assert (Hq : 0 <= r / N <= r).
    { split; [apply Z.div_pos; lia|]. apply Z.div_le_upper_bound; nia. }
    rewrite wrap64_small by lia.
    destruct (IH (d ++ [r mod N]) (r / N) HN ltac:(lia)) as (d' & E & Hd).
    exists d'. split.
    + rewrite E. do 2 f_equal.
      rewrite Nat2Z.inj_succ, Z.pow_succ_r by lia.
      rewrite Z.div_div by (try lia; apply Z.pow_pos_nonneg; lia). reflexivity.
    + assert (Ed : exists ds, d' = (d ++ [r mod N]) ++ ds).
      { apply WriteNum_loop_digits in E. destruct E as (ds & -> & _). now exists ds. }
      destruct Ed as (ds & ->). rewrite <- app_assoc.
      rewrite skipn_app, Nat.sub_diag, skipn_all. cbn [app skipn].
      rewrite length_app in Hd. rewrite skipn_app in Hd.
      rewrite skipn_all2 in Hd by (rewrite length_app; lia).
      rewrite length_app in Hd. cbn [List.length app] in Hd.
      replace (length d + 1 - (length d + 1))%nat with 0%nat in Hd by lia.
      cbn [skipn] in Hd. constructor; [|exact Hd].
      apply Z.mod_pos_bound. lia.
Qed.

(** X4.  For [NbSymbs >= 1] and [r >= 0], [WriteNum(r, nbWords)] returns
    exactly when [r < NbSymbs^nbWords], and the symbols it appends are then
    digits in [[0, NbSymbs)]; otherwise it panics with "overflow". *)
Theorem WriteNum_overflow_iff (s : Stream) (r nbWords : Z) :
  1 <= NbSymbs s -> 0 <= r < 2 ^ 63 -> 0 <= nbWords ->
  (r < NbSymbs s ^ nbWords ->
   exists s', WriteNum s r nbWords = Written s' /\
              Forall (fun x => 0 <= x < NbSymbs s) (skipn (length (D s)) (D s'))) /\
  (NbSymbs s ^ nbWords <= r -> WriteNum s r nbWords = PanicOverflow).
Proof.
  intros HN Hr Hn. unfold WriteNum.
  destruct (WriteNum_loop_quot (NbSymbs s) (Z.to_nat nbWords) (D s) r HN Hr)
    as (d' & -> & Hd).
  rewrite Z2Nat.id by exact Hn.
  assert (Hpos : 0 < NbSymbs s ^ nbWords) by (apply Z.pow_pos_nonneg; lia).
  split; intros Hcmp.
  - rewrite Z.div_small by lia. cbn [Z.eqb negb]. eexists. split; [reflexivity|].
    exact Hd.
  - assert (1 <= r / NbSymbs s ^ nbWords).
    { apply Z.div_le_lower_bound; lia. }
    destruct (Z.eqb_spec (r / NbSymbs s ^ nbWords) 0); [lia|]. reflexivity.
Qed.

End NumFacts.

(** ** RunLen *)

Section RunLenFacts.
Import Bitio Stream.

Lemma RunLen_loop_spec (d : list Z) (i : Z) (fuel : nat) : forall runLen,
  len d < 2 ^ 63 - 1 -> -1 <= i ->
  0 <= i + runLen < 2 ^ 63 -> 1 <= runLen ->
  len d - (i + runLen) <= Z.of_nat fuel ->
  (forall k, 1 <= k < runLen -> index d (i + k) = Ok 0) ->
  exists r, RunLen_loop fuel d i runLen = Ok r /\ runLen <= r /\
    (forall k, 1 <= k < r -> index d (i + k) = Ok 0) /\
    (i + r < len d -> exists x, index d (i + r) = Ok x /\ x <> 0) /\
    (r = runLen \/ i + r <= len d).
Proof.
  induction fuel as [|fuel IH]; intros runLen Hd Hi H0 H1 Hfuel Hz.
  - cbn [RunLen_loop]. rewrite wrap64_small by lia.
    destruct (Z.ltb_spec (i + runLen) (len d)); [lia|].
    exists runLen. repeat split; auto; try lia.
  - cbn [RunLen_loop]. rewrite !(wrap64_small (i + runLen)) by lia.
    destruct (Z.ltb_spec (i + runLen) (len d)) as [Hlt | Hge].
    + destruct (index_returns d (i + runLen) ltac:(lia)) as [x Ex].
      rewrite Ex. cbn [bind].
      destruct (Z.eqb_spec x 0) as [-> | Hx].
      * rewrite wrap64_small by lia.
        destruct (IH (runLen + 1)) as (r & E & Hr & Hzr & Hend & Hb); try lia.
        { intros k Hk. destruct (Z.eq_dec k runLen) as [-> | ?]; [exact Ex|].
          apply Hz. lia. }
        exists r. repeat split; auto; try lia.
      * exists runLen. repeat split; auto; try lia.
        intros _. exists x. auto.
    + exists runLen. repeat split; auto; try lia.
Qed.

(** X2.  On a stream as Go can hold it (a slice of [int] has fewer than
    [2^63 - 1] elements): [RunLen(i)], for [-1 <= i < MaxInt64], returns an
    [r >= 1] such that the [r - 1] symbols after position [i] are zero and
    the next one, if there is one, is not.  The symbol at [i] is not looked
    at, and an [i] at or past the end gives 1, without a bounds check.  For
    [i < -1], and for [i = MaxInt64] where [i + 1] wraps around to
    [MinInt64], the first [s.D[i+runLen]] is out of range and [RunLen]
    panics. *)
Theorem RunLen_maximal_zero_run (s : Stream) (i : Z) :
  Len s < 2 ^ 63 - 1 ->
  (-1 <= i < 2 ^ 63 - 1 ->
   exists r,
     RunLen s i = Ok r /\ 1 <= r /\
     (forall k, 1 <= k < r -> At s (i + k) = Ok 0) /\
     (i + r < Len s -> exists x, At s (i + r) = Ok x /\ x <> 0) /\
     (r = 1 \/ i + r <= Len s)) /\
  (- 2 ^ 63 <= i < -1 \/ i = 2 ^ 63 - 1 ->
   RunLen s i = Panic PanicIndexOutOfRange).
Proof.
  intros Hlen. unfold RunLen, At, Len in *. split.
  - intros Hi.
    assert (Hfuel : len (D s) - (i + 1) <= Z.of_nat (length (D s)))
      by (unfold len; lia).
    assert (Hnone : forall k, 1 <= k < 1 -> index (D s) (i + k) = Ok 0)
      by (intros; lia).
    destruct (RunLen_loop_spec (D s) i (length (D s)) 1 Hlen ltac:(lia)
                ltac:(lia) ltac:(lia) Hfuel Hnone)
      as (r & E & Hr & Hz & He & Hb).
    exists r. auto.
  - intros Hi.
    assert (Hneg : wrap64 (i + 1) < 0).
    { destruct Hi as [Hi | ->].
      - rewrite wrap64_small by lia. lia.
      - vm_compute. reflexivity. }
    assert (Hd : 0 <= len (D s)) by (unfold len; lia).
    destruct (length (D s)); cbn [RunLen_loop];
      (destruct (Z.ltb_spec (wrap64 (i + 1)) (len (D s))); [|lia]);
      unfold index;
      (destruct (Z.ltb_spec (wrap64 (i + 1)) 0); [|lia]); reflexivity.
Qed.

End RunLenFacts.

(** ** The elements of Pack fit below the modulus *)

Section PackBound.
Import Bitio Stream.

Lemma bitLen_Ok (n b : Z) :
  bitLen n = Ok b -> 0 <= b <= 62 /\ n <= 2 ^ b /\ (0 < b -> 2 ^ (b - 1) < n).
Proof.
  intros E. destruct (Z.le_gt_cases n (2 ^ 62)) as [Hn | Hn].
  - destruct (bitLen_loop_least n 65 0 Hn ltac:(lia) ltac:(lia) ltac:(lia))
      as (r & Er & H).
    unfold bitLen in E. rewrite Er in E. injection E as <-. exact H.
  - unfold bitLen in E. rewrite bitLen_loop_diverges in E by lia. discriminate.
Qed.

Lemma Forall_firstn_skipn {A} (P : A -> Prop) (l : list A) (a n : nat) :
  Forall P l -> Forall P (firstn n (skipn a l)).
Proof.
  intros H. rewrite <- (firstn_skipn a l) in H. apply Forall_app in H.
  destruct H as [_ H]. rewrite <- (firstn_skipn n (skipn a l)) in H.
  apply Forall_app in H. apply H.
Qed.

Lemma digitsLE_bound (R : Z) (g : list Z) :
  1 <= R -> Forall (fun x => 0 <= x < R) g ->
  0 <= digitsLE R g < R ^ len g.
Proof.
  intros HR. induction 1 as [|x g Hx Hg IH].
  - cbn. lia.
  - change (digitsLE R (x :: g)) with (x + R * digitsLE R g).
    replace (len (x :: g)) with (Z.succ (len g)) by (unfold len; cbn [List.length]; lia).
    rewrite Z.pow_succ_r by apply len_nonneg. nia.
Qed.

(** X5.  Every element that [Pack(nbBits)] returns is not negative and
    below [2^(nbBits-1)], given symbols in [[0, NbSymbs)]: the elements fit
    in a field whose modulus has [nbBits] bits. *)
Theorem Pack_elements_fit (s : Stream) (nbBits : Z) (packed : list Z) :
  1 <= nbBits ->
  Forall (fun x => 0 <= x < NbSymbs s) (D s) ->
  Pack s nbBits = Ok packed ->
  Forall (fun e => 0 <= e < 2 ^ (nbBits - 1)) packed.
Proof.
  intros Hbits Hsym E. unfold Pack in E.
  destruct (bitLen (NbSymbs s)) as [wordLen| | |] eqn:Eb; cbn [bind] in E;
    try discriminate.
  apply bitLen_Ok in Eb. destruct Eb as (Hb & Hle & _).
  destruct (Z.eqb_spec wordLen 0) as [|Hw0]; [discriminate|].
  set (w := Z.quot (nbBits - 1) wordLen) in *.
  destruct (Z.eqb_spec w 0) as [|Hw]; [discriminate|].
  destruct (Z.quot (len (D s) + w - 1) w <? 0); [discriminate|].
  injection E as <-.
  assert (Hwpos : 1 <= w).
  { assert (0 <= w) by (apply Z.quot_pos; lia). lia. }
  assert (Hfit : wordLen * w <= nbBits - 1).
  { unfold w. rewrite Z.quot_div_nonneg by lia.
    apply Z.mul_div_le. lia. }
  apply Forall_forall. intros e He. apply in_map_iff in He.
  destruct He as (i & <- & _).
  rewrite Pack_inner_digits by lia. cbn zeta.
  rewrite Z.mul_0_l, Z.add_0_l, Z.shiftl_1_l.
  set (g := firstn (Z.to_nat w) (skipn (Z.to_nat (Z.of_nat i * w)) (D s))).
  assert (Hg : Forall (fun x => 0 <= x < 2 ^ wordLen) g).
  { apply Forall_firstn_skipn. eapply Forall_impl; [|exact Hsym].
    cbn beta. intros x Hx. lia. }
  assert (Hpow : 1 <= 2 ^ wordLen) by (pose proof (Z.pow_pos_nonneg 2 wordLen); lia).
  pose proof (digitsLE_bound (2 ^ wordLen) g Hpow Hg) as Hd.
  split; [lia|]. eapply Z.lt_le_trans; [apply Hd|].
  rewrite <- Z.pow_mul_r by (try lia; apply len_nonneg).
  apply Z.pow_le_mono_r; [lia|].
  assert (len g <= w).
  { unfold g, len. rewrite length_firstn. lia. }
  pose proof (len_nonneg g). nia.
Qed.

End PackBound.

(** ** NewStream and ToBytes *)

Section NewStreamFacts.
Import Bitio Stream.

Lemma Close_bytesToBits_aux (l : list Z) : forall n : nat,
  Forall (fun b => 0 <= b < 256) l -> (length l <= n)%nat ->
  bitsToBytes_aux n (bytesToBits l) = l.
Proof.
  induction l as [|b l IH]; intros n Hl Hn.
  - apply bitsToBytes_aux_nil.
  - destruct n as [|n]; [cbn in Hn; lia|].
    inversion Hl as [|? ? Hb Hl']; subst.
    change (bytesToBits (b :: l)) with (bitsMSB 8 b ++ bytesToBits l).
    cbn [bitsMSB app bitsToBytes_aux firstn skipn]. f_equal.
    + change (valueMSB 0 (bitsMSB 8 b) = b).
      rewrite valueMSB_bitsMSB. change (2 ^ Z.of_nat 8) with 256.
      rewrite Z.mod_small by lia. lia.
    + apply IH; [exact Hl' | cbn in Hn; lia].
Qed.

Lemma Close_bytesToBits (l : list Z) :
  Forall (fun b => 0 <= b < 256) l -> Close (bytesToBits l) = l.
Proof.
  intros Hl. unfold Close, bitsToBytes. apply Close_bytesToBits_aux; [exact Hl|].
  rewrite length_bytesToBits. lia.
Qed.

Lemma bitLen_pow2 (b : Z) : 0 <= b <= 62 -> bitLen (2 ^ b) = Ok b.
Proof.
  intros Hb.
  assert (Hle : 2 ^ b <= 2 ^ 62) by (apply Z.pow_le_mono_r; lia).
  destruct (bitLen_loop_least (2 ^ b) 65 0 Hle ltac:(lia) ltac:(lia) ltac:(lia))
    as (r & E & Hr & Hup & Hlow).
  unfold bitLen. rewrite E. f_equal.
  apply Z.pow_le_mono_r_iff in Hup; try lia.
  destruct (Z.eq_dec r 0) as [-> | Hr0]; [lia|].
  specialize (Hlow ltac:(lia)). apply Z.pow_lt_mono_r_iff in Hlow; lia.
Qed.

(** The loop of [NewStream] cuts the bits into symbols, and writing the
    symbols one after the other gives the bits back. *)
Lemma NewStream_loop_chunks (bn : nat) (n : nat) : forall bits e w,
  (1 <= bn <= 62)%nat -> (n * bn <= length bits)%nat ->
  exists ds,
    NewStream_loop n {| rbits := bits; TryError := e |} (Z.of_nat bn) = Ok ds /\
    length ds = n /\
    Forall (fun x => 0 <= x < 2 ^ Z.of_nat bn) ds /\
    fold_left (fun w v => TryWriteBits w (v mod 2 ^ 64) (Z.of_nat bn mod 256)) ds w
    = w ++ firstn (n * bn) bits.
Proof.
  induction n as [|n IH]; intros bits e w Hbn Hlen.
  - exists []. cbn. rewrite app_nil_r. repeat split. constructor.
  - cbn [NewStream_loop]. unfold ReadBits. cbn [rbits TryError].
    destruct (Z.ltb_spec (len bits) (Z.of_nat bn)) as [Hshort | _];
      [unfold len in Hshort; lia|].
    cbn [bind]. rewrite Nat2Z.id.
    set (chunk := firstn bn bits).
    assert (Hchunk : length chunk = bn).
    { unfold chunk. rewrite length_firstn. lia. }
    pose proof (valueMSB_bound chunk) as Hv. unfold len in Hv. rewrite Hchunk in Hv.
    assert (Hpow : 2 ^ Z.of_nat bn <= 2 ^ 62) by (apply Z.pow_le_mono_r; lia).
    rewrite (Z.mod_small (valueMSB 0 chunk)) by lia.
    destruct (IH (skipn bn bits) e
                (w ++ chunk) Hbn ltac:(rewrite length_skipn; lia))
      as (ds & E & Hds & Hr & Hw).
    rewrite E. cbn [bind].
    unfold int_of_uint64.
    destruct (Z.ltb_spec (valueMSB 0 chunk) (2 ^ 63)) as [_ | Hbig]; [|lia].
    exists (valueMSB 0 chunk :: ds). split; [reflexivity|].
    split; [cbn [length]; lia|]. split; [constructor; [lia | exact Hr]|].
    cbn [fold_left].
    replace (TryWriteBits w (valueMSB 0 chunk mod 2 ^ 64) (Z.of_nat bn mod 256))
      with (w ++ chunk).
    2:{ unfold TryWriteBits. rewrite (Z.mod_small (Z.of_nat bn)) by lia.
        rewrite (Z.mod_small (valueMSB 0 chunk)) by lia.
        rewrite Nat2Z.id. f_equal. rewrite <- Hchunk at 1.
        now rewrite bitsMSB_valueMSB. }
    rewrite Hw, <- app_assoc. f_equal.
    replace (S n * bn)%nat with (bn + n * bn)%nat by lia.
    now rewrite <- prefix_sub.
Qed.

(** X6.  [NewStream(in, bitsPerSymbol)], for a [bitsPerSymbol] from 1 to 62
    that divides the number of bits of [in], returns a stream of
    [8 * len(in) / bitsPerSymbol] symbols, all below
    [NbSymbs = 2^bitsPerSymbol], whose [ToBytes] is [in]. *)
Theorem NewStream_ToBytes (in_ : list Z) (bitsPerSymbol : Z) :
  1 <= bitsPerSymbol <= 62 ->
  Forall (fun b => 0 <= b < 256) in_ ->
  (8 * len in_) mod bitsPerSymbol = 0 ->
  exists s,
    NewStream in_ bitsPerSymbol = Ok s /\
    NbSymbs s = 2 ^ bitsPerSymbol /\
    Len s * bitsPerSymbol = 8 * len in_ /\
    Forall (fun x => 0 <= x < NbSymbs s) (D s) /\
    ToBytes s = Ok in_.
Proof.
  intros Hb Hbytes Hdiv. unfold NewStream.
  destruct (Z.eqb_spec bitsPerSymbol 0) as [|_]; [lia|].
  pose proof (len_nonneg in_) as Hlen0.
  rewrite Z.quot_div_nonneg by lia.
  set (n := Z.to_nat (len in_ * 8 / bitsPerSymbol)).
  assert (Hn : Z.of_nat n * bitsPerSymbol = 8 * len in_).
  { unfold n. rewrite Z2Nat.id by (apply Z.div_pos; lia).
    apply Z.div_exact in Hdiv; [|lia].
    replace (len in_ * 8) with (8 * len in_) by lia. lia. }
  assert (Hbits : length (bytesToBits in_) = (n * Z.to_nat bitsPerSymbol)%nat).
  { rewrite length_bytesToBits. unfold len in Hn. lia. }
  assert (Hb' : (1 <= Z.to_nat bitsPerSymbol <= 62)%nat) by lia.
  assert (Hfit : (n * Z.to_nat bitsPerSymbol <= length (bytesToBits in_))%nat) by lia.
  destruct (NewStream_loop_chunks (Z.to_nat bitsPerSymbol) n (bytesToBits in_) false
              NewWriter Hb' Hfit) as (ds & E & Hds & Hr & Hw).
  rewrite Z2Nat.id in E, Hr, Hw by lia.
  unfold NewReader. rewrite E. cbn [bind].
  eexists. split; [reflexivity|]. cbn [NbSymbs D]. unfold Len. cbn [D].
  rewrite shl1_pow by lia.
  split; [reflexivity|]. split; [unfold len at 1; rewrite Hds; exact Hn|].
  split; [exact Hr|].
  unfold ToBytes. cbn [NbSymbs D]. rewrite bitLen_pow2 by lia. cbn [bind].
  rewrite Hw. unfold NewWriter. cbn [app].
  rewrite <- Hbits, firstn_all. f_equal. now apply Close_bytesToBits.
Qed.

End NewStreamFacts.

(** ** BreakUp and log *)

Section BreakUpFacts.
Import Bitio Stream.

Lemma length_digitsOf (N : Z) (k : nat) : forall v, length (digitsOf N k v) = k.
Proof.
  induction k as [|k IH]; intros v; cbn [digitsOf]; [reflexivity|].
  rewrite length_app, IH. cbn. lia.
Qed.

Lemma digitsBE_snoc (N : Z) (l : list Z) (x : Z) :
  digitsBE N (l ++ [x]) = digitsBE N l * N + x.
Proof. unfold digitsBE. now rewrite fold_left_app. Qed.

Lemma digitsBE_digitsOf (N : Z) (k : nat) : forall v,
  1 <= N -> 0 <= v -> digitsBE N (digitsOf N k v) = v mod N ^ Z.of_nat k.
Proof.
  induction k as [|k IH]; intros v HN Hv.
  - cbn [digitsOf Z.of_nat]. rewrite Z.pow_0_r, Z.mod_1_r. reflexivity.
  - cbn [digitsOf]. rewrite digitsBE_snoc, IH by (try lia; apply Z.div_pos; lia).
    rewrite Nat2Z.inj_succ, Z.pow_succ_r by lia.
    rewrite Z.rem_mul_r by (try lia; pose proof (Z.pow_pos_nonneg N (Z.of_nat k)); lia).
    lia.
Qed.

Lemma digitsOf_range (N : Z) (k : nat) : forall v,
  1 <= N -> Forall (fun x => 0 <= x < N) (digitsOf N k v).
Proof.
  induction k as [|k IH]; intros v HN; cbn [digitsOf]; [constructor|].
  apply Forall_app. split; [now apply IH|].
  constructor; [apply Z.mod_pos_bound; lia | constructor].
Qed.

Lemma set_index_middle {A} (a b : list A) (m x : A) :
  set_index (a ++ m :: b) (len a) x = a ++ x :: b.
Proof.
  unfold set_index, len. rewrite Nat2Z.id.
  rewrite firstn_app, Nat.sub_diag, firstn_all. cbn [firstn]. rewrite app_nil_r.
  f_equal. f_equal.
  change (S (length a)) with (1 + length a)%nat.
  rewrite <- skipn_skipn.
  rewrite skipn_app, Nat.sub_diag, skipn_all. reflexivity.
Qed.

(** The inner loop of [BreakUp] fills the [n] places that are left of the
    group with the [n] low digits of [v], the lowest in the last place. *)
Lemma BreakUp_inner_digits (N k i : Z) (pre post : list Z) (n : nat) :
  forall mid done j v,
    1 <= N -> 0 <= v < 2 ^ 63 ->
    len pre = i * k -> length mid = n -> j = len done -> k = Z.of_nat n + j ->
    BreakUp_inner n N k i j v (pre ++ mid ++ done ++ post)
    = Ok (pre ++ digitsOf N n v ++ done ++ post).
Proof.
  induction n as [|n IH]; intros mid done j v HN Hv Hpre Hmid Hj Hk.
  - destruct mid; [|discriminate]. reflexivity.
  - cbn [BreakUp_inner digitsOf].
    destruct (Z.eqb_spec N 0); [lia|].
    destruct (exists_last (l := mid)) as (mid' & m & ->);
      [destruct mid; [discriminate | congruence]|].
    rewrite length_app in Hmid. cbn [length] in Hmid.
    assert (Hidx : (i + 1) * k - j - 1 = len (pre ++ mid')).
    { rewrite len_app, Hpre. unfold len. lia. }
    rewrite Hidx.
    replace (pre ++ (mid' ++ [m]) ++ done ++ post)
      with ((pre ++ mid') ++ m :: done ++ post)
      by (rewrite <- !app_assoc; reflexivity).
    pose proof (len_nonneg (pre ++ mid')) as H0.
    destruct (Z.leb_spec 0 (len (pre ++ mid'))) as [_|]; [|lia].
    destruct (Z.ltb_spec (len (pre ++ mid')) (len ((pre ++ mid') ++ m :: done ++ post)))
      as [_ | Hge].
    2:{ rewrite len_app in Hge. unfold len in Hge. cbn [length] in Hge. lia. }
    cbn [andb]. rewrite set_index_middle.
    rewrite Z.quot_div_nonneg, Z.rem_mod_nonneg by lia.
    assert (Hq : 0 <= v / N <= v).
    { split; [apply Z.div_pos; lia|]. apply Z.div_le_upper_bound; nia. }
    rewrite wrap64_small by lia.
    rewrite <- app_assoc.
    change (v mod N :: done ++ post) with ((v mod N :: done) ++ post).
    rewrite (IH mid' (v mod N :: done) (j + 1) (v / N)); try lia.
    + rewrite <- !app_assoc. reflexivity.
    + unfold len. cbn [length]. unfold len in Hj. lia.
Qed.

Lemma BreakUp_loop_digits (N : Z) (k : nat) (old : list Z) : forall i pre mids,
  1 <= N -> Forall (fun x => 0 <= x < 2 ^ 63) old ->
  len pre = i * Z.of_nat k -> length mids = (length old * k)%nat ->
  BreakUp_loop old N (Z.of_nat k) i (pre ++ mids)
  = Ok (pre ++ flat_map (digitsOf N k) old).
Proof.
  induction old as [|v old IH]; intros i pre mids HN Hold Hpre Hmids.
  - destruct mids; [|discriminate]. reflexivity.
  - cbn [BreakUp_loop flat_map]. rewrite Nat2Z.id.
    inversion Hold as [|? ? Hv Hold']; subst.
    cbn [length] in Hmids.
    rewrite <- (firstn_skipn k mids).
    pose proof (BreakUp_inner_digits N (Z.of_nat k) i pre (skipn k mids) k
                  (firstn k mids) [] 0 v HN Hv Hpre) as Hin.
    cbn [app] in Hin. rewrite Hin; cycle 1.
    { rewrite length_firstn. lia. }
    { reflexivity. }
    { lia. }
    cbn [bind]. rewrite app_assoc.
    rewrite IH; try assumption.
    + now rewrite <- app_assoc.
    + rewrite len_app, Hpre. unfold len. rewrite length_digitsOf. lia.
    + rewrite length_skipn. lia.
Qed.

Lemma log_loop_spec (x base : Z) (fuel : nat) : forall pow exp,
  2 <= base -> x * base <= 2 ^ 63 ->
  0 <= exp -> pow = base ^ exp -> (0 < exp -> base ^ (exp - 1) < x) ->
  63 - exp <= Z.of_nat fuel ->
  exists k, log_loop fuel x base pow exp = Ok k /\ exp <= k /\
            x <= base ^ k /\ (0 < k -> base ^ (k - 1) < x).
Proof.
  induction fuel as [|fuel IH]; intros pow exp Hb Hx He Hpow Hlow Hfuel.
  - cbn [log_loop]. destruct (Z.ltb_spec pow x) as [Hlt | Hge].
    + exfalso. subst pow.
      assert (2 ^ exp <= base ^ exp) by (apply Z.pow_le_mono_l; lia).
      assert (2 ^ 63 <= 2 ^ exp) by (apply Z.pow_le_mono_r; lia). nia.
    + exists exp. subst pow. auto with zarith.
  - cbn [log_loop]. destruct (Z.ltb_spec pow x) as [Hlt | Hge].
    + assert (Hpos : 0 < pow) by (subst pow; apply Z.pow_pos_nonneg; lia).
      rewrite wrap64_small by nia.
      assert (Hexp : exp < 62).
      { destruct (Z.lt_ge_cases exp 62) as [|Hbig]; [assumption|]. exfalso.
        assert (2 ^ exp <= base ^ exp) by (apply Z.pow_le_mono_l; lia).
        assert (2 ^ 62 <= 2 ^ exp) by (apply Z.pow_le_mono_r; lia). nia. }
      destruct (IH (pow * base) (exp + 1)) as (k & E & Hk & Hup & Hdown); try lia.
      * subst pow. rewrite Z.pow_add_r by lia. now rewrite Z.pow_1_r.
      * intros _. replace (exp + 1 - 1) with exp by lia. now subst pow.
      * exists k. repeat split; auto; lia.
    + exists exp. subst pow. auto with zarith.
Qed.

Lemma skipn_flat_map {A B} (f : A -> list B) (k : nat) (l : list A) : forall i : nat,
  (forall x, length (f x) = k) ->
  skipn (i * k) (flat_map f l) = flat_map f (skipn i l).
Proof.
  induction l as [|x l IH]; intros i Hf.
  - now rewrite !skipn_nil.
  - destruct i as [|i]; [reflexivity|].
    cbn [flat_map skipn]. replace (S i * k)%nat with (i * k + length (f x))%nat
      by (rewrite Hf; lia).
    rewrite <- skipn_skipn.
    rewrite skipn_app, Nat.sub_diag, skipn_all. cbn [app skipn]. now apply IH.
Qed.

(** X7.  [BreakUp(nbSymbs)], for [nbSymbs >= 2] and symbols in
    [[0, NbSymbs)], replaces every symbol by [k] symbols below [nbSymbs],
    its digits in base [nbSymbs], the most significant first, where
    [k = log(NbSymbs, nbSymbs)] is the least exponent with
    [NbSymbs <= nbSymbs^k]: the [i]-th group of [k] new symbols, read in
    base [nbSymbs], is the [i]-th old symbol. *)
Theorem BreakUp_digits (fuel : nat) (s : Stream) (nbSymbs : Z) :
  2 <= nbSymbs -> NbSymbs s * nbSymbs <= 2 ^ 63 ->
  Forall (fun x => 0 <= x < NbSymbs s) (D s) ->
  (63 <= fuel)%nat ->
  exists s' k,
    BreakUp fuel s nbSymbs = Ok s' /\
    NbSymbs s' = nbSymbs /\
    0 <= k /\ NbSymbs s <= nbSymbs ^ k /\ (0 < k -> nbSymbs ^ (k - 1) < NbSymbs s) /\
    Len s' = Len s * k /\
    Forall (fun x => 0 <= x < nbSymbs) (D s') /\
    forall i : nat, (i < length (D s))%nat ->
      digitsBE nbSymbs (group (D s') k (Z.of_nat i)) = nth i (D s) 0.
Proof.
  intros HN Hx Hsym Hfuel. unfold BreakUp, log.
  destruct (log_loop_spec (NbSymbs s) nbSymbs fuel 1 0 HN Hx ltac:(lia)
              ltac:(now rewrite Z.pow_0_r) ltac:(lia) ltac:(lia))
    as (k & E & Hk & Hup & Hdown).
  rewrite E. cbn [bind].
  assert (Hbig : Forall (fun x => 0 <= x < 2 ^ 63) (D s)).
  { eapply Forall_impl; [|exact Hsym]. cbn beta. intros v Hv.
    destruct (Z.le_gt_cases (NbSymbs s) 0); [lia | nia]. }
  pose proof (BreakUp_loop_digits nbSymbs (Z.to_nat k) (D s) 0 []
                (repeat 0 (Z.to_nat (len (D s) * k))) ltac:(lia) Hbig eq_refl) as Hloop.
  rewrite Z2Nat.id in Hloop by lia. cbn [app] in Hloop.
  rewrite Hloop; cycle 1.
  { rewrite repeat_length. unfold len. lia. }
  cbn [bind]. eexists _, k. split; [reflexivity|]. cbn [NbSymbs D]. unfold Len. cbn [D].
  split; [reflexivity|]. split; [lia|]. split; [exact Hup|]. split; [exact Hdown|].
  assert (Hlen : forall l : list Z,
            length (flat_map (digitsOf nbSymbs (Z.to_nat k)) l)
            = (length l * Z.to_nat k)%nat).
  { induction l as [|v l IHl]; [reflexivity|].
    cbn [flat_map length]. rewrite length_app, length_digitsOf, IHl. lia. }
  split; [unfold len; rewrite Hlen; lia|].
  split.
  { apply Forall_flat_map. apply Forall_forall. intros v _.
    apply digitsOf_range. lia. }
  intros i Hi. unfold group.
  replace (Z.to_nat (Z.of_nat i * k)) with (i * Z.to_nat k)%nat by lia.
  rewrite skipn_flat_map by (intros; apply length_digitsOf).
  assert (Hsk : skipn i (D s) = nth i (D s) 0 :: skipn (S i) (D s)).
  { clear - Hi. revert i Hi. induction (D s) as [|a l IHl]; intros i Hi;
      cbn [length] in Hi; [lia|].
    destruct i as [|i]; [reflexivity|]. cbn [skipn nth]. apply IHl. lia. }
  rewrite Hsk. cbn [flat_map].
  rewrite firstn_app, length_digitsOf, Nat.sub_diag. cbn [firstn].
  rewrite app_nil_r, firstn_all2 by (rewrite length_digitsOf; lia).
  assert (Hv : 0 <= nth i (D s) 0 < NbSymbs s).
  { rewrite Forall_forall in Hsym. apply Hsym. now apply nth_In. }
  rewrite digitsBE_digitsOf by lia. rewrite Z2Nat.id by lia.
  apply Z.mod_small. lia.
Qed.

Lemma log_loop_stuck (x base : Z) (fuel : nat) : forall pow exp,
  (base = 0 \/ base = 1) -> pow <= 1 -> 1 < x -> 0 <= pow ->
  log_loop fuel x base pow exp = OutOfFuel.
Proof.
  induction fuel as [|fuel IH]; intros pow exp Hb Hp Hx H0; cbn [log_loop].
  - destruct (Z.ltb_spec pow x); [reflexivity | lia].
  - destruct (Z.ltb_spec pow x); [|lia].
    apply IH; try assumption.
    + destruct Hb as [-> | ->]; rewrite wrap64_small; lia.
    + destruct Hb as [-> | ->]; rewrite wrap64_small; lia.
Qed.

(** X8.  [log(x, base)], for [base >= 2] and [x * base] within an [int],
    is the least [k] with [x <= base^k]; it is 0 for [x <= 1], whatever the
    base; and for [x > 1] with a base of 0 or 1 the loop never ends. *)
Theorem log_least_exponent (fuel : nat) (x base : Z) :
  (2 <= base -> x * base <= 2 ^ 63 -> (63 <= fuel)%nat ->
   exists k, log fuel x base = Ok k /\ 0 <= k /\ x <= base ^ k /\
             (0 < k -> base ^ (k - 1) < x)) /\
  (x <= 1 -> log fuel x base = Ok 0) /\
  (1 < x -> base = 0 \/ base = 1 -> log fuel x base = OutOfFuel).
Proof.
  unfold log. split; [|split].
  - intros Hb Hx Hf.
    destruct (log_loop_spec x base fuel 1 0 Hb Hx ltac:(lia)
                ltac:(now rewrite Z.pow_0_r) ltac:(lia) ltac:(lia))
      as (k & E & Hk & Hup & Hdown).
    exists k. auto.
  - intros Hx. destruct fuel; cbn [log_loop];
      destruct (Z.ltb_spec 1 x); (reflexivity || lia).
  - intros Hx Hb. apply log_loop_stuck; (assumption || lia).
Qed.

End BreakUpFacts.

(** ** FillBytes and ReadBytes *)

Section BitLayout.
Import Bitio Stream.

Lemma bitsMSB_plus (a c : nat) (v : Z) :
  bitsMSB (a + c) v = bitsMSB a (v / 2 ^ Z.of_nat c) ++ bitsMSB c v.
Proof.
  induction a as [|a IH]; [reflexivity|].
  cbn [Nat.add bitsMSB app]. rewrite IH. f_equal.
  rewrite Z.div_pow2_bits by lia. f_equal. lia.
Qed.

Lemma bitsMSB_0 (n : nat) : bitsMSB n 0 = repeat false n.
Proof.
  induction n as [|n IH]; [reflexivity|].
  cbn [bitsMSB repeat]. now rewrite Z.bits_0, IH.
Qed.

Lemma bitsMSB_zero_ext (p q : nat) (v : Z) :
  0 <= v < 2 ^ Z.of_nat q ->
  bitsMSB (p + q) v = repeat false p ++ bitsMSB q v.
Proof.
  intros Hv. rewrite bitsMSB_plus, Z.div_small by exact Hv.
  now rewrite bitsMSB_0.
Qed.

Lemma bytesToBits_bigEndianBytes (n : nat) (v : Z) :
  bytesToBits (bigEndianBytes n v) = bitsMSB (8 * n) v.
Proof.
  induction n as [|n IH]; [reflexivity|].
  cbn [bigEndianBytes].
  change (bytesToBits (?x :: ?l)) with (bitsMSB 8 x ++ bytesToBits l).
  rewrite IH. replace (8 * S n)%nat with (8 + 8 * n)%nat by lia.
  rewrite bitsMSB_plus. f_equal.
  change 256 with (2 ^ Z.of_nat 8) at 2. rewrite bitsMSB_mod. f_equal. f_equal.
  change 256 with (2 ^ 8). rewrite <- Z.pow_mul_r by lia. f_equal. lia.
Qed.

Lemma bitsMSB_digitsBE (b : nat) (g : list Z) :
  Forall (fun x => 0 <= x < 2 ^ Z.of_nat b) g ->
  bitsMSB (length g * b) (digitsBE (2 ^ Z.of_nat b) g) = flat_map (bitsMSB b) g.
Proof.
  induction g as [|x g IH] using rev_ind; intros Hg; [reflexivity|].
  apply Forall_app in Hg. destruct Hg as [Hg Hx]. inversion Hx as [|? ? Hx' _]; subst.
  rewrite digitsBE_snoc, flat_map_app, length_app. cbn [length flat_map].
  rewrite app_nil_r.
  replace ((length g + 1) * b)%nat with (length g * b + b)%nat by lia.
  rewrite bitsMSB_plus. f_equal.
  - rewrite Z.div_add_l by lia. rewrite Z.div_small by lia.
    rewrite Z.add_0_r. now apply IH.
  - rewrite <- bitsMSB_mod. rewrite Z.add_comm, Z.mod_add by lia.
    now rewrite bitsMSB_mod.
Qed.

Lemma digitsBE_bound (R : Z) (g : list Z) :
  1 <= R -> Forall (fun x => 0 <= x < R) g ->
  0 <= digitsBE R g < R ^ len g.
Proof.
  intros HR. induction g as [|x g IH] using rev_ind; intros Hg.
  - cbn. lia.
  - apply Forall_app in Hg. destruct Hg as [Hg Hx]. inversion Hx as [|? ? Hx' _]; subst.
    rewrite digitsBE_snoc, len_app. change (len [x]) with 1.
    rewrite Z.pow_add_r, Z.pow_1_r by (try lia; apply len_nonneg).
    specialize (IH Hg). nia.
Qed.

Lemma TryReadBits_skip (l1 rest : list bool) :
  snd (TryReadBits {| rbits := l1 ++ rest; TryError := false |} (len l1))
  = {| rbits := rest; TryError := false |}.
Proof.
  unfold TryReadBits. cbn [TryError rbits].
  destruct (Z.ltb_spec (len (l1 ++ rest)) (len l1)) as [H | _].
  - rewrite len_app in H. pose proof (len_nonneg rest). lia.
  - cbn [snd]. unfold len. rewrite Nat2Z.id.
    rewrite skipn_app, Nat.sub_diag, skipn_all. reflexivity.
Qed.

(** The inner loop of [FillBytes] reads its group with the first symbol as
    the most significant digit. *)
Lemma FillBytes_inner_digits (d : list Z) (i w radix : Z) (n : nat) : forall j elem,
  0 <= i * w + j ->
  FillBytes_inner d i w radix n j elem
  = fold_left (fun acc x => acc * radix + x)
      (firstn n (skipn (Z.to_nat (i * w + j)) d)) elem.
Proof.
  induction n as [|n IH]; intros j elem Hj; [reflexivity|].
  cbn [FillBytes_inner].
  destruct (i * w + j >=? len d) eqn:Ege.
  - rewrite Z.geb_leb in Ege. apply Z.leb_le in Ege.
    rewrite skipn_all2 by (unfold len in Ege; lia). reflexivity.
  - rewrite Z.geb_leb in Ege. apply Z.leb_gt in Ege.
    rewrite IH by lia.
    assert (Hsk : skipn (Z.to_nat (i * w + j)) d
                  = nth (Z.to_nat (i * w + j)) d 0 :: skipn (Z.to_nat (i * w + (j + 1))) d).
    { replace (Z.to_nat (i * w + (j + 1))) with (S (Z.to_nat (i * w + j))) by lia.
      assert (Hlt : (Z.to_nat (i * w + j) < length d)%nat) by (unfold len in Ege; lia).
      clear - Hlt. revert Hlt. generalize (Z.to_nat (i * w + j)). 
      induction d as [|a l IHl]; intros k Hk; cbn [length] in Hk; [lia|].
      destruct k as [|k]; [reflexivity|]. cbn [skipn nth]. apply IHl. lia. }
    rewrite Hsk. reflexivity.
Qed.

End BitLayout.

Section ReadBack.
Import Bitio Stream.

Lemma length_bigEndianBytes (n : nat) (v : Z) : length (bigEndianBytes n v) = n.
Proof. induction n as [|n IH]; cbn [bigEndianBytes length]; congruence. Qed.

Lemma length_set_index {A} (l : list A) (k : nat) (v : A) :
  (k < length l)%nat -> length (set_index l (Z.of_nat k) v) = length l.
Proof.
  intros Hk. unfold set_index. rewrite Nat2Z.id, length_app. cbn [length].
  rewrite length_firstn, length_skipn. lia.
Qed.

Lemma firstn_set_index {A} (l : list A) (k : nat) (v : A) :
  (k < length l)%nat ->
  firstn (S k) (set_index l (Z.of_nat k) v) = firstn k l ++ [v].
Proof.
  intros Hk. unfold set_index. rewrite Nat2Z.id.
  rewrite firstn_app, length_firstn.
  replace (Nat.min k (length l)) with k by lia.
  replace (S k - k)%nat with 1%nat by lia.
  rewrite firstn_all2 by (rewrite length_firstn; lia). reflexivity.
Qed.

Lemma skipn_cons_nth (l : list Z) : forall k : nat,
  (k < length l)%nat -> skipn k l = nth k l 0 :: skipn (S k) l.
Proof.
  induction l as [|a l IH]; intros k Hk; cbn [length] in Hk; [lia|].
  destruct k as [|k]; [reflexivity|]. cbn [skipn nth]. apply IH. lia.
Qed.

Lemma firstn_S_nth (l : list Z) (k : nat) :
  (k < length l)%nat -> firstn (S k) l = firstn k l ++ [nth k l 0].
Proof. intros Hk. now apply firstn_succ_snoc. Qed.

Variables (target : list Z) (bn wn Bn : nat).
Hypothesis Hbn : (1 <= bn <= 62)%nat.
Hypothesis Hwn : (1 <= wn)%nat.
Hypothesis Hroom : (bn * wn <= 8 * Bn)%nat.
Hypothesis Hpad : (8 * Bn - bn * wn < 256)%nat.
Hypothesis Hskip : ((wn - 1) * bn < 256)%nat.
Hypothesis Hsym : Forall (fun x => 0 <= x < 2 ^ Z.of_nat bn) target.

(** The inner loop of [ReadBytes] stores the words it reads where they
    were taken from. *)
Lemma ReadBytes_inner_words (i : nat) (n : nat) : forall (j : nat) d rest,
  length d = length target ->
  firstn (i * wn + j) d = firstn (i * wn + j) target ->
  exists d',
    ReadBytes_inner (Z.of_nat bn) (Z.of_nat wn) (Z.of_nat i) n (Z.of_nat j) d
      {| rbits := flat_map (bitsMSB bn) (firstn n (skipn (i * wn + j) target)) ++ rest;
         TryError := false |}
    = (d', {| rbits := rest; TryError := false |}) /\
    length d' = length target /\
    firstn (i * wn + j + n) d' = firstn (i * wn + j + n) target.
Proof.
  induction n as [|n IH]; intros j d rest Hlen Hpre.
  - exists d. cbn [ReadBytes_inner firstn flat_map app]. rewrite Nat.add_0_r. auto.
  - cbn [ReadBytes_inner].
    replace (Z.of_nat i * Z.of_nat wn + Z.of_nat j) with (Z.of_nat (i * wn + j)) by lia.
    set (p := (i * wn + j)%nat) in *.
    replace (Z.of_nat j + 1) with (Z.of_nat (S j)) by lia.
    destruct (Z.of_nat p >=? len d) eqn:Ege.
    + rewrite Z.geb_leb in Ege. apply Z.leb_le in Ege. unfold len in Ege.
      rewrite skipn_all2 by lia. rewrite firstn_nil. cbn [flat_map app].
      destruct (IH (S j) d rest Hlen) as (d' & E & Hl & Hf).
      { rewrite !firstn_all2 by lia. rewrite !firstn_all2 in Hpre by lia. exact Hpre. }
      rewrite skipn_all2 in E by lia. rewrite firstn_nil in E. cbn [flat_map app] in E.
      exists d'. split; [exact E|]. split; [exact Hl|].
      rewrite !firstn_all2 by lia. rewrite !firstn_all2 in Hf by lia. exact Hf.
    + rewrite Z.geb_leb in Ege. apply Z.leb_gt in Ege. unfold len in Ege.
      assert (Hp : (p < length target)%nat) by lia.
      rewrite (skipn_cons_nth target p Hp). cbn [firstn flat_map].
      rewrite <- app_assoc.
      assert (Hx : 0 <= nth p target 0 < 2 ^ Z.of_nat bn).
      { rewrite Forall_forall in Hsym. apply Hsym. now apply nth_In. }
      replace (Z.of_nat bn mod 256) with (Z.of_nat bn) by (rewrite Z.mod_small; lia).
      rewrite TryReadBits_bitsMSB by (lia || exact Hx).
      destruct (IH (S j) (set_index d (Z.of_nat p) (nth p target 0)) rest)
        as (d' & E & Hl & Hf).
      { rewrite length_set_index; lia. }
      { replace (i * wn + S j)%nat with (S p) by lia.
        rewrite firstn_set_index by lia. rewrite Hpre.
        symmetry. now apply firstn_S_nth. }
      replace (i * wn + S j)%nat with (S p) in E by lia.
      exists d'. split; [exact E|]. split; [exact Hl|].
      replace (p + S n)%nat with (i * wn + S j + n)%nat by lia. exact Hf.
Qed.

(** The bits of one element: the digits of its group, after as many zero
    bits as the bytes of the element leave free. *)
Lemma element_bits (g : list Z) :
  Forall (fun x => 0 <= x < 2 ^ Z.of_nat bn) g -> (length g <= wn)%nat ->
  bytesToBits (bigEndianBytes Bn (digitsBE (2 ^ Z.of_nat bn) g))
  = repeat false (8 * Bn - bn * wn) ++ repeat false ((wn - length g) * bn)
    ++ flat_map (bitsMSB bn) g.
Proof.
  intros Hg Hlen. rewrite bytesToBits_bigEndianBytes.
  assert (Hm : (length g * bn <= wn * bn)%nat) by (apply Nat.mul_le_mono_r; lia).
  assert (Epad : (8 * Bn = (8 * Bn - bn * wn + (wn - length g) * bn) + length g * bn)%nat)
    by nia.
  rewrite Epad at 1.
  rewrite bitsMSB_zero_ext.
  - rewrite repeat_app, <- app_assoc. now rewrite bitsMSB_digitsBE by exact Hg.
  - pose proof (digitsBE_bound (2 ^ Z.of_nat bn) g) as Hb.
    rewrite <- Z.pow_mul_r in Hb by (try lia; apply len_nonneg).
    replace (Z.of_nat (length g * bn)) with (Z.of_nat bn * len g) by (unfold len; lia).
    apply Hb; [|exact Hg]. pose proof (Z.pow_pos_nonneg 2 (Z.of_nat bn)). lia.
Qed.

Variable nbElems : nat.
Hypothesis Hceil_lo : (length target <= nbElems * wn)%nat.
Hypothesis Hceil_hi : (0 < nbElems -> (nbElems - 1) * wn < length target)%nat.

Lemma ReadBytes_loop_elements (n : nat) : forall (i : nat) d rest,
  (i + n = nbElems)%nat ->
  length d = length target ->
  firstn (i * wn) d = firstn (i * wn) target ->
  exists d',
    ReadBytes_loop (Z.of_nat bn) (Z.of_nat wn) (Z.of_nat Bn) (Z.of_nat nbElems)
      n (Z.of_nat i) d
      {| rbits :=
           flat_map (fun k => bytesToBits
                        (bigEndianBytes Bn
                           (digitsBE (2 ^ Z.of_nat bn)
                              (group target (Z.of_nat wn) (Z.of_nat k)))))
             (seq i n) ++ rest;
         TryError := false |}
    = (d', {| rbits := rest; TryError := false |}) /\
    length d' = length target /\
    firstn ((i + n) * wn) d' = firstn ((i + n) * wn) target.
Proof.
  induction n as [|n IH]; intros i d rest Hin Hlen Hpre.
  - exists d. cbn [ReadBytes_loop seq flat_map app]. rewrite Nat.add_0_r. auto.
  - cbn [ReadBytes_loop seq flat_map]. rewrite <- app_assoc.
    set (later := flat_map _ (seq (S i) n) ++ rest).
    set (g := group target (Z.of_nat wn) (Z.of_nat i)).
    assert (Hg : g = firstn wn (skipn (i * wn) target)).
    { unfold g, group. f_equal; [lia|]. f_equal. lia. }
    assert (Hi : (i * wn < length target)%nat).
    { assert ((nbElems - 1) * wn < length target)%nat by (apply Hceil_hi; lia).
      assert (i * wn <= (nbElems - 1) * wn)%nat by (apply Nat.mul_le_mono_r; lia).
      lia. }
    assert (Hgl : length g = Nat.min wn (length target - i * wn)).
    { rewrite Hg, length_firstn, length_skipn. reflexivity. }
    rewrite element_bits; cycle 1.
    { rewrite Hg. now apply Forall_firstn_skipn. }
    { lia. }
    rewrite <- !app_assoc.
    (* the padding of the element *)
    replace ((8 * Z.of_nat Bn - Z.of_nat bn * Z.of_nat wn) mod 256)
      with (len (repeat false (8 * Bn - bn * wn))).
    2:{ unfold len. rewrite repeat_length. rewrite Z.mod_small; lia. }
    match goal with
    | |- context [TryReadBits {| rbits := ?p ++ ?x; TryError := false |} (len ?p)] =>
        pose proof (TryReadBits_skip p x) as Hs1;
        destruct (TryReadBits {| rbits := p ++ x; TryError := false |} (len p))
          as [v0 r1]
    end.
    cbn [snd] in Hs1. subst r1.
    (* the unused words of the last element *)
    assert (Hw2 : forall bits,
              (if Z.of_nat i + 1 =? Z.of_nat nbElems
               then snd (TryReadBits
                           {| rbits := repeat false ((wn - length g) * bn) ++ bits;
                              TryError := false |}
                           (((Z.of_nat wn - (len d - Z.of_nat i * Z.of_nat wn))
                             * Z.of_nat bn) mod 256))
               else {| rbits := repeat false ((wn - length g) * bn) ++ bits;
                       TryError := false |})
              = {| rbits := bits; TryError := false |}).
    { intros bits.
      destruct (Z.eqb_spec (Z.of_nat i + 1) (Z.of_nat nbElems)) as [Elast | Nlast].
      - assert (Hm : length g = (length target - i * wn)%nat).
        { assert (length target <= (i + 1) * wn)%nat.
          { replace (i + 1)%nat with nbElems by lia. exact Hceil_lo. }
          lia. }
        replace (((Z.of_nat wn - (len d - Z.of_nat i * Z.of_nat wn)) * Z.of_nat bn)
                 mod 256)
          with (len (repeat false ((wn - length g) * bn))).
        + apply TryReadBits_skip.
        + unfold len. rewrite repeat_length, Hlen, Hm.
          assert ((wn - (length target - i * wn)) * bn <= (wn - 1) * bn)%nat
            by (apply Nat.mul_le_mono_r; lia).
          rewrite Z.mod_small; nia.
      - assert (Hm : length g = wn).
        { assert ((i + 1) * wn <= (nbElems - 1) * wn)%nat
            by (apply Nat.mul_le_mono_r; lia).
          assert ((nbElems - 1) * wn < length target)%nat by (apply Hceil_hi; lia).
          lia. }
        rewrite Hm, Nat.sub_diag. reflexivity. }
    rewrite Hw2.
    destruct (ReadBytes_inner_words i wn 0 d later Hlen
                ltac:(now rewrite Nat.add_0_r))
      as (d1 & Ein & Hl1 & Hf1).
    rewrite Nat.add_0_r in Ein, Hf1. rewrite <- Hg in Ein.
    replace (Z.to_nat (Z.of_nat wn)) with wn by lia.
    change (Z.of_nat 0) with 0 in Ein. rewrite Ein.
    replace (Z.of_nat i + 1) with (Z.of_nat (S i)) by lia.
    destruct (IH (S i) d1 rest ltac:(lia) Hl1) as (d' & E & Hl & Hf).
    { replace (S i * wn)%nat with (i * wn + wn)%nat by lia. exact Hf1. }
    exists d'. split; [exact E|]. split; [exact Hl|].
    replace (i + S n)%nat with (S i + n)%nat by lia. exact Hf.
Qed.

End ReadBack.

Section FillRead.
Import Bitio Stream.

Lemma FillBytes_loop_blocks (d : list Z) (w radix : Z) (Bn : nat) (n : nat) :
  forall (i : nat) dst,
    0 <= w ->
    ((i + n) * Bn <= length dst)%nat ->
    (forall k : nat, 0 <= digitsBE radix (group d w (Z.of_nat k)) < 256 ^ Z.of_nat Bn) ->
    FillBytes_loop d w (Z.of_nat Bn) radix n (Z.of_nat i) dst
    = Ok (firstn (i * Bn) dst
          ++ flat_map (fun k => bigEndianBytes Bn (digitsBE radix (group d w (Z.of_nat k))))
               (seq i n)
          ++ skipn ((i + n) * Bn) dst).
Proof.
  induction n as [|n IH]; intros i dst Hw Hroom Hfit.
  - cbn [FillBytes_loop seq flat_map app]. rewrite Nat.add_0_r.
    now rewrite firstn_skipn.
  - cbn [FillBytes_loop seq flat_map].
    rewrite FillBytes_inner_digits by lia.
    rewrite Z.add_0_r. fold (digitsBE radix (firstn (Z.to_nat w)
                                (skipn (Z.to_nat (Z.of_nat i * w)) d))).
    fold (group d w (Z.of_nat i)).
    set (e := digitsBE radix (group d w (Z.of_nat i))).
    assert (He : 0 <= e < 256 ^ Z.of_nat Bn) by apply Hfit.
    rewrite slice_Ok by (unfold len; nia). cbn [bind].
    assert (Hblock : len (sub dst (Z.of_nat i * Z.of_nat Bn)
                            ((Z.of_nat i + 1) * Z.of_nat Bn)) = Z.of_nat Bn).
    { unfold len at 1. rewrite length_sub by (unfold len; nia). nia. }
    rewrite Hblock. unfold big_FillBytes. rewrite Z.abs_eq by lia.
    destruct (Z.ltb_spec e (256 ^ Z.of_nat Bn)) as [_|]; [|lia].
    cbn [bind]. rewrite Nat2Z.id.
    replace (Z.of_nat i + 1) with (Z.of_nat (S i)) by lia.
    rewrite IH; try assumption.
    + f_equal. unfold splice. rewrite length_bigEndianBytes.
      replace (Z.to_nat (Z.of_nat i * Z.of_nat Bn)) with (i * Bn)%nat by lia.
      assert (Hl1 : length (firstn (i * Bn) dst) = (i * Bn)%nat)
        by (rewrite length_firstn; nia).
      replace (S i * Bn)%nat with (i * Bn + Bn)%nat by lia.
      rewrite app_assoc.
      rewrite firstn_app, Hl1.
      rewrite (firstn_all2 (firstn (i * Bn) dst)) by lia.
      replace (i * Bn + Bn - i * Bn)%nat with Bn by lia.
      rewrite firstn_app, length_bigEndianBytes, Nat.sub_diag.
      rewrite (firstn_all2 (bigEndianBytes Bn e)) by (rewrite length_bigEndianBytes; lia).
      cbn [firstn]. rewrite app_nil_r. rewrite <- !app_assoc. f_equal. f_equal. f_equal.
      rewrite app_assoc.
      rewrite skipn_app.
      rewrite skipn_all2 by (rewrite length_app, Hl1, length_bigEndianBytes; nia).
      rewrite length_app, Hl1, length_bigEndianBytes. cbn [app].
      rewrite skipn_skipn. f_equal. nia.
    + unfold splice. rewrite !length_app, length_firstn, length_bigEndianBytes,
        length_skipn. nia.
Qed.

Lemma Uint32_PutUint32 (v : Z) : 0 <= v < 2 ^ 32 -> Uint32 (PutUint32 v) = v.
Proof.
  intros Hv. unfold Uint32, PutUint32. cbn [fold_left].
  pose proof (Z.div_mod v 256 ltac:(lia)).
  pose proof (Z.div_mod (v / 2 ^ 8) 256 ltac:(lia)).
  pose proof (Z.div_mod (v / 2 ^ 16) 256 ltac:(lia)).
  assert (v / 2 ^ 16 = v / 2 ^ 8 / 256) by (rewrite Z.div_div by lia; reflexivity).
  assert (v / 2 ^ 24 = v / 2 ^ 16 / 256) by (rewrite Z.div_div by lia; reflexivity).
  assert (0 <= v / 2 ^ 24 < 256).
  { split; [apply Z.div_pos; lia|]. apply Z.div_lt_upper_bound; lia. }
  rewrite (Z.mod_small (v / 2 ^ 24)) by lia.
  change (2 ^ 8) with 256 in *. lia.
Qed.

Lemma len_resize (d : list Z) (n : Z) : 0 <= n -> len (resize d n) = n.
Proof.
  intros Hn. unfold resize, len.
  destruct (Z.ltb_spec (Z.of_nat (length d)) n).
  - rewrite length_firstn, repeat_length. lia.
  - rewrite length_firstn. lia.
Qed.

Lemma ceil_bounds (L w : Z) :
  0 <= L -> 1 <= w ->
  let q := Z.quot (L + w - 1) w in
  0 <= q /\ L <= q * w /\ (0 < q -> (q - 1) * w < L).
Proof.
  intros HL Hw q. subst q. rewrite Z.quot_div_nonneg by lia.
  pose proof (Z.div_mod (L + w - 1) w ltac:(lia)) as Hdm.
  pose proof (Z.mod_pos_bound (L + w - 1) w ltac:(lia)) as Hm.
  assert (0 <= (L + w - 1) / w) by (apply Z.div_pos; lia).
  repeat split; try nia.
Qed.

End FillRead.

Section FillReadTheorem.
Import Bitio Stream.

Lemma bytesToBits_flat_map {A} (f : A -> list Z) (l : list A) :
  bytesToBits (flat_map f l) = flat_map (fun k => bytesToBits (f k)) l.
Proof.
  induction l as [|a l IH]; [reflexivity|].
  cbn [flat_map]. now rewrite bytesToBits_app, IH.
Qed.

Lemma length_flat_map_const {A B} (f : A -> list B) (k : nat) (l : list A) :
  (forall x, length (f x) = k) -> length (flat_map f l) = (length l * k)%nat.
Proof.
  intros Hf. induction l as [|a l IH]; [reflexivity|].
  cbn [flat_map length]. rewrite length_app, Hf, IH. lia.
Qed.

(** X9.  For an alphabet of [2^b] symbols, [1 <= b <= 62], elements of
    [nbBits] bits with [b < nbBits <= 256], fewer than [2^32] symbols, all
    in range, and a [dst] of at least [4 + nbElems * bytesPerElem] bytes:
    [FillBytes] writes the number of symbols, big-endian, in four bytes,
    then every element, big-endian, in [bytesPerElem] bytes, the first
    symbol of its group as the most significant digit, and leaves the rest
    of [dst] as it was; and [ReadBytes] of the result, into any stream over
    the same alphabet, gives the stream back. *)
Theorem FillBytes_ReadBytes_round_trip (s s0 : Stream) (dst : list Z) (nbBits b : Z) :
  1 <= b <= 62 -> NbSymbs s = 2 ^ b -> NbSymbs s0 = 2 ^ b ->
  b < nbBits <= 256 ->
  Forall (fun x => 0 <= x < 2 ^ b) (D s) ->
  len (D s) < 2 ^ 32 ->
  4 + (len (D s) + (nbBits - 1) / b - 1) / ((nbBits - 1) / b) * ((nbBits + 7) / 8)
    <= len dst ->
  let w := (nbBits - 1) / b in
  let B := (nbBits + 7) / 8 in
  let nbElems := (len (D s) + w - 1) / w in
  exists out,
    FillBytes s dst nbBits = Ok out /\
    out = PutUint32 (len (D s))
          ++ flat_map (fun i => bigEndianBytes (Z.to_nat B)
                                  (digitsBE (2 ^ b) (group (D s) w (Z.of_nat i))))
               (seq 0 (Z.to_nat nbElems))
          ++ skipn (Z.to_nat (4 + nbElems * B)) dst /\
    len out = len dst /\
    ReadBytes s0 out nbBits = Ok s.
Proof.
  intros Hb Hs Hs0 Hbits Hsym Hlen Hroom. cbn zeta.
  pose proof (len_nonneg (D s)) as HL0.
  set (w := (nbBits - 1) / b) in *.
  set (B := (nbBits + 7) / 8) in *.
  assert (Hw : 1 <= w).
  { unfold w. apply Z.div_le_lower_bound; lia. }
  assert (Hbw : b * w <= nbBits - 1).
  { unfold w. apply Z.mul_div_le. lia. }
  assert (Hbw' : nbBits - 1 < b * w + b).
  { unfold w. pose proof (Z.mul_succ_div_gt (nbBits - 1) b ltac:(lia)). lia. }
  assert (HB : nbBits <= 8 * B <= nbBits + 7).
  { unfold B. pose proof (Z.mul_div_le (nbBits + 7) 8 ltac:(lia)).
    pose proof (Z.mul_succ_div_gt (nbBits + 7) 8 ltac:(lia)). lia. }
  destruct (ceil_bounds (len (D s)) w HL0 Hw) as (Hq0 & Hqlo & Hqhi).
  rewrite Z.quot_div_nonneg in Hq0, Hqlo, Hqhi by lia.
  set (q := (len (D s) + w - 1) / w) in *.
  (* the numbers as naturals *)
  set (bn := Z.to_nat b). set (wn := Z.to_nat w). set (Bn := Z.to_nat B).
  set (qn := Z.to_nat q).
  assert (Eb : b = Z.of_nat bn) by (unfold bn; lia).
  assert (Ew : w = Z.of_nat wn) by (unfold wn; lia).
  assert (EB : B = Z.of_nat Bn) by (unfold Bn; lia).
  assert (Eq : q = Z.of_nat qn) by (unfold qn; lia).
  assert (Hfit : forall k : nat,
            0 <= digitsBE (2 ^ b) (group (D s) w (Z.of_nat k)) < 256 ^ Z.of_nat Bn).
  { intros k.
    assert (Hg : Forall (fun x => 0 <= x < 2 ^ b) (group (D s) w (Z.of_nat k)))
      by (apply Forall_firstn_skipn; exact Hsym).
    assert (Hpow : 1 <= 2 ^ b) by (pose proof (Z.pow_pos_nonneg 2 b); lia).
    pose proof (digitsBE_bound (2 ^ b) _ Hpow Hg) as Hd.
    split; [lia|]. eapply Z.lt_le_trans; [apply Hd|].
    rewrite <- Z.pow_mul_r by (try lia; apply len_nonneg).
    change 256 with (2 ^ 8). rewrite <- Z.pow_mul_r by lia.
    apply Z.pow_le_mono_r; [lia|].
    assert (len (group (D s) w (Z.of_nat k)) <= w).
    { unfold group, len. rewrite length_firstn. lia. }
    pose proof (len_nonneg (group (D s) w (Z.of_nat k))). nia. }
  (* FillBytes *)
  assert (Hdst : (4 + qn * Bn <= length dst)%nat) by (unfold len in Hroom; nia).
  assert (Efill : FillBytes s dst nbBits
                  = Ok (PutUint32 (len (D s))
                        ++ flat_map (fun k => bigEndianBytes Bn
                                       (digitsBE (2 ^ b) (group (D s) w (Z.of_nat k))))
                             (seq 0 qn)
                        ++ skipn (qn * Bn) (skipn 4 dst))).
  { unfold FillBytes. rewrite Hs, bitLen_pow2 by lia. cbn [bind].
    destruct (b >=? nbBits) eqn:E1; [rewrite Z.geb_leb in E1; apply Z.leb_le in E1; lia|].
    destruct (Z.eqb_spec b 0); [lia|].
    rewrite (Z.quot_div_nonneg (nbBits - 1) b), (Z.quot_div_nonneg (nbBits + 7) 8) by lia.
    fold w B. rewrite !Z.quot_div_nonneg by lia. fold q.
    destruct (Z.ltb_spec (len dst) ((len (D s) * b + 7) / 8 + 4)) as [Hshort | _].
    { exfalso.
      assert (len (D s) * b <= q * (w * b)) by nia.
      assert (q * (w * b) <= q * (8 * B)) by nia.
      assert ((len (D s) * b + 7) / 8 < q * B + 1).
      { apply Z.div_lt_upper_bound; lia. }
      lia. }
    rewrite Z.shiftl_1_l. rewrite EB.
    assert (Hw0 : 0 <= w) by lia.
    pose proof (FillBytes_loop_blocks (D s) w (2 ^ b) Bn qn 0 (skipn 4 dst) Hw0)
      as Hloop.
    cbn [Nat.add Z.of_nat] in Hloop. fold qn.
    rewrite Hloop; [| rewrite length_skipn; lia | exact Hfit].
    cbn [bind Nat.mul firstn app]. rewrite Z.mod_small by lia. reflexivity. }
  eexists. split; [exact Efill|].
  split.
  { unfold qn, Bn. rewrite skipn_skipn. do 3 f_equal. lia. }
  set (blocks := flat_map (fun k => bigEndianBytes Bn
                             (digitsBE (2 ^ b) (group (D s) w (Z.of_nat k)))) (seq 0 qn)).
  set (tail := skipn (qn * Bn) (skipn 4 dst)).
  assert (Hblocks : length blocks = (qn * Bn)%nat).
  { unfold blocks. rewrite (length_flat_map_const _ Bn), length_seq; [reflexivity|].
    intros k. apply length_bigEndianBytes. }
  assert (Hout : len (PutUint32 (len (D s)) ++ blocks ++ tail) = len dst).
  { unfold len. rewrite !length_app, Hblocks. unfold tail.
    rewrite !length_skipn. cbn [PutUint32 length]. lia. }
  split; [exact Hout|].
  (* ReadBytes *)
  unfold ReadBytes. rewrite Hs0, bitLen_pow2 by lia. cbn [bind].
  destruct (b >=? nbBits) eqn:E1; [rewrite Z.geb_leb in E1; apply Z.leb_le in E1; lia|].
  rewrite shl1_pow by lia. rewrite Z.eqb_refl. cbn [negb].
  rewrite slice_Ok by (rewrite ?Hout; unfold len in *; cbn [PutUint32 length app]; lia).
  cbn [bind].
  rewrite slice_Ok by (rewrite ?Hout; unfold len in *; lia). cbn [bind].
  replace (sub (PutUint32 (len (D s)) ++ blocks ++ tail) 0 4)
    with (PutUint32 (len (D s))) by reflexivity.
  rewrite Uint32_PutUint32 by lia.
  replace (sub (PutUint32 (len (D s)) ++ blocks ++ tail) 4
             (len (PutUint32 (len (D s)) ++ blocks ++ tail)))
    with (blocks ++ tail).
  2:{ rewrite Hout. unfold sub.
      change (skipn (Z.to_nat 4) (PutUint32 (len (D s)) ++ blocks ++ tail))
        with (blocks ++ tail).
      rewrite firstn_all2; [reflexivity|].
      unfold len. rewrite length_app, Hblocks. unfold tail. rewrite !length_skipn. lia. }
  destruct (Z.eqb_spec b 0); [lia|].
  rewrite len_resize by lia.
  rewrite (Z.quot_div_nonneg (nbBits - 1) b), (Z.quot_div_nonneg (nbBits + 7) 8) by lia.
  fold w B. rewrite Z.quot_div_nonneg by lia. fold q.
  destruct (Z.ltb_spec (len (blocks ++ tail)) (q * B)) as [Hshort | _].
  { exfalso. rewrite len_app in Hshort. unfold len in Hshort. rewrite Hblocks in Hshort.
    pose proof (len_nonneg tail). unfold len in *. nia. }
  unfold NewReader. rewrite bytesToBits_app. unfold blocks.
  rewrite bytesToBits_flat_map.
  assert (Hsym' : Forall (fun x => 0 <= x < 2 ^ Z.of_nat bn) (D s))
    by (rewrite <- Eb; exact Hsym).
  assert (C1 : (1 <= bn <= 62)%nat) by lia.
  assert (C2 : (1 <= wn)%nat) by lia.
  assert (C3 : (bn * wn <= 8 * Bn)%nat) by nia.
  assert (C4 : (8 * Bn - bn * wn < 256)%nat) by nia.
  assert (C5 : ((wn - 1) * bn < 256)%nat) by nia.
  assert (C6 : (length (D s) <= qn * wn)%nat) by (unfold len in *; nia).
  assert (C7 : (0 < qn -> (qn - 1) * wn < length (D s))%nat).
  { intros Hpos. assert (0 < q) by lia. specialize (Hqhi ltac:(lia)).
    unfold len in *. nia. }
  destruct (ReadBytes_loop_elements (D s) bn wn Bn C1 C2 C3 C4 C5 Hsym' qn C6 C7
              qn 0%nat (resize (D s0) (len (D s))) (bytesToBits tail)
              eq_refl)
    as (d' & Eloop & Hl & Hf).
  { apply Nat2Z.inj. exact (len_resize (D s0) (len (D s)) HL0). }
  { reflexivity. }
  rewrite <- Eb, <- Ew, <- EB, <- Eq in Eloop. cbn [Z.of_nat] in Eloop.
  fold qn. rewrite Eloop. cbn [TryError].
  f_equal. destruct s as [ds ns]. cbn [D NbSymbs] in *. f_equal; [|congruence].
  cbn [Nat.add] in Hf.
  rewrite !firstn_all2 in Hf by (unfold len in *; nia). exact Hf.
Qed.

End FillReadTheorem.

(** ** Checksum *)

Section ChecksumFacts.
Import Bitio Stream.

Lemma app_inv_length {A} (a : list A) : forall a' b b',
  length a = length a' -> a ++ b = a' ++ b' -> a = a' /\ b = b'.
Proof.
  induction a as [|x a IH]; intros [|x' a'] b b' Hl E; cbn in Hl; try discriminate.
  - auto.
  - cbn [app] in E. injection E as -> E. apply IH in E; [|lia].
    destruct E as [-> ->]. auto.
Qed.

Lemma bigEndianBytes_inj (n : nat) (v v' : Z) :
  0 <= v < 256 ^ Z.of_nat n -> 0 <= v' < 256 ^ Z.of_nat n ->
  bigEndianBytes n v = bigEndianBytes n v' -> v = v'.
Proof.
  intros Hv Hv' E.
  assert (Eb : bitsMSB (8 * n) v = bitsMSB (8 * n) v')
    by (rewrite <- !bytesToBits_bigEndianBytes; now rewrite E).
  assert (Ev : valueMSB 0 (bitsMSB (8 * n) v) = valueMSB 0 (bitsMSB (8 * n) v'))
    by (now rewrite Eb).
  rewrite !valueMSB_bitsMSB in Ev.
  replace (2 ^ Z.of_nat (8 * n)) with (256 ^ Z.of_nat n) in Ev.
  2:{ change 256 with (2 ^ 8). rewrite <- Z.pow_mul_r by lia. f_equal. lia. }
  rewrite !Z.mod_small in Ev by lia. lia.
Qed.

Lemma chunks_inj (n : nat) (l1 : list Z) : forall l2,
  Forall (fun e => 0 <= e < 256 ^ Z.of_nat n) l1 ->
  Forall (fun e => 0 <= e < 256 ^ Z.of_nat n) l2 ->
  length l1 = length l2 ->
  flat_map (bigEndianBytes n) l1 = flat_map (bigEndianBytes n) l2 -> l1 = l2.
Proof.
  induction l1 as [|x l1 IH]; intros [|y l2] H1 H2 Hl E; cbn in Hl; try discriminate.
  - reflexivity.
  - inversion H1; inversion H2; subst. cbn [flat_map] in E.
    apply app_inv_length in E; [|now rewrite !length_bigEndianBytes].
    destruct E as [Ex El]. apply bigEndianBytes_inj in Ex; try assumption.
    subst y. f_equal. apply IH; auto.
Qed.

Lemma digitsLE_inj (R : Z) (g : list Z) : forall g',
  1 <= R ->
  Forall (fun x => 0 <= x < R) g -> Forall (fun x => 0 <= x < R) g' ->
  length g = length g' -> digitsLE R g = digitsLE R g' -> g = g'.
Proof.
  induction g as [|x g IH]; intros [|x' g'] HR H1 H2 Hl E; cbn in Hl; try discriminate.
  - reflexivity.
  - inversion H1; inversion H2; subst.
    change (x + R * digitsLE R g = x' + R * digitsLE R g') in E.
    assert (digitsLE R g = digitsLE R g') by nia.
    assert (x = x') by nia. subst x'. f_equal. apply IH; auto.
Qed.

Lemma Checksum_loop_written (Fb : Z) (packed : list Z) : forall hsh w,
  Forall (fun e => 0 <= e) packed ->
  Checksum_loop packed Fb hsh = Ok w ->
  w = hsh ++ flat_map (bigEndianBytes (Z.to_nat Fb)) packed /\
  Forall (fun e => 0 <= e < 256 ^ Fb) packed.
Proof.
  induction packed as [|e packed IH]; intros hsh w Hpos E; cbn [Checksum_loop] in E.
  - injection E as <-. cbn. rewrite app_nil_r. auto.
  - inversion Hpos; subst. unfold big_FillBytes in E. rewrite Z.abs_eq in E by lia.
    destruct (Z.ltb_spec e (256 ^ Fb)); [|discriminate]. cbn [bind] in E.
    apply IH in E; [|assumption]. destruct E as [-> Hall].
    cbn [flat_map]. rewrite <- app_assoc. split; [reflexivity|].
    constructor; [lia | exact Hall].
Qed.

(** The groups of a stream determine it. *)
Lemma groups_determine (w : nat) (d1 d2 : list Z) (n : nat) :
  (1 <= w)%nat -> length d1 = length d2 -> (length d1 <= n * w)%nat ->
  (forall i : nat, (i < n)%nat ->
     group d1 (Z.of_nat w) (Z.of_nat i) = group d2 (Z.of_nat w) (Z.of_nat i)) ->
  d1 = d2.
Proof.
  intros Hw Hl Hn Hg.
  assert (Hk : forall k : nat, (k <= n)%nat -> firstn (k * w) d1 = firstn (k * w) d2).
  { induction k as [|k IH]; intros Hle; [reflexivity|].
    replace (S k * w)%nat with (k * w + w)%nat by lia.
    rewrite <- !prefix_sub. rewrite IH by lia. f_equal.
    specialize (Hg k ltac:(lia)). unfold group in Hg.
    rewrite Nat2Z.id in Hg.
    replace (Z.to_nat (Z.of_nat k * Z.of_nat w)) with (k * w)%nat in Hg by lia.
    exact Hg. }
  specialize (Hk n ltac:(lia)).
  rewrite !firstn_all2 in Hk by lia. exact Hk.
Qed.

(** X10.  [Checksum] returns the digest of what the hash held before,
    followed by what [Checksum] writes to it; and what it writes determines
    the stream: two streams over the same alphabet, with symbols in range,
    for which the hash has been given the same bytes have the same
    symbols. *)
Theorem Checksum_binds_stream (hash_Sum : list Z -> list Z) (s1 s2 : Stream)
        (hsh : list Z) (fieldBits : Z) (d1 w1 d2 w2 : list Z) :
  1 <= fieldBits ->
  NbSymbs s1 = NbSymbs s2 ->
  Forall (fun x => 0 <= x < NbSymbs s1) (D s1) ->
  Forall (fun x => 0 <= x < NbSymbs s2) (D s2) ->
  Checksum hash_Sum s1 hsh fieldBits = Ok (d1, w1) ->
  Checksum hash_Sum s2 hsh fieldBits = Ok (d2, w2) ->
  d1 = hash_Sum w1 /\ d2 = hash_Sum w2 /\
  firstn (length hsh) w1 = hsh /\ firstn (length hsh) w2 = hsh /\
  (w1 = w2 -> D s1 = D s2).
Proof.
  intros Hbits HN Hr1 Hr2 E1 E2.
  assert (Hshape : forall s d w,
    Forall (fun x => 0 <= x < NbSymbs s) (D s) ->
    Checksum hash_Sum s hsh fieldBits = Ok (d, w) ->
    exists b wpe n,
      bitLen (NbSymbs s) = Ok b /\ 1 <= b <= 62 /\ NbSymbs s <= 2 ^ b /\
      wpe = Z.to_nat (Z.quot (fieldBits - 1) b) /\ (1 <= wpe)%nat /\
      (length (D s) <= n * wpe)%nat /\
      d = hash_Sum w /\
      len (D s) < 256 ^ Z.quot (fieldBits + 7) 8 /\
      w = hsh
          ++ flat_map (bigEndianBytes (Z.to_nat (Z.quot (fieldBits + 7) 8)))
               (map (fun i => digitsLE (2 ^ b) (group (D s) (Z.of_nat wpe) (Z.of_nat i)))
                  (seq 0 n))
          ++ bigEndianBytes (Z.to_nat (Z.quot (fieldBits + 7) 8)) (len (D s)) /\
      Forall (fun e => 0 <= e < 256 ^ Z.quot (fieldBits + 7) 8)
        (map (fun i => digitsLE (2 ^ b) (group (D s) (Z.of_nat wpe) (Z.of_nat i)))
           (seq 0 n))).
  { intros s d w Hr E. unfold Checksum, Pack in E.
    destruct (bitLen (NbSymbs s)) as [b| | |] eqn:Eb; cbn [bind] in E; try discriminate.
    pose proof (bitLen_Ok _ _ Eb) as (Hb & Hle & _).
    destruct (Z.eqb_spec b 0) as [|Hb0]; [discriminate|].
    set (wz := Z.quot (fieldBits - 1) b) in *.
    destruct (Z.eqb_spec wz 0) as [|Hw0]; [discriminate|].
    assert (Hwz : 1 <= wz).
    { assert (0 <= wz) by (apply Z.quot_pos; lia). lia. }
    destruct (Z.ltb_spec (Z.quot (len (D s) + wz - 1) wz) 0); [discriminate|].
    cbn [bind] in E.
    set (Fb := Z.quot (fieldBits + 7) 8) in *.
    destruct (Z.ltb_spec Fb 0); [discriminate|].
    set (n := Z.to_nat (Z.quot (len (D s) + wz - 1) wz)) in *.
    assert (Epacked : map (fun i => Pack_inner (D s) (Z.of_nat i) wz (Z.shiftl 1 b)
                                      (Z.to_nat wz) 0) (seq 0 n)
                      = map (fun i => digitsLE (2 ^ b)
                                        (group (D s) (Z.of_nat (Z.to_nat wz)) (Z.of_nat i)))
                          (seq 0 n)).
    { apply map_ext. intros i. rewrite Pack_inner_digits by lia. cbn zeta.
      rewrite Z.mul_0_l, Z.add_0_l, Z.shiftl_1_l, Z2Nat.id by lia. reflexivity. }
    rewrite Epacked in E. clear Epacked.
    bind_inv E. rename a into w0. unfold big_FillBytes, Len in E.
    pose proof (len_nonneg (D s)) as HL0.
    rewrite Z.abs_eq in E by lia.
    destruct (Z.ltb_spec (len (D s)) (256 ^ Fb)); [|discriminate].
    cbn [bind] in E. injection E as <- <-.
    assert (Hpow : 1 <= 2 ^ b) by (pose proof (Z.pow_pos_nonneg 2 b); lia).
    apply Checksum_loop_written in E0.
    2:{ apply Forall_forall. intros e He. apply in_map_iff in He.
        destruct He as (i & <- & _).
        apply (digitsLE_bound (2 ^ b)); [lia|].
        apply Forall_firstn_skipn. eapply Forall_impl; [|exact Hr].
        cbn beta. intros x Hx. lia. }
    destruct E0 as [-> Hfit].
    exists b, (Z.to_nat wz), n.
    destruct (ceil_bounds (len (D s)) wz HL0 Hwz) as (Hq0 & Hqlo & _).
    repeat split; try lia; try assumption.
    - unfold n, len in *. nia.
    - now rewrite <- app_assoc. }
  destruct (Hshape s1 d1 w1 Hr1 E1)
    as (b1 & wpe1 & n1 & Eb1 & Hb1 & Hle1 & Ew1 & Hw1 & Hn1 & -> & HL1 & -> & Hf1).
  destruct (Hshape s2 d2 w2 Hr2 E2)
    as (b2 & wpe2 & n2 & Eb2 & Hb2 & Hle2 & Ew2 & Hw2 & Hn2 & -> & HL2 & -> & Hf2).
  rewrite <- HN in Eb2. rewrite Eb1 in Eb2. injection Eb2 as <-.
  subst wpe2. rewrite <- Ew1 in *. clear Ew1.
  split; [reflexivity|]. split; [reflexivity|].
  split; [rewrite firstn_app, Nat.sub_diag, firstn_all; apply app_nil_r|].
  split; [rewrite firstn_app, Nat.sub_diag, firstn_all; apply app_nil_r|].
  intros E. apply app_inv_head in E.
  set (Fb := Z.quot (fieldBits + 7) 8) in *.
  assert (HFb : 1 <= Fb).
  { unfold Fb. rewrite Z.quot_div_nonneg by lia.
    apply Z.div_le_lower_bound; lia. }
  (* the same number of chunks, then the same length and the same chunks *)
  assert (Hlen : forall l, length (flat_map (bigEndianBytes (Z.to_nat Fb)) l)
                           = (length l * Z.to_nat Fb)%nat).
  { intros l. apply length_flat_map_const. intros x. apply length_bigEndianBytes. }
  assert (Hcount : n1 = n2).
  { assert (El : length (flat_map (bigEndianBytes (Z.to_nat Fb))
                   (map (fun i => digitsLE (2 ^ b1) (group (D s1) (Z.of_nat wpe1) (Z.of_nat i)))
                      (seq 0 n1)) ++ bigEndianBytes (Z.to_nat Fb) (len (D s1)))
                 = length (flat_map (bigEndianBytes (Z.to_nat Fb))
                   (map (fun i => digitsLE (2 ^ b1) (group (D s2) (Z.of_nat wpe1) (Z.of_nat i)))
                      (seq 0 n2)) ++ bigEndianBytes (Z.to_nat Fb) (len (D s2))))
      by (now rewrite E).
    rewrite !length_app, !Hlen, !length_map, !length_seq, !length_bigEndianBytes in El.
    nia. }
  subst n2.
  apply app_inv_length in E.
  2:{ now rewrite !Hlen, !length_map, !length_seq. }
  destruct E as [Echunks Elen].
  rewrite <- (Z2Nat.id Fb) in HL1, HL2, Hf1, Hf2 by lia.
  apply bigEndianBytes_inj in Elen; [|pose proof (len_nonneg (D s1)); lia
                                     |pose proof (len_nonneg (D s2)); lia].
  apply chunks_inj in Echunks; try assumption;
    [|now rewrite !length_map, !length_seq].
  assert (Hl : length (D s1) = length (D s2)) by (unfold len in Elen; lia).
  apply (groups_determine wpe1 (D s1) (D s2) n1 Hw1 Hl Hn1).
  intros i Hi.
  assert (Ei : nth i (map (fun i => digitsLE (2 ^ b1)
                             (group (D s1) (Z.of_nat wpe1) (Z.of_nat i))) (seq 0 n1)) 0
               = nth i (map (fun i => digitsLE (2 ^ b1)
                             (group (D s2) (Z.of_nat wpe1) (Z.of_nat i))) (seq 0 n1)) 0)
    by (now rewrite Echunks).
  rewrite !nth_map_seq in Ei by exact Hi. cbn [Nat.add] in Ei.
  assert (Hpow : 1 <= 2 ^ b1) by (pose proof (Z.pow_pos_nonneg 2 b1); lia).
  apply (digitsLE_inj (2 ^ b1)); try assumption.
  - apply Forall_firstn_skipn. eapply Forall_impl; [|exact Hr1].
    cbn beta. intros x Hx. lia.
  - apply Forall_firstn_skipn. eapply Forall_impl; [|exact Hr2].
    cbn beta. intros x Hx. lia.
  - unfold group. rewrite !length_firstn, !length_skipn. lia.
Qed.

End ChecksumFacts.

(** ** ToBytes, then NewStream *)

Section ToBytesFacts.
Import Bitio Stream.

(** [Close] pads with zero bits, up to the next whole byte. *)
Lemma bytesToBits_bitsToBytes_aux_zeros (n : nat) : forall bs,
  (length bs <= n)%nat ->
  exists k : nat, (k < 8)%nat /\
    bytesToBits (bitsToBytes_aux n bs) = bs ++ repeat false k.
Proof.
  induction n as [|n IH]; intros bs Hn.
  - destruct bs; [|cbn in Hn; lia]. exists 0%nat. split; [lia | reflexivity].
  - destruct bs as [|b0 bs0].
    { exists 0%nat. split; [lia | reflexivity]. }
    change (bitsToBytes_aux (S n) (b0 :: bs0))
      with (valueMSB 0 (firstn 8 ((b0 :: bs0) ++ repeat false 7))
              :: bitsToBytes_aux n (skipn 8 (b0 :: bs0))).
    assert (Hne : (0 < length (b0 :: bs0))%nat) by (cbn; lia).
    revert Hn Hne. generalize (b0 :: bs0). intros bs Hn Hne.
    set (chunk := firstn 8 (bs ++ repeat false 7)).
    assert (Hchunk : length chunk = 8%nat).
    { unfold chunk. rewrite length_firstn, length_app, repeat_length. lia. }
    unfold bytesToBits. cbn [flat_map].
    fold (bytesToBits (bitsToBytes_aux n (skipn 8 bs))).
    pose proof (bitsMSB_valueMSB chunk) as Hc. rewrite Hchunk in Hc.
    rewrite Hc. clear Hc.
    destruct (Nat.le_gt_cases 8 (length bs)) as [Hge | Hlt].
    + destruct (IH (skipn 8 bs)) as (k & Hk & Epad).
      { rewrite length_skipn. lia. }
      exists k. split; [exact Hk|]. rewrite Epad.
      unfold chunk. rewrite firstn_app.
      replace (8 - length bs)%nat with 0%nat by lia.
      rewrite firstn_O, app_nil_r, app_assoc, firstn_skipn. reflexivity.
    + exists (8 - length bs)%nat. split; [lia|].
      rewrite skipn_all2 by lia. rewrite bitsToBytes_aux_nil.
      change (bytesToBits []) with (@nil bool). rewrite app_nil_r.
      unfold chunk. rewrite firstn_app, firstn_all2 by lia. f_equal.
      apply firstn_repeat_le. lia.
Qed.

Lemma fold_TryWriteBits (bn : nat) (ds : list Z) : forall w,
  (bn <= 62)%nat -> Forall (fun x => 0 <= x < 2 ^ Z.of_nat bn) ds ->
  fold_left (fun w v => TryWriteBits w (v mod 2 ^ 64) (Z.of_nat bn mod 256)) ds w
  = w ++ flat_map (bitsMSB bn) ds.
Proof.
  induction ds as [|x ds IH]; intros w Hbn Hds; cbn [fold_left flat_map].
  - now rewrite app_nil_r.
  - inversion Hds as [|? ? Hx Hds']; subst.
    rewrite IH by assumption. unfold TryWriteBits.
    assert (2 ^ Z.of_nat bn <= 2 ^ 62) by (apply Z.pow_le_mono_r; lia).
    rewrite (Z.mod_small (Z.of_nat bn)), (Z.mod_small x) by lia.
    rewrite Nat2Z.id. now rewrite <- app_assoc.
Qed.

Lemma NewStream_loop_symbols (bn : nat) (ds : list Z) : forall rest e,
  (1 <= bn <= 62)%nat -> Forall (fun x => 0 <= x < 2 ^ Z.of_nat bn) ds ->
  NewStream_loop (length ds)
    {| rbits := flat_map (bitsMSB bn) ds ++ rest; TryError := e |} (Z.of_nat bn)
  = Ok ds.
Proof.
  induction ds as [|x ds IH]; intros rest e Hbn Hds; [reflexivity|].
  inversion Hds as [|? ? Hx Hds']; subst.
  cbn [length NewStream_loop flat_map]. unfold ReadBits. cbn [rbits TryError].
  rewrite <- app_assoc.
  destruct (Z.ltb_spec (len (bitsMSB bn x ++ flat_map (bitsMSB bn) ds ++ rest))
              (Z.of_nat bn)) as [Hshort | _].
  { rewrite len_app in Hshort. unfold len in Hshort. rewrite length_bitsMSB in Hshort.
    lia. }
  cbn [bind]. rewrite Nat2Z.id.
  rewrite firstn_app, length_bitsMSB, Nat.sub_diag, firstn_all2
    by (rewrite length_bitsMSB; lia).
  cbn [firstn]. rewrite app_nil_r.
  rewrite skipn_app, length_bitsMSB, Nat.sub_diag, skipn_all2
    by (rewrite length_bitsMSB; lia).
  cbn [skipn app]. rewrite IH by assumption. cbn [bind].
  rewrite valueMSB_bitsMSB, Z.mul_0_l, Z.add_0_l.
  assert (2 ^ Z.of_nat bn <= 2 ^ 62) by (apply Z.pow_le_mono_r; lia).
  rewrite (Z.mod_small x) by lia. rewrite (Z.mod_small x) by lia.
  unfold int_of_uint64. destruct (Z.ltb_spec x (2 ^ 63)); [reflexivity | lia].
Qed.

(** X11.  [ToBytes] of a stream over [2^b] symbols, [1 <= b <= 62], all in
    range, returns [(len * b + 7) / 8] bytes, and [NewStream] of these
    bytes gives the symbols back, followed by as many zero symbols as fit
    in the padding of the last byte. *)
Theorem ToBytes_NewStream (s : Stream) (b : Z) :
  1 <= b <= 62 -> NbSymbs s = 2 ^ b ->
  Forall (fun x => 0 <= x < 2 ^ b) (D s) ->
  exists bytes extra,
    ToBytes s = Ok bytes /\
    len bytes = (Len s * b + 7) / 8 /\
    Z.of_nat extra = (8 * len bytes - Len s * b) / b /\
    NewStream bytes b = Ok {| D := D s ++ repeat 0 extra; NbSymbs := NbSymbs s |}.
Proof.
  intros Hb HN Hsym. unfold ToBytes, Len. rewrite HN, bitLen_pow2 by lia.
  cbn [bind].
  set (bn := Z.to_nat b).
  assert (Eb : b = Z.of_nat bn) by (unfold bn; lia).
  rewrite Eb in Hsym |- *.
  rewrite fold_TryWriteBits by (lia || exact Hsym).
  unfold NewWriter. cbn [app].
  set (w := flat_map (bitsMSB bn) (D s)).
  assert (Hw : length w = (length (D s) * bn)%nat).
  { unfold w. apply length_flat_map_const. intros x. apply length_bitsMSB. }
  destruct (bytesToBits_bitsToBytes_aux_zeros (length w) w (le_n _)) as (k & Hk & Epad).
  fold (bitsToBytes w) in Epad. fold (Close w) in Epad.
  pose proof (length_bytesToBits (Close w)) as Hbytes.
  rewrite Epad, length_app, repeat_length, Hw in Hbytes.
  assert (Hlen : len (Close w) = (len (D s) * Z.of_nat bn + 7) / 8).
  { unfold len. apply Z.div_unique with (r := 7 - Z.of_nat k); lia. }
  set (extra := (k / bn)%nat).
  assert (Hextra : Z.of_nat extra = (8 * len (Close w) - len (D s) * Z.of_nat bn)
                                    / Z.of_nat bn).
  { unfold extra. rewrite Nat2Z.inj_div. f_equal. unfold len. lia. }
  exists (Close w), extra. split; [reflexivity|]. split; [exact Hlen|].
  split; [exact Hextra|].
  unfold NewStream. destruct (Z.eqb_spec (Z.of_nat bn) 0); [lia|].
  rewrite Z.quot_div_nonneg by (pose proof (len_nonneg (Close w)); lia).
  assert (Hn : Z.to_nat (len (Close w) * 8 / Z.of_nat bn)
               = length (D s ++ repeat 0 extra)).
  { rewrite length_app, repeat_length.
    replace (len (Close w) * 8) with (Z.of_nat (length (D s) * bn + k))
      by (unfold len; lia).
    rewrite <- Nat2Z.inj_div, Nat2Z.id.
    rewrite Nat.div_add_l by lia. reflexivity. }
  rewrite Hn. unfold NewReader. rewrite Epad.
  assert (Hpadsplit : repeat false k
                      = flat_map (bitsMSB bn) (repeat 0 extra)
                        ++ repeat false (k - extra * bn)).
  { assert (Hz : forall m, flat_map (bitsMSB bn) (repeat 0 m) = repeat false (m * bn)).
    { induction m as [|m IHm]; [reflexivity|].
      cbn [repeat flat_map]. rewrite IHm, bitsMSB_0, <- repeat_app. f_equal. }
    rewrite Hz, <- repeat_app. f_equal.
    pose proof (Nat.Div0.mul_div_le k bn). unfold extra. lia. }
  unfold w. rewrite Hpadsplit, app_assoc, <- flat_map_app.
  rewrite NewStream_loop_symbols.
  - cbn [bind]. rewrite shl1_pow by lia. reflexivity.
  - lia.
  - apply Forall_app. split; [exact Hsym|].
    apply Forall_forall. intros x Hx. apply repeat_spec in Hx. subst x.
    pose proof (Z.pow_pos_nonneg 2 (Z.of_nat bn)). lia.
Qed.

End ToBytesFacts.

(** ** The errors of Compress *)

Lemma bind_no_error {A B} (m : outcome A) (k : A -> outcome B) :
  no_error m -> (forall a, m = Ok a -> no_error (k a)) -> no_error (bind m k).
Proof.
  unfold no_error. intros Hm Hk e.
  destruct m as [a | e' | p |]; cbn [bind]; try discriminate.
  - apply Hk; reflexivity.
  - exfalso. now apply (Hm e').
Qed.

Lemma Ok_no_error {A} (a : A) : no_error (Ok a).
Proof. intros e; discriminate. Qed.

Lemma Panic_no_error {A} (p : panic) : no_error (@Panic A p).
Proof. intros e; discriminate. Qed.

Lemma OutOfFuel_no_error {A} : no_error (@OutOfFuel A).
Proof. intros e; discriminate. Qed.

Lemma index_no_error {A} (l : list A) i : no_error (index l i).
Proof.
  intros e. unfold index. destruct (i <? 0); [discriminate|].
  destruct (nth_error l (Z.to_nat i)); discriminate.
Qed.

Lemma slice_no_error {A} (l : list A) a b : no_error (slice l a b).
Proof.
  intros e. unfold slice.
  destruct ((0 <=? a) && (a <=? b) && (b <=? len l)); discriminate.
Qed.

Create HintDb noerr.

#[local] Hint Resolve Ok_no_error Panic_no_error OutOfFuel_no_error
  index_no_error slice_no_error : noerr.

(** Splits a goal [no_error m] along the binds, conditionals and pattern
    matches of [m]. *)
Ltac no_error_step :=
  match goal with
  | |- no_error (bind _ _) => apply bind_no_error; [ | intros ? ?]
  | |- no_error (if ?c then _ else _) => destruct c eqn:?
  | |- no_error (let '(_, _) := ?p in _) => destruct p eqn:?
  | |- no_error (match ?x with _ => _ end) => destruct x eqn:?
  | |- no_error _ => solve [auto with noerr]
  end.

Section Errors.
Import Bitio Lzss.
Context {consts : Constants} {sa : SuffixArray} {spare : SpareCapacity}.

Lemma writeByte_no_error bw b : no_error (writeByte bw b).
Proof. unfold writeByte. repeat no_error_step. Qed.

Lemma findBackRef_no_error c input data i t minLength :
  no_error (findBackRef c input data i t minLength).
Proof. unfold findBackRef. cbn zeta. repeat no_error_step. Qed.

Lemma fillBackrefs_no_error c input bs i minLen :
  no_error (fillBackrefs c input bs i minLen).
Proof.
  unfold fillBackrefs. repeat (no_error_step; try apply findBackRef_no_error).
Qed.

#[local] Hint Resolve writeByte_no_error fillBackrefs_no_error : noerr.

Lemma lookahead_no_error c input bs i bestAtI bestSavings bw :
  no_error (lookahead c input bs i bestAtI bestSavings bw).
Proof. unfold lookahead. repeat no_error_step. Qed.

Lemma copyLoop_no_error n address : forall out, no_error (copyLoop n address out).
Proof.
  induction n as [|n IH]; intros out; cbn [copyLoop]; [apply Ok_no_error|].
  apply bind_no_error; [apply index_no_error | intros; apply IH].
Qed.

Lemma replayCopy_no_error input t in_ out startI bw :
  no_error (replayCopy input t in_ out startI bw).
Proof. unfold replayCopy. repeat (no_error_step; try apply copyLoop_no_error). Qed.

Lemma replayDict_no_error c input t in_ out startI bw :
  no_error (replayDict c input t in_ out startI bw).
Proof. unfold replayDict. repeat no_error_step. Qed.

Lemma replayLiteral_no_error input s in_ out startI bw :
  no_error (replayLiteral input s in_ out startI bw).
Proof. unfold replayLiteral. repeat no_error_step. Qed.

Lemma compressFromHint_loop_no_error fuel c input short long dict :
  forall in_ s out startI bw,
  no_error (compressFromHint_loop fuel c input short long dict in_ s out startI bw).
Proof.
  induction fuel as [|fuel IH]; intros in_ s out startI bw;
    cbn [compressFromHint_loop].
  - destruct (TryError in_); auto with noerr.
  - destruct (TryError in_); [apply Ok_no_error|].
    apply bind_no_error.
    + repeat (no_error_step;
              try apply replayCopy_no_error; try apply replayDict_no_error;
              try apply replayLiteral_no_error).
    + intros [[[[in' out'] startI'] bw']|] _; [|apply Ok_no_error].
      destruct (TryReadByte in') as [s' in'']. apply IH.
Qed.

Lemma compressFromHint_no_error c header input hint bw :
  no_error (compressFromHint c header input hint bw).
Proof.
  unfold compressFromHint.
  repeat (no_error_step; try apply compressFromHint_loop_no_error).
Qed.

(** The one error of a turn of the main loop: the byte at [i] is an escape
    symbol and none of the three searches has found a match for it. *)
Lemma Compress_iter_error c input bs i bw e :
  Compress_iter c input bs i bw = Err e ->
  e = ErrNoBackref i /\
  exists b bs', index input i = Ok b /\ canEncodeSymbol b = false /\
                fillBackrefs c input bs i 1 = Ok (false, bs').
Proof.
  unfold Compress_iter. intros E.
  destruct (index input i) as [b| e' | |] eqn:Eb; cbn [bind] in E; try discriminate.
  2:{ exfalso. now apply (index_no_error input i e'). }
  destruct (canEncodeSymbol b) eqn:Ec; cbn [negb] in E.
  - exfalso.
    match type of E with
    | ?m = Err _ => assert (H : no_error m); [|exact (H _ E)]
    end.
    repeat (no_error_step; try apply lookahead_no_error).
  - destruct (fillBackrefs c input bs i 1) as [[found bs']| e' | |] eqn:Ef;
      cbn [bind] in E; try discriminate.
    2:{ exfalso. now apply (fillBackrefs_no_error c input bs i 1 e'). }
    destruct found; cbn [negb] in E.
    + destruct (bestBackref bs'). discriminate.
    + injection E as <-. split; [reflexivity|]. now exists b, bs'.
Qed.

Lemma Compress_loop_error fuel c input bs : forall i bw e,
  Compress_loop fuel c input bs i bw = Err e ->
  exists j b bs', e = ErrNoBackref j /\ index input j = Ok b /\
                  canEncodeSymbol b = false /\
                  fillBackrefs c input bs j 1 = Ok (false, bs').
Proof.
  induction fuel as [|fuel IH]; intros i bw e E; cbn [Compress_loop] in E.
  - destruct (i <? len input); discriminate.
  - destruct (i <? len input); [|discriminate].
    destruct (Compress_iter c input bs i bw) as [[i' bw']| e' | |] eqn:Ei;
      cbn [bind] in E; try discriminate.
    + eapply IH; eassumption.
    + injection E as <-. apply Compress_iter_error in Ei.
      destruct Ei as (-> & b & bs' & H). now exists i, b, bs'.
Qed.

(** What an error of [Compress] is. *)
Lemma Compress_error_cases fuel c input hints e :
  Compress fuel c input hints = Err e ->
  (e = ErrInputSize /\ len input > MaxInputSize) \/
  (exists j b bs bs', e = ErrNoBackref j /\ index input j = Ok b /\
                   canEncodeSymbol b = false /\
                   bType (bDict bs)
                   = snd (InitBackRefTypes (len (dictData c)) (level c)) /\
                   fillBackrefs c input bs j 1 = Ok (false, bs')).
Proof.
  unfold Compress. intros E.
  destruct (len input >? MaxInputSize) eqn:Es.
  { injection E as <-. left. split; [reflexivity|]. now apply Z.gtb_gt in Es. }
  destruct (level c =? NoCompression); [discriminate|].
  right.
  destruct (Compress_stream fuel c input hints) as [buf| e' | |] eqn:Est;
    cbn [bind] in E; try discriminate.
  { destruct (len buf >=? len input + bitLen / 8); discriminate. }
  injection E as <-. unfold Compress_stream in Est.
  destruct (InitBackRefTypes (len (dictData c)) (level c)) as [[short long] dictT].
  cbn [snd].
  match type of Est with
  | bind ?m _ = _ => destruct m as [[startI bw]| e1 | |] eqn:Eh
  end; cbn [bind] in Est; try discriminate.
  2:{ exfalso. destruct hints as [|hint [|? ?]]; try discriminate.
      now apply (compressFromHint_no_error _ _ _ _ _ e1) in Eh. }
  match type of Est with
  | bind ?m _ = _ => destruct m as [bw'| e1 | |] eqn:El
  end; cbn [bind] in Est; try discriminate.
  injection Est as <-. apply Compress_loop_error in El.
  destruct El as (j & b & bs' & -> & Hb & Hc & Hf).
  eexists j, b, _, bs'. repeat split; try eassumption. reflexivity.
Qed.

End Errors.

(** ** Compress: what stands for an escape byte *)

Section EscapeTrace.
Import Bitio Lzss.
Context {consts : Constants} {sa : SuffixArray} {spare : SpareCapacity}.

Lemma items_len_app (l1 l2 : list item) :
  items_len (l1 ++ l2) = items_len l1 + items_len l2.
Proof.
  induction l1 as [|it l1 IH]; cbn [app items_len]; [reflexivity | lia].
Qed.

Lemma emit_all_app_len (l1 : list item) : forall bw i l2,
  emit_all bw (l1 ++ l2) i = emit_all (emit_all bw l1 i) l2 (i + items_len l1).
Proof.
  induction l1 as [|it l1 IH]; intros bw i l2; cbn [app emit_all items_len].
  - now rewrite Z.add_0_r.
  - rewrite IH. f_equal. lia.
Qed.

Lemma literals_ok_app (input : list Z) (l1 : list item) : forall i l2,
  literals_ok input i l1 -> literals_ok input (i + items_len l1) l2 ->
  literals_ok input i (l1 ++ l2).
Proof.
  induction l1 as [|it l1 IH]; intros i l2 H1 H2;
    cbn [app literals_ok items_len] in *.
  - now rewrite Z.add_0_r in H2.
  - destruct H1 as [Hit H1]. split; [exact Hit|].
    apply IH; [exact H1|]. now rewrite <- Z.add_assoc.
Qed.

(** A position that the items reach and that holds an escape symbol lies
    within one of their back-references: the item that stands for it is no
    literal. *)
Lemma escape_in_backref (input : list Z) (p b : Z) (items : list item) : forall i,
  index input p = Ok b -> canEncodeSymbol b = false ->
  literals_ok input i items ->
  i <= p < i + items_len items ->
  in_backref items i p.
Proof.
  induction items as [|it items IH]; intros i Hp Hb Hl Hr;
    cbn [items_len literals_ok in_backref] in *.
  - lia.
  - destruct Hl as [Hit Hl].
    destruct (Z.lt_ge_cases p (i + item_len it)) as [Hlt | Hge].
    + left. destruct it as [b' | r]; cbn [item_len] in *; [|lia].
      assert (p = i) by lia. subst p. destruct Hit as [Hi Hc].
      rewrite Hp in Hi. injection Hi as ->. congruence.
    + right. apply IH; auto. lia.
Qed.

(** *** The replay of a hint *)

Lemma readFrom_bType (b0 : backref) (r : Reader) :
  bType (fst (readFrom b0 r)) = bType b0.
Proof.
  unfold readFrom.
  destruct (readNum _ r _ 0 0) as [n1 r1].
  destruct (readNum _ r1 _ 0 0) as [n2 r2]. reflexivity.
Qed.

Lemma replayCopy_trace input t in_ out startI bw in' out' j bw' :
  replayCopy input t in_ out startI bw = Ok (Some (in', out', j, bw')) ->
  exists r, bType r = t /\ j = startI + length r /\ bw' = writeTo r bw startI.
Proof.
  unfold replayCopy.
  destruct (readFrom {| address := 0; length := 0; bType := t |} in_) as [b in1].
  intros E. bind_inv E. bind_inv E. bind_inv E.
  destruct (bytes_Equal _ _); cbn [negb] in E; [|discriminate].
  injection E as <- <- <- <-.
  eexists {| address := _; length := length b; bType := t |}.
  cbn [length bType]. repeat split.
Qed.

Lemma replayDict_trace c input t in_ out startI bw in' out' j bw' :
  replayDict c input t in_ out startI bw = Ok (Some (in', out', j, bw')) ->
  exists r, bType r = t /\ j = startI + length r /\ bw' = writeTo r bw startI.
Proof.
  unfold replayDict.
  pose proof (readFrom_bType {| address := 0; length := 0; bType := t |} in_) as Ht.
  destruct (readFrom {| address := 0; length := 0; bType := t |} in_) as [b in1].
  cbn [fst bType] in Ht.
  intros E. bind_inv E. bind_inv E.
  destruct (bytes_Equal _ _); cbn [negb] in E; [|discriminate].
  injection E as <- <- <- <-. exists b. repeat split. exact Ht.
Qed.

Lemma replayLiteral_trace input s in_ out startI bw in' out' j bw' :
  replayLiteral input s in_ out startI bw = Ok (Some (in', out', j, bw')) ->
  index input startI = Ok s /\ canEncodeSymbol s = true /\
  j = startI + 1 /\ bw' = TryWriteByte bw s.
Proof.
  unfold replayLiteral. intros E. bind_inv E. rename a into b.
  destruct (Z.eqb_spec s b) as [<- | _]; cbn [negb] in E; [|discriminate].
  bind_inv E. injection E as <- <- <- <-.
  apply writeByte_Ok in E1. destruct E1 as [Hcan ->]. auto.
Qed.

(** Whatever the hint holds, what its replay has written when it stops is
    a list of items that takes [startI] to the position returned, whose
    literals are input bytes other than the escape symbols. *)
Lemma compressFromHint_loop_trace (fuel : nat) c input short long dict :
  forall in_ s out startI bw j bw',
  compressFromHint_loop fuel c input short long dict in_ s out startI bw
  = Ok (j, bw') ->
  exists items,
    bw' = emit_all bw items startI /\ j = startI + items_len items /\
    literals_ok input startI items /\ refs_typed short long dict items.
Proof.
  assert (Hnone : forall startI bw j bw',
            Ok (startI, bw) = Ok (j, bw') ->
            exists items,
              bw' = emit_all bw items startI /\ j = startI + items_len items /\
              literals_ok input startI items /\ refs_typed short long dict items).
  { intros startI bw j bw' E. injection E as <- <-. exists [].
    cbn [emit_all items_len literals_ok]. repeat split; [lia | constructor]. }
  induction fuel as [|fuel IH]; intros in_ s out startI bw j bw' E;
    cbn [compressFromHint_loop] in E.
  - destruct (TryError in_); [now apply Hnone | discriminate].
  - destruct (TryError in_); [now apply Hnone|].
    bind_inv E. destruct a as [[[[in' out'] startI'] bw1]|];
      [|now apply Hnone].
    assert (Hstep : exists it,
              startI' = startI + item_len it /\ bw1 = emit bw it startI /\
              literals_ok input startI [it] /\ refs_typed short long dict [it]).
    { destruct (s =? SymbolShort).
      { apply replayCopy_trace in E0. destruct E0 as (r & Ht & -> & ->).
        exists (Ref r). cbn [item_len emit literals_ok].
        repeat split. constructor; [auto | constructor]. }
      destruct (s =? SymbolLong).
      { apply replayCopy_trace in E0. destruct E0 as (r & Ht & -> & ->).
        exists (Ref r). cbn [item_len emit literals_ok].
        repeat split. constructor; [auto | constructor]. }
      destruct (s =? SymbolDict).
      { apply replayDict_trace in E0. destruct E0 as (r & Ht & -> & ->).
        exists (Ref r). cbn [item_len emit literals_ok].
        repeat split. constructor; [auto | constructor]. }
      apply replayLiteral_trace in E0. destruct E0 as (Hi & Hc & -> & ->).
      exists (Lit s). cbn [item_len emit literals_ok].
      repeat split; auto. constructor; [exact I | constructor]. }
    destruct Hstep as (it & -> & -> & Hit & Hty).
    destruct (TryReadByte in') as [s' in''].
    apply IH in E. destruct E as (items & -> & -> & Hl & Htys).
    exists (it :: items). cbn [emit_all items_len literals_ok] in *.
    split; [reflexivity|]. split; [lia|].
    split; [split; [apply Hit | exact Hl]|].
    constructor; [now inversion Hty | exact Htys].
Qed.

Lemma compressFromHint_trace c header input hint bw j bw' :
  compressFromHint c header input hint bw = Ok (j, bw') ->
  let '(short, long, dictT) := InitBackRefTypes (len (dictData c)) (level c) in
  exists items,
    bw' = emit_all bw items 0 /\ j = items_len items /\
    literals_ok input 0 items /\ refs_typed short long dictT items.
Proof.
  unfold compressFromHint.
  destruct (InitBackRefTypes (len (dictData c)) (level c)) as [[short long] dict].
  assert (Hnone : Ok (0, bw) = Ok (j, bw') ->
            exists items,
              bw' = emit_all bw items 0 /\ j = items_len items /\
              literals_ok input 0 items /\ refs_typed short long dict items).
  { intros E. injection E as <- <-. exists []. cbn. repeat split. constructor. }
  destruct (Header_ReadFrom (NewReader hint)) as [[hintHeader|] in_];
    [|exact Hnone].
  destruct (negb (Header_Version hintHeader =? Header_Version header)
            || negb (Header_Level hintHeader =? Header_Level header));
    [exact Hnone|].
  destruct (Header_Level hintHeader =? NoCompression); [exact Hnone|].
  destruct (TryReadByte in_) as [s in1]. intros E.
  apply compressFromHint_loop_trace in E.
  destruct E as (items & -> & -> & Hl & Hty).
  exists items. auto.
Qed.

(** *** The main loop *)

(** [fillBackrefs] keeps the types of the three references. *)
Lemma fillBackrefs_types c input bs i minLen found bs' short long dictT :
  bs_types short long dictT bs ->
  fillBackrefs c input bs i minLen = Ok (found, bs') ->
  bs_types short long dictT bs'.
Proof.
  intros Hbs E. unfold fillBackrefs in E.
  bind_inv E. destruct a as [a1 l1]. bind_inv E. destruct a as [a2 l2].
  bind_inv E. destruct a as [a3 l3]. injection E as _ <-.
  exact Hbs.
Qed.

Lemma bestBackref_type (bs : backrefs) short long dictT :
  bs_types short long dictT bs ->
  bType (fst (bestBackref bs)) = short \/ bType (fst (bestBackref bs)) = long \/
  bType (fst (bestBackref bs)) = dictT.
Proof.
  intros (Td & Ts & Tl).
  destruct (bestBackref_is_candidate bs) as [_ [-> | [-> | ->]]]; auto.
Qed.

(** The look-ahead writes nothing but input bytes, each at its position and
    none of them an escape symbol, and the reference it returns is of one
    of the three types. *)
Lemma lookahead_trace c input bs i b bestAtI bestSavings bw i' best' bw'
      short long dictT :
  bs_types short long dictT bs ->
  bType bestAtI = short \/ bType bestAtI = long \/ bType bestAtI = dictT ->
  index input i = Ok b -> canEncodeSymbol b = true ->
  lookahead c input bs i bestAtI bestSavings bw = Ok (i', best', bw') ->
  (bType best' = short \/ bType best' = long \/ bType best' = dictT) /\
  exists lits,
    bw' = emit_all bw lits i /\ i' = i + items_len lits /\
    literals_ok input i lits /\ refs_typed short long dictT lits.
Proof.
  intros Hbs Hty Hb Hcan H.
  assert (Keep : Ok (i, bestAtI, bw) = Ok (i', best', bw') ->
    (bType best' = short \/ bType best' = long \/ bType best' = dictT) /\
    exists lits,
      bw' = emit_all bw lits i /\ i' = i + items_len lits /\
      literals_ok input i lits /\ refs_typed short long dictT lits).
  { intros E; injection E as <- <- <-. split; [exact Hty|]. exists []. cbn.
    repeat split; [lia | constructor]. }
  assert (One : forall r,
    bType r = short \/ bType r = long \/ bType r = dictT ->
    Ok (i + 1, r, TryWriteByte bw b) = Ok (i', best', bw') ->
    (bType best' = short \/ bType best' = long \/ bType best' = dictT) /\
    exists lits,
      bw' = emit_all bw lits i /\ i' = i + items_len lits /\
      literals_ok input i lits /\ refs_typed short long dictT lits).
  { intros r Hr E; injection E as <- <- <-. split; [exact Hr|]. exists [Lit b].
    cbn [emit_all emit items_len item_len literals_ok].
    repeat split; auto; try lia; repeat constructor. }
  assert (Two : forall r b1 k,
    bType r = short \/ bType r = long \/ bType r = dictT ->
    k = i + 2 -> index input (i + 1) = Ok b1 -> canEncodeSymbol b1 = true ->
    Ok (k, r, TryWriteByte (TryWriteByte bw b) b1) = Ok (i', best', bw') ->
    (bType best' = short \/ bType best' = long \/ bType best' = dictT) /\
    exists lits,
      bw' = emit_all bw lits i /\ i' = i + items_len lits /\
      literals_ok input i lits /\ refs_typed short long dictT lits).
  { intros r b1 k Hr -> Hb1 Hc1 E; injection E as <- <- <-.
    split; [exact Hr|]. exists [Lit b; Lit b1].
    cbn [emit_all emit items_len item_len literals_ok].
    repeat split; auto; try lia; repeat constructor. }
  unfold lookahead in H.
  destruct (i + 1 <? len input); [|now apply Keep].
  bind_inv H. destruct a as [found bs1].
  pose proof (fillBackrefs_types _ _ _ _ _ _ _ _ _ _ Hbs E) as Hbs1.
  destruct found.
  - pose proof (bestBackref_type bs1 _ _ _ Hbs1) as Hnew.
    destruct (bestBackref bs1) as [newBest newSavings]. cbn [fst] in Hnew.
    destruct (newSavings >? bestSavings); [|now apply Keep].
    rewrite Hb in H. cbn [bind] in H.
    rewrite (writeByte_canEncode _ _ Hcan) in H. cbn [bind] in H.
    bind_inv H. rename a into b1.
    destruct (canEncodeSymbol b1) eqn:Hc1; cbn [andb] in H;
      [|now apply (One newBest)].
    destruct (i + 1 + 1 <? len input); [|now apply (One newBest)].
    bind_inv H. destruct a as [found2 bs2].
    pose proof (fillBackrefs_types _ _ _ _ _ _ _ _ _ _ Hbs1 E1) as Hbs2.
    destruct found2; [|now apply (One newBest)].
    pose proof (bestBackref_type bs2 _ _ _ Hbs2) as Hnew2.
    destruct (bestBackref bs2) as [newBest2 newSavings2]. cbn [fst] in Hnew2.
    destruct (newSavings2 >? newSavings); [|now apply (One newBest)].
    rewrite (writeByte_canEncode _ _ Hc1) in H. cbn [bind] in H.
    apply (Two newBest2 b1 (i + 1 + 1)); (assumption || reflexivity || lia).
  - destruct (i + 2 <? len input); [|now apply Keep].
    bind_inv H. rename a into b1.
    destruct (canEncodeSymbol b1) eqn:Hc1; [|now apply Keep].
    bind_inv H. destruct a as [found2 bs2].
    pose proof (fillBackrefs_types _ _ _ _ _ _ _ _ _ _ Hbs1 E1) as Hbs2.
    destruct found2; [|now apply Keep].
    pose proof (bestBackref_type bs2 _ _ _ Hbs2) as Hnew2.
    destruct (bestBackref bs2) as [newBest2 newSavings2]. cbn [fst] in Hnew2.
    destruct (newSavings2 >? bestSavings); [|now apply Keep].
    rewrite Hb in H. cbn [bind] in H.
    rewrite (writeByte_canEncode _ _ Hcan) in H. cbn [bind] in H.
    rewrite (writeByte_canEncode _ _ Hc1) in H. cbn [bind] in H.
    apply (Two newBest2 b1 (i + 2)); (assumption || reflexivity || lia).
Qed.

(** One turn of the main loop, at a position that holds an escape symbol,
    writes one back-reference; at another position it writes literals that
    are input bytes and no escape symbols, and possibly a back-reference
    after them. *)
Lemma Compress_iter_trace c input bs i bw i' bw' short long dictT :
  bs_types short long dictT bs ->
  Compress_iter c input bs i bw = Ok (i', bw') ->
  exists items,
    bw' = emit_all bw items i /\ i' = i + items_len items /\
    literals_ok input i items /\ refs_typed short long dictT items.
Proof.
  intros Hbs. unfold Compress_iter. intros H. bind_inv H. rename a into b.
  destruct (canEncodeSymbol b) eqn:Hcan; cbn [negb] in H.
  - bind_inv H. destruct a as [found bs1].
    pose proof (fillBackrefs_types _ _ _ _ _ _ _ _ _ _ Hbs E0) as Hbs1.
    destruct found; cbn [negb] in H.
    + pose proof (bestBackref_type bs1 _ _ _ Hbs1) as Hbest.
      destruct (bestBackref bs1) as [bestAtI bestSavings]. cbn [fst] in Hbest.
      bind_inv H. destruct a as [[i2 best2] bw2]. injection H as <- <-.
      destruct (lookahead_trace _ _ _ _ _ _ _ _ _ _ _ _ _ _ Hbs1 Hbest
                  E Hcan E1)
        as (Hty2 & lits & -> & -> & Hl & Htl).
      exists (lits ++ [Ref best2]).
      rewrite emit_all_app_len, items_len_app.
      cbn [emit_all emit items_len item_len].
      split; [reflexivity|]. split; [lia|].
      split; [apply literals_ok_app; [exact Hl | cbn [literals_ok]; auto]|].
      apply Forall_app. split; [exact Htl|].
      constructor; [exact Hty2 | constructor].
    + rewrite (writeByte_canEncode _ _ Hcan) in H. cbn [bind] in H.
      injection H as <- <-. exists [Lit b].
      cbn [emit_all emit items_len item_len literals_ok].
      split; [reflexivity|]. split; [lia|]. split; [auto|].
      repeat constructor.
  - bind_inv H. destruct a as [found bs1].
    pose proof (fillBackrefs_types _ _ _ _ _ _ _ _ _ _ Hbs E0) as Hbs1.
    destruct found; cbn [negb] in H; [|discriminate].
    pose proof (bestBackref_type bs1 _ _ _ Hbs1) as Hbest.
    destruct (bestBackref bs1) as [best s]. cbn [fst] in Hbest.
    injection H as <- <-.
    exists [Ref best]. cbn [emit_all emit items_len item_len literals_ok].
    split; [reflexivity|]. split; [lia|]. split; [auto|].
    constructor; [exact Hbest | constructor].
Qed.

(** What the main loop has written when it ends takes it to the end of the
    input, or past it. *)
Lemma Compress_loop_trace (fuel : nat) c input bs short long dictT :
  bs_types short long dictT bs ->
  forall i bw bw',
  Compress_loop fuel c input bs i bw = Ok bw' ->
  exists items,
    bw' = emit_all bw items i /\ len input <= i + items_len items /\
    literals_ok input i items /\ refs_typed short long dictT items.
Proof.
  intros Hbs.
  induction fuel as [|fuel IH]; intros i bw bw' H; cbn [Compress_loop] in H.
  - destruct (Z.ltb_spec i (len input)); [discriminate|].
    injection H as <-. exists []. cbn. repeat split; [lia | constructor].
  - destruct (Z.ltb_spec i (len input)).
    + bind_inv H. destruct a as [i1 bw1].
      apply (Compress_iter_trace _ _ _ _ _ _ _ _ _ _ Hbs) in E.
      destruct E as (items1 & -> & -> & Hl1 & Ht1).
      apply IH in H. destruct H as (items2 & -> & Hend & Hl2 & Ht2).
      exists (items1 ++ items2).
      rewrite emit_all_app_len, items_len_app.
      split; [reflexivity|]. split; [lia|].
      split; [now apply literals_ok_app|].
      apply Forall_app. split; assumption.
    + injection H as <-. exists []. cbn. repeat split; [lia | constructor].
Qed.

(** The stream that [Compress] builds: its literals are input bytes other
    than the escape symbols, and every position of the input that holds an
    escape symbol lies within a back-reference. *)
Lemma Compress_stream_trace (fuel : nat) c input hints buf :
  Compress_stream fuel c input hints = Ok buf ->
  let '(short, long, dictT) := InitBackRefTypes (len (dictData c)) (level c) in
  exists items,
    buf = [Version; level c] ++ Close (emit_all [] items 0) /\
    literals_ok input 0 items /\ refs_typed short long dictT items /\
    (forall p b, index input p = Ok b -> canEncodeSymbol b = false ->
                 in_backref items 0 p).
Proof.
  unfold Compress_stream. intros H.
  pose proof (compressFromHint_trace c
                {| Header_Version := Version; Header_Level := level c |} input)
    as Htrace.
  destruct (InitBackRefTypes (len (dictData c)) (level c)) as [[short long] dictT].
  bind_inv H. destruct a as [startI bw1]. bind_inv H. rename a into bw2.
  injection H as <-.
  assert (Hhint : exists items1,
            bw1 = emit_all NewWriter items1 0 /\ startI = items_len items1 /\
            literals_ok input 0 items1 /\ refs_typed short long dictT items1).
  { destruct hints as [|hint [|? ?]].
    - injection E as <- <-. exists []. cbn. repeat split. constructor.
    - now apply Htrace in E.
    - injection E as <- <-. exists []. cbn. repeat split. constructor. }
  destruct Hhint as (items1 & -> & -> & Hl1 & Ht1).
  apply (Compress_loop_trace _ _ _ _ short long dictT) in E0;
    [|repeat split].
  destruct E0 as (items2 & -> & Hend & Hl2 & Ht2).
  exists (items1 ++ items2).
  rewrite emit_all_app_len. unfold NewWriter, Header_WriteTo.
  cbn [app Header_Version Header_Level Z.add].
  split; [reflexivity|].
  assert (Hl : literals_ok input 0 (items1 ++ items2))
    by (apply literals_ok_app; assumption).
  split; [exact Hl|]. split; [apply Forall_app; split; assumption|].
  intros p b Hp Hb. apply (escape_in_backref input p b); try assumption.
  rewrite items_len_app. apply index_Ok in Hp. lia.
Qed.


End EscapeTrace.

Section ErrorTheorems.
Import Bitio Lzss.
Context {consts : Constants} {sa : SuffixArray} {spare : SpareCapacity}.

(** X12.  [Compress] has two errors: "input size must be <=
    MaxInputSize", for an input longer than that; and "could not find a
    backref at index j", and then the input holds an escape symbol at [j].
    This for every dictionary, level, hint and index. *)
Theorem Compress_error_is_size_or_escape (fuel : nat) (c : Compressor)
        (input : list Z) (hints : list (list Z)) (e : error) :
  Compress fuel c input hints = Err e ->
  (e = ErrInputSize /\ len input > MaxInputSize) \/
  (exists j b, e = ErrNoBackref j /\ index input j = Ok b /\
               (b = SymbolDict \/ b = SymbolShort \/ b = SymbolLong)).
Proof.
  intros E. apply Compress_error_cases in E.
  destruct E as [E | (j & b & bs & bs' & -> & Hb & Hc & _)]; [now left | right].
  exists j, b. split; [reflexivity|]. split; [exact Hb|].
  unfold canEncodeSymbol in Hc.
  destruct (Z.eqb_spec b SymbolDict); [now left|].
  destruct (Z.eqb_spec b SymbolShort); [now right; left|].
  destruct (Z.eqb_spec b SymbolLong); [now right; right|].
  discriminate.
Qed.

Lemma wordAlign_nonneg (lvl a : Z) : 0 <= wordAlign lvl a.
Proof.
  unfold wordAlign. destruct (lvl =? NoCompression); apply Z.mod_pos_bound; lia.
Qed.

Lemma dict_type_fields (dictLen lvl : Z) :
  let t := snd (InitBackRefTypes dictLen lvl) in
  dictOnly t = true /\ 1 <= maxLength t.
Proof.
  cbn [InitBackRefTypes snd newBackRefType dictOnly maxLength]. split; [reflexivity|].
  pose proof (wordAlign_nonneg lvl (bits_Len dictLen)) as H.
  assert (0 <= (8 + wordAlign lvl (bits_Len dictLen) + 8 + 7) / 8)
    by (apply Z.div_pos; lia).
  change (2 ^ 8) with 256. lia.
Qed.

(** With a complete index the search in the dictionary finds every byte
    that the dictionary holds. *)
Lemma findBackRef_dict_finds (c : Compressor) (input : list Z) (j b : Z)
      (t : BackrefType) :
  lookup_complete ->
  dictOnly t = true -> 1 <= maxLength t ->
  index input j = Ok b -> In b (dictData c) ->
  exists a l, findBackRef c input input j t 1 = Ok (a, l) /\ l <> -1.
Proof.
  intros Hcomplete Hd Hmax Hb Hin.
  apply index_Ok in Hb. destruct Hb as [Hj Hb].
  unfold findBackRef. cbn [Z.eqb].
  destruct (Z.gtb_spec (j + 1) (len input)) as [|_]; [lia|].
  set (maxRefLen := if j + maxLength t >? len input then len input - j
                    else maxLength t).
  assert (Hr : 1 <= maxRefLen /\ j + maxRefLen <= len input).
  { unfold maxRefLen. destruct (Z.gtb_spec (j + maxLength t) (len input)); lia. }
  destruct (Z.gtb_spec 1 maxRefLen) as [|_]; [lia|].
  rewrite slice_Ok by lia. cbn [bind]. rewrite Hd.
  destruct (LookupLongest (dictData c) (sub input j (j + maxRefLen)) 1 maxRefLen 0
              (len (dictData c))) as [a l] eqn:El.
  exists a, l. split; [reflexivity|].
  apply In_nth_error in Hin. destruct Hin as [o Ho].
  assert (Hlt : (o < List.length (dictData c))%nat)
    by (apply nth_error_Some; congruence).
  pose proof (Hcomplete (dictData c) (sub input j (j + maxRefLen)) 1 maxRefLen 0
                (len (dictData c)) (Z.of_nat o)) as Hc.
  rewrite El in Hc. cbn [snd] in Hc. apply Hc; try lia.
  - unfold len. lia.
  - intros k Hk. assert (k = 0) by lia. subst k. exists b. split.
    + rewrite nth_error_sub.
      destruct (Nat.ltb_spec (Z.to_nat 0) (Z.to_nat (j + maxRefLen - j))); [|lia].
      rewrite <- Hb. f_equal. lia.
    + rewrite <- Ho. f_equal. lia.
Qed.

Lemma AugmentDict_holds_escapes (dict : list Z) :
  symbols_distinct ->
  In SymbolDict (AugmentDict dict) /\ In SymbolShort (AugmentDict dict) /\
  In SymbolLong (AugmentDict dict).
Proof.
  intros Hd. unfold AugmentDict.
  destruct (AugmentDict_loop 0 dict) eqn:E.
  - now apply AugmentDict_loop_all_present.
  - repeat split; apply in_or_app; right; cbn; auto.
Qed.

(** X13.  With a compressor made by [NewCompressor], whose dictionary
    [AugmentDict] has completed, and an index that finds an occurrence when
    there is one, [Compress] never fails with "could not find a backref":
    every escape symbol of the input has its match in the dictionary. *)
Theorem Compress_encodes_every_escape (fuel : nat) (dict : list Z) (lvl : Level)
        (c : Compressor) (input : list Z) (hints : list (list Z)) (i : Z) :
  symbols_distinct -> lookup_complete ->
  NewCompressor dict lvl = Ok c ->
  Compress fuel c input hints <> Err (ErrNoBackref i).
Proof.
  intros Hdist Hcomplete Hnew E.
  apply Compress_error_cases in E.
  destruct E as [[E _] | (j & b & bs & bs' & _ & Hb & Hc & Ht & Hf)]; [discriminate|].
  assert (Hin : In b (dictData c)).
  { unfold NewCompressor in Hnew.
    destruct (len (AugmentDict dict) >? MaxDictSize); [discriminate|].
    injection Hnew as <-. cbn [dictData].
    destruct (AugmentDict_holds_escapes dict Hdist) as (H1 & H2 & H3).
    unfold canEncodeSymbol in Hc.
    destruct (Z.eqb_spec b SymbolDict) as [-> | _]; [exact H1|].
    destruct (Z.eqb_spec b SymbolShort) as [-> | _]; [exact H2|].
    destruct (Z.eqb_spec b SymbolLong) as [-> | _]; [exact H3|].
    discriminate. }
  destruct (dict_type_fields (len (dictData c)) (level c)) as [Hd Hmax].
  rewrite <- Ht in Hd, Hmax.
  destruct (findBackRef_dict_finds c input j b (bType (bDict bs))
              Hcomplete Hd Hmax Hb Hin) as (a & l & Efind & Hl).
  unfold fillBackrefs in Hf. rewrite Efind in Hf. cbn [bind] in Hf.
  bind_inv Hf. destruct a0 as [a2 l2]. bind_inv Hf. destruct a0 as [a3 l3].
  injection Hf as Hfound _. cbn [length] in Hfound.
  destruct (Z.eqb_spec l (-1)); [contradiction|]. discriminate.
Qed.

End ErrorTheorems.

(** ** The exhaustive index finds what there is *)

Section SearchComplete.
Import Lzss.

Lemma commonPrefix_ge (a : list Z) : forall b (m : nat),
  (forall k : nat, (k < m)%nat ->
     exists x, nth_error b k = Some x /\ nth_error a k = Some x) ->
  Z.of_nat m <= commonPrefix a b.
Proof.
  induction a as [|x a IH]; intros b m H.
  - destruct m as [|m]; [cbn; destruct b; lia|].
    destruct (H 0%nat ltac:(lia)) as (y & _ & Hy). discriminate.
  - destruct m as [|m].
    + pose proof (commonPrefix_spec (x :: a) b). lia.
    + destruct b as [|y b].
      { destruct (H 0%nat ltac:(lia)) as (z & Hz & _). discriminate. }
      cbn [commonPrefix].
      destruct (H 0%nat ltac:(lia)) as (z & Hz & Hz'). cbn in Hz, Hz'.
      assert (x = y) by congruence. subst y. rewrite Z.eqb_refl.
      specialize (IH b m). rewrite Nat2Z.inj_succ.
      assert (Z.of_nat m <= commonPrefix a b); [|lia].
      apply IH. intros k Hk. destruct (H (S k) ltac:(lia)) as (u & Hu & Hu').
      exists u. auto.
Qed.

Lemma lookupScan_ge (data pattern : list Z) (maxLen : Z) (n : nat) :
  forall o best,
    snd best <= snd (lookupScan data pattern maxLen o n best) /\
    forall o', o <= o' < o + Z.of_nat n ->
      Z.min maxLen (commonPrefix (skipn (Z.to_nat o') data) pattern)
      <= snd (lookupScan data pattern maxLen o n best).
Proof.
  induction n as [|n IH]; intros o best; cbn [lookupScan].
  - split; [lia | intros; lia].
  - set (l := Z.min maxLen (commonPrefix (skipn (Z.to_nat o) data) pattern)).
    set (best' := if snd best <? l then (o, l) else best).
    destruct (IH (o + 1) best') as [Hmono Hall].
    assert (Hb : snd best <= snd best' /\ l <= snd best').
    { unfold best'. destruct (Z.ltb_spec (snd best) l); cbn [snd]; lia. }
    split; [lia|].
    intros o' Ho'. destruct (Z.eq_dec o' o) as [-> | Hne].
    + fold l. lia.
    + apply Hall. lia.
Qed.

Lemma searchLongest_complete : @lookup_complete searchIndex.
Proof.
  intros data pattern minLen maxLen lo hi o Hlo Hhi Hlen Hocc.
  cbn [LookupLongest searchIndex]. unfold searchLongest.
  replace (Z.max 0 lo) with lo by lia.
  destruct (lookupScan_ge data pattern maxLen (Z.to_nat (hi - lo)) lo (-1, -1))
    as [_ Hall].
  specialize (Hall o ltac:(lia)).
  assert (Hcp : minLen <= commonPrefix (skipn (Z.to_nat o) data) pattern).
  { rewrite <- (Z2Nat.id minLen) by lia. apply commonPrefix_ge.
    intros k Hk. destruct (Hocc (Z.of_nat k) ltac:(lia)) as (x & Hp & Hd).
    exists x. rewrite Nat2Z.id in Hp. split; [exact Hp|].
    rewrite nth_error_skipn. rewrite <- Hd. f_equal. lia. }
  destruct (Z.ltb_spec (snd (lookupScan data pattern maxLen lo (Z.to_nat (hi - lo)) (-1, -1)))
              minLen); lia.
Qed.

End SearchComplete.

(** ** Compress with any hint *)

Section ReadBounds.
Import Bitio Lzss.

Lemma TryReadBits_bound (r : Reader) (k : Z) :
  0 <= k -> 0 <= fst (TryReadBits r k) < 2 ^ k.
Proof.
  intros Hk. unfold TryReadBits.
  assert (Hpos : 0 < 2 ^ k) by (apply Z.pow_pos_nonneg; lia).
  destruct (TryError r); cbn [fst]; [lia|].
  destruct (len (rbits r) <? k); cbn [fst]; [lia|].
  pose proof (valueMSB_bound (firstn (Z.to_nat k) (rbits r))) as Hv.
  assert (Hl : len (firstn (Z.to_nat k) (rbits r)) <= k).
  { unfold len. rewrite length_firstn. lia. }
  assert (2 ^ len (firstn (Z.to_nat k) (rbits r)) <= 2 ^ k)
    by (apply Z.pow_le_mono_r; lia).
  pose proof (Z.mod_pos_bound (valueMSB 0 (firstn (Z.to_nat k) (rbits r))) (2 ^ 64)
                ltac:(lia)).
  assert (valueMSB 0 (firstn (Z.to_nat k) (rbits r)) mod 2 ^ 64
          <= valueMSB 0 (firstn (Z.to_nat k) (rbits r)))
    by (apply Z.mod_le; lia).
  lia.
Qed.

(** Whatever the reader holds, a field of [n] bits reads as a number of
    [n] bits. *)
Lemma readNum_bound (fuel : nat) : forall r n shift acc,
  0 <= n -> 0 <= shift ->
  acc <= fst (readNum fuel r n shift acc) <= acc + (2 ^ n - 1) * 2 ^ shift.
Proof.
  induction fuel as [|fuel IH]; intros r n shift acc Hn Hs; cbn [readNum].
  - cbn [fst]. assert (0 < 2 ^ n) by (apply Z.pow_pos_nonneg; lia).
    assert (0 < 2 ^ shift) by (apply Z.pow_pos_nonneg; lia). nia.
  - assert (Hpn : 0 < 2 ^ n) by (apply Z.pow_pos_nonneg; lia).
    assert (Hps : 0 < 2 ^ shift) by (apply Z.pow_pos_nonneg; lia).
    destruct (Z.leb_spec 8 n) as [H8 | H8].
    + pose proof (TryReadBits_bound r 8 ltac:(lia)) as Hb.
      unfold TryReadByte. destruct (TryReadBits r 8) as [b r']. cbn [fst] in Hb.
      specialize (IH r' (n - 8) (shift + 8) (acc + b * 2 ^ shift) ltac:(lia) ltac:(lia)).
      replace (2 ^ n) with (2 ^ (n - 8) * 2 ^ 8) by (rewrite <- Z.pow_add_r; f_equal; lia).
      rewrite Z.pow_add_r in IH by lia.
      assert (0 < 2 ^ (n - 8)) by (apply Z.pow_pos_nonneg; lia).
      change (2 ^ 8) with 256 in *. nia.
    + destruct (Z.ltb_spec 0 n) as [H0 | H0].
      * pose proof (TryReadBits_bound r n ltac:(lia)) as Hb.
        destruct (TryReadBits r n) as [b r']. cbn [fst] in *. nia.
      * cbn [fst]. nia.
Qed.

(** What [readFrom] makes of any reader: a length and an address that the
    fields of the type can carry. *)
Lemma readFrom_range (t : BackrefType) (b0 : backref) (r : Reader) :
  bType b0 = t -> type_ok t ->
  let b := fst (readFrom b0 r) in
  bType b = t /\
  nbBytesBackRef t <= length b <= maxLength t /\
  (if dictOnly t then 0 <= address b < 2 ^ nbBitsAddress t
   else 1 <= address b <= 2 ^ nbBitsAddress t).
Proof.
  intros Et (_ & HL & HA & Hnb & HmaxL & _). unfold readFrom. rewrite Et.
  pose proof (readNum_bound (Z.to_nat (nbBitsLength t)) r (nbBitsLength t) 0 0
                ltac:(lia) ltac:(lia)) as H1.
  destruct (readNum (Z.to_nat (nbBitsLength t)) r (nbBitsLength t) 0 0) as [n1 r1].
  pose proof (readNum_bound (Z.to_nat (nbBitsAddress t)) r1 (nbBitsAddress t) 0 0
                ltac:(lia) ltac:(lia)) as H2.
  destruct (readNum (Z.to_nat (nbBitsAddress t)) r1 (nbBitsAddress t) 0 0) as [n2 r2].
  cbn [fst] in *. cbn [bType length address].
  rewrite HL in H1. change (2 ^ 8) with 256 in *.
  rewrite Z.pow_0_r, Z.mul_1_r in H1, H2.
  split; [reflexivity|]. split; [lia|].
  destruct (dictOnly t); lia.
Qed.

(** What the copy loop has appended when it returns: [n] bytes, each the
    one [address] places before it. *)
Lemma copyLoop_inv (n : nat) (address : Z) : forall out out',
  copyLoop n address out = Ok out' ->
  exists added, out' = out ++ added /\ List.length added = n /\
    ((0 < n)%nat -> 0 <= len out - address < len out) /\
    forall k : nat, (k < n)%nat ->
      nth_error out' (Z.to_nat (len out - address) + k)
      = nth_error out' (List.length out + k).
Proof.
  induction n as [|n IH]; intros out out' E; cbn [copyLoop] in E.
  - injection E as <-. exists []. rewrite app_nil_r.
    repeat split; intros; lia.
  - bind_inv E. rename a into b0. apply index_Ok in E0. destruct E0 as [Hr Hb].
    apply IH in E. destruct E as (added & -> & Hlen & _ & Hk).
    exists (b0 :: added). rewrite <- app_assoc. cbn [app].
    split; [reflexivity|]. split; [cbn [List.length]; lia|]. split; [lia|].
    intros k Hlt. destruct k as [|k].
    + rewrite !Nat.add_0_r.
      rewrite nth_error_app1 by (unfold len in *; lia).
      rewrite nth_error_app2 by lia. rewrite Nat.sub_diag. exact Hb.
    + specialize (Hk k ltac:(lia)).
      rewrite <- app_assoc in Hk. cbn [app] in Hk.
      rewrite len_app, length_app in Hk. change (len [b0]) with 1 in Hk.
      cbn [List.length] in Hk.
      replace (Z.to_nat (len out - address) + S k)%nat
        with (Z.to_nat (len out + 1 - address) + k)%nat by (unfold len in *; lia).
      replace (List.length out + S k)%nat with (List.length out + 1 + k)%nat by lia.
      exact Hk.
Qed.

End ReadBounds.

Section AnyHint.
Import Bitio Lzss.
Context {consts : Constants} {sa : SuffixArray} {spare : SpareCapacity}.

Variables (c : Compressor) (input : list Z) (short long dictT : BackrefType).
Hypothesis Htypes : types_ok short long dictT (len (dictData c)).

Lemma list_eqb_true (l1 l2 : list Z) : bytes_Equal l1 l2 = true -> l1 = l2.
Proof. unfold bytes_Equal. apply list_eqb_eq. Qed.

Lemma index_app_l {A} (l sp : list A) (i : Z) (x : A) :
  index l i = Ok x -> index (l ++ sp) i = Ok x.
Proof.
  intros E. apply index_Ok in E. destruct E as [Hi E].
  apply index_nth_error; [lia|].
  rewrite nth_error_app1; [exact E | unfold len in Hi; lia].
Qed.

(** A reference of the hint that [replayCopy] accepts is a match in the
    backing array of the input, and the bytes decoded so far stay a prefix
    of that array. *)
Lemma replayCopy_accepts (t : BackrefType) (in_ in' : Reader) (out' : list Z)
      (startI j : Z) (bw bw' : Writer) :
  t = short \/ t = long ->
  0 <= startI <= len (inputArray input) ->
  replayCopy input t in_ (firstn (Z.to_nat startI) (inputArray input)) startI bw
  = Ok (Some (in', out', j, bw')) ->
  exists r, valid_item (inputArray input) (dictArray c) short long dictT
              startI (Ref r) /\
            j = startI + length r /\ bw' = writeTo r bw startI /\
            out' = firstn (Z.to_nat j) (inputArray input).
Proof.
  intros Ht Hi E. unfold replayCopy in E.
  set (arr := inputArray input) in *.
  assert (Hok : type_ok t /\ dictOnly t = false).
  { destruct Htypes as (Hs & Hl & _ & _ & _ & _ & Ds & Dl & _).
    destruct Ht as [-> | ->]; auto. }
  destruct Hok as [Hok Hd].
  pose proof (readFrom_range t {| address := 0; length := 0; bType := t |} in_
                eq_refl Hok) as Hr.
  destruct (readFrom {| address := 0; length := 0; bType := t |} in_) as [b in1].
  cbn [fst] in Hr. cbn zeta in Hr. destruct Hr as (Hbt & Hlen & Haddr).
  rewrite Hd in Haddr.
  pose proof Hok as (_ & _ & HA & Hnb & HmaxL & HmaxA).
  bind_inv E. rename a into out1. bind_inv E. rename a into decompressed.
  bind_inv E. rename a into expected.
  destruct (bytes_Equal decompressed expected) eqn:Eeq; cbn [negb] in E;
    [|discriminate].
  injection E as <- <- <- <-.
  apply list_eqb_true in Eeq. subst expected.
  apply copyLoop_inv in E0. destruct E0 as (added & -> & Hadd & Hfirst & Hk).
  apply slice_inv in E1, E2.
  destruct E1 as (_ & _ & ->). destruct E2 as (Hs1 & Hs2 & Esub).
  set (i := startI) in *. set (l := length b) in *.
  assert (Hout : len (firstn (Z.to_nat i) arr) = i) by (apply len_firstn; lia).
  assert (Hout' : List.length (firstn (Z.to_nat i) arr) = Z.to_nat i)
    by (unfold len in Hout; lia).
  rewrite Hout in *.
  specialize (Hfirst ltac:(lia)).
  (* the bytes decoded are the next bytes of the array *)
  assert (Hall : firstn (Z.to_nat i) arr ++ added = firstn (Z.to_nat (i + l)) arr).
  { rewrite <- (prefix_app_sub arr i l) by lia. f_equal.
    rewrite <- Esub. unfold sub.
    rewrite skipn_app, Hout', Nat.sub_diag, skipn_all2 by lia. cbn [app skipn].
    rewrite firstn_all2; [reflexivity | lia]. }
  exists {| address := i - address b; length := l; bType := t |}.
  cbn [length]. split; [|split; [reflexivity|split; [reflexivity | exact Hall]]].
  cbn [valid_item bType length].
  split; [destruct Ht; auto|]. split; [lia|].
  unfold match_at. cbn [bType length address]. rewrite Hd.
  split; [lia|]. split; [lia|]. split; [lia|]. split; [lia|].
  intros k Hkr. specialize (Hk (Z.to_nat k) ltac:(lia)).
  rewrite Hall, Hout' in Hk.
  rewrite !nth_error_firstn in Hk.
  destruct (Nat.ltb_spec (Z.to_nat (i - address b) + Z.to_nat k) (Z.to_nat (i + l)));
    [|lia].
  destruct (Nat.ltb_spec (Z.to_nat i + Z.to_nat k) (Z.to_nat (i + l))); [|lia].
  replace (Z.to_nat (i - address b + k))
    with (Z.to_nat (i - address b) + Z.to_nat k)%nat by lia.
  replace (Z.to_nat (i + k)) with (Z.to_nat i + Z.to_nat k)%nat by lia.
  exact Hk.
Qed.

Lemma replayDict_accepts (in_ in' : Reader) (out' : list Z)
      (startI j : Z) (bw bw' : Writer) :
  0 <= startI <= len (inputArray input) ->
  replayDict c input dictT in_ (firstn (Z.to_nat startI) (inputArray input))
    startI bw
  = Ok (Some (in', out', j, bw')) ->
  exists r, valid_item (inputArray input) (dictArray c) short long dictT
              startI (Ref r) /\
            j = startI + length r /\ bw' = writeTo r bw startI /\
            out' = firstn (Z.to_nat j) (inputArray input).
Proof.
  intros Hi E. unfold replayDict in E.
  set (arr := inputArray input) in *. set (darr := dictArray c) in *.
  destruct Htypes as (_ & _ & Hok & _ & _ & _ & _ & _ & Hd & _).
  pose proof (readFrom_range dictT {| address := 0; length := 0; bType := dictT |} in_
                eq_refl Hok) as Hr.
  destruct (readFrom {| address := 0; length := 0; bType := dictT |} in_) as [b in1].
  cbn [fst] in Hr. cbn zeta in Hr. destruct Hr as (Hbt & Hlen & Haddr).
  rewrite Hd in Haddr.
  pose proof Hok as (_ & _ & HA & Hnb & HmaxL & HmaxA).
  bind_inv E. rename a into d. bind_inv E. rename a into expected.
  destruct (bytes_Equal d expected) eqn:Eeq; cbn [negb] in E; [|discriminate].
  injection E as <- <- <- <-.
  apply list_eqb_true in Eeq. subst expected.
  apply slice_inv in E0, E1.
  destruct E0 as (Hd1 & Hd2 & ->). destruct E1 as (Hs1 & Hs2 & Esub).
  exists b. split; [|split; [reflexivity|split; [reflexivity|]]].
  - cbn [valid_item]. rewrite Hbt. split; [auto|]. split; [lia|].
    unfold match_at. rewrite Hbt, Hd.
    split; [lia|]. split; [lia|]. split; [lia|]. split; [lia|].
    intros k Hk.
    assert (En : nth_error (sub darr (address b) (address b + length b))
                   (Z.to_nat k)
                 = nth_error (sub arr startI (startI + length b)) (Z.to_nat k))
      by (now rewrite Esub).
    rewrite !nth_error_sub in En.
    destruct (Nat.ltb_spec (Z.to_nat k) (Z.to_nat (address b + length b - address b)));
      [|lia].
    destruct (Nat.ltb_spec (Z.to_nat k) (Z.to_nat (startI + length b - startI)));
      [|lia].
    replace (Z.to_nat (address b + k)) with (Z.to_nat (address b) + Z.to_nat k)%nat
      by lia.
    replace (Z.to_nat (startI + k)) with (Z.to_nat startI + Z.to_nat k)%nat by lia.
    exact En.
  - rewrite Esub. apply prefix_app_sub; lia.
Qed.

(** A literal is compared with [input[startI]], which is checked against
    the length of [input]. *)
Lemma replayLiteral_accepts (s : Z) (in_ in' : Reader) (out' : list Z)
      (startI j : Z) (bw bw' : Writer) :
  0 <= startI <= len (inputArray input) ->
  replayLiteral input s in_ (firstn (Z.to_nat startI) (inputArray input)) startI bw
  = Ok (Some (in', out', j, bw')) ->
  valid_item (inputArray input) (dictArray c) short long dictT startI (Lit s) /\
  index input startI = Ok s /\
  j = startI + 1 /\ bw' = TryWriteByte bw s /\
  out' = firstn (Z.to_nat j) (inputArray input).
Proof.
  intros Hi E. unfold replayLiteral in E.
  bind_inv E. rename a into b.
  destruct (Z.eqb_spec s b) as [<- | _]; cbn [negb] in E; [|discriminate].
  bind_inv E. rename a into bw1. injection E as <- <- <- <-.
  apply writeByte_Ok in E1. destruct E1 as [Hcan ->].
  pose proof (index_app_l input inputSpare startI s E0) as Harr.
  fold (inputArray input) in Harr.
  split; [cbn [valid_item]; auto|]. split; [reflexivity|].
  split; [reflexivity|]. split; [reflexivity|].
  apply index_Ok in Harr. destruct Harr as [Hr Hb].
  rewrite <- (prefix_snoc _ _ _ Hb). f_equal. lia.
Qed.

(** Valid items advance, and stay within the array they are valid for. *)
Lemma valid_items_within (arr dict : list Z) (items : list item) : forall i j,
  0 <= i <= len arr ->
  valid_items arr dict short long dictT i items j ->
  i <= j <= len arr.
Proof.
  destruct Htypes as (Hs & Hl & Hd & _).
  induction items as [|it items IH]; intros i j Hi Hv; cbn [valid_items] in Hv.
  - subst j. lia.
  - destruct Hv as [Hit Hv].
    assert (Hstep : 1 <= item_len it /\ i + item_len it <= len arr).
    { destruct it as [b | r]; cbn [item_len].
      - destruct Hit as [Hb _]. apply index_Ok in Hb. lia.
      - destruct Hit as (Ht & Hnb & Hend & _).
        assert (Hok : type_ok (bType r))
          by (destruct Ht as [-> | [-> | ->]]; assumption).
        destruct Hok as (_ & _ & _ & Hnb1 & _). lia. }
    assert (Hi' : 0 <= i + item_len it <= len arr) by lia.
    specialize (IH _ _ Hi' Hv). lia.
Qed.

(** Whatever the hint holds, what its replay has written when it stops is
    a stream of items that are valid for the backing arrays of the input
    and of the dictionary and cover the former up to [startI]. *)
Lemma compressFromHint_loop_items (fuel : nat) :
  forall (in_ : Reader) (s startI : Z) (bw : Writer) (j : Z) (bw' : Writer),
    0 <= startI <= len (inputArray input) ->
    compressFromHint_loop fuel c input short long dictT in_ s
      (firstn (Z.to_nat startI) (inputArray input)) startI bw = Ok (j, bw') ->
    exists items,
      valid_items (inputArray input) (dictArray c) short long dictT startI items j /\
      literals_ok input startI items /\
      bw' = emit_all bw items startI.
Proof.
  induction fuel as [|fuel IH]; intros in_ s startI bw j bw' Hi E;
    cbn [compressFromHint_loop] in E.
  - destruct (TryError in_); [|discriminate].
    injection E as <- <-. exists []. cbn. auto.
  - destruct (TryError in_).
    { injection E as <- <-. exists []. cbn. auto. }
    bind_inv E. destruct a as [[[[in' out'] startI'] bw1]|].
    2:{ injection E as <- <-. exists []. cbn. auto. }
    assert (Hstep : exists it,
              valid_item (inputArray input) (dictArray c) short long dictT startI it /\
              literals_ok input startI [it] /\
              startI' = startI + item_len it /\ bw1 = emit bw it startI /\
              out' = firstn (Z.to_nat startI') (inputArray input)).
    { destruct (s =? SymbolShort).
      - apply replayCopy_accepts in E0; auto.
        destruct E0 as (r & Hv & H). exists (Ref r). cbn [literals_ok]. auto.
      - destruct (s =? SymbolLong).
        + apply replayCopy_accepts in E0; auto.
          destruct E0 as (r & Hv & H). exists (Ref r). cbn [literals_ok]. auto.
        + destruct (s =? SymbolDict).
          * apply replayDict_accepts in E0; auto.
            destruct E0 as (r & Hv & H). exists (Ref r). cbn [literals_ok]. auto.
          * apply replayLiteral_accepts in E0; auto.
            destruct E0 as (Hv & Hin & H). exists (Lit s).
            cbn [literals_ok]. pose proof Hv as [_ Hcan]. auto. }
    destruct Hstep as (it & Hit & Hlit & -> & -> & ->).
    destruct (TryReadByte in') as [s' in''].
    assert (Hi' : 0 <= startI + item_len it <= len (inputArray input)).
    { pose proof (valid_items_within (inputArray input) (dictArray c) [it] startI
                    (startI + item_len it) Hi) as Hb.
      cbn [valid_items] in Hb. specialize (Hb (conj Hit eq_refl)). lia. }
    apply IH in E; [|exact Hi'].
    destruct E as (items & Hv & Hl & ->).
    exists (it :: items). cbn [valid_items emit_all literals_ok] in *.
    split; [auto|]. split; [|reflexivity]. split; [apply Hlit | exact Hl].
Qed.

End AnyHint.

Section AnyHintTheorems.
Import Bitio Lzss.
Context {consts : Constants} {sa : SuffixArray} {spare : SpareCapacity}.

Lemma compressFromHint_items (c : Compressor) (header : Header) (input hint : list Z)
      (short long dictT : BackrefType) (bw : Writer) (j : Z) (bw' : Writer) :
  types_ok short long dictT (len (dictData c)) ->
  InitBackRefTypes (len (dictData c)) (level c) = (short, long, dictT) ->
  compressFromHint c header input hint bw = Ok (j, bw') ->
  0 <= j <= len (inputArray input) /\
  exists items,
    valid_items (inputArray input) (dictArray c) short long dictT 0 items j /\
    literals_ok input 0 items /\
    bw' = emit_all bw items 0.
Proof.
  intros Htypes Et E. unfold compressFromHint in E. rewrite Et in E.
  pose proof (len_nonneg (inputArray input)) as Hlen.
  assert (Hnone : forall (j0 : Z) (w0 : Writer), Ok (0, bw) = Ok (j0, w0) ->
            0 <= j0 <= len (inputArray input) /\
            exists items,
              valid_items (inputArray input) (dictArray c) short long dictT 0 items j0 /\
              literals_ok input 0 items /\
              w0 = emit_all bw items 0).
  { intros j0 w0 E0. injection E0 as <- <-. split; [lia|]. exists []. cbn. auto. }
  destruct (Header_ReadFrom (NewReader hint)) as [[hintHeader|] in_];
    [|now apply Hnone].
  destruct (negb (Header_Version hintHeader =? Header_Version header)
            || negb (Header_Level hintHeader =? Header_Level header));
    [now apply Hnone|].
  destruct (Header_Level hintHeader =? NoCompression); [now apply Hnone|].
  destruct (TryReadByte in_) as [s in1].
  change (@nil Z) with (firstn (Z.to_nat 0) (inputArray input)) in E.
  apply (compressFromHint_loop_items c input short long dictT Htypes) in E; [|lia].
  destruct E as (items & Hv & Hl & ->).
  split; [|now exists items].
  pose proof (valid_items_within c short long dictT Htypes (inputArray input)
                (dictArray c) items 0 j (conj (Z.le_refl 0) Hlen) Hv).
  lia.
Qed.

(** X14.  Whatever bytes the hint holds, when [compressFromHint] returns
    [startI] it has written literals, which are bytes of [input] at their
    position and no escape symbols, and back-references whose bytes equal
    the bytes they stand for, and nothing else.  The comparisons that
    accept a back-reference are made on slices that may reach past the
    length, up to the capacity: the matches are matches within the backing
    arrays of [input] and of [compressor.dictData], and [startI] is at most
    the capacity of [input].  When neither slice has spare capacity, they
    are matches within the input and the dictionary, and [startI] is at
    most [len(input)]. *)
Theorem compressFromHint_replays_only_matches (c : Compressor) (header : Header)
        (input hint : list Z) (bw : Writer) (j : Z) (bw' : Writer) :
  constants_are_bytes ->
  level c = 1 \/ level c = 2 \/ level c = 4 \/ level c = 8 ->
  len (dictData c) < 2 ^ 63 ->
  compressFromHint c header input hint bw = Ok (j, bw') ->
  let '(short, long, dictT) := InitBackRefTypes (len (dictData c)) (level c) in
  exists items,
    bw' = emit_all bw items 0 /\
    literals_ok input 0 items /\
    0 <= j <= len (inputArray input) /\
    valid_items (inputArray input) (dictArray c) short long dictT 0 items j /\
    (inputSpare = [] -> dictSpare = [] ->
     0 <= j <= len input /\
     valid_items input (dictData c) short long dictT 0 items j).
Proof.
  intros Hbytes Hl Hd E.
  pose proof (InitBackRefTypes_ok (len (dictData c)) (level c) Hbytes Hl
                ltac:(pose proof (len_nonneg (dictData c)); lia)) as Htypes.
  destruct (InitBackRefTypes (len (dictData c)) (level c))
    as [[short long] dictT] eqn:Et.
  destruct (compressFromHint_items c header input hint short long dictT bw j bw'
              Htypes Et E) as (Hj & items & Hv & Hlit & ->).
  exists items. split; [reflexivity|]. split; [exact Hlit|].
  split; [exact Hj|]. split; [exact Hv|].
  intros Hin Hdi. unfold inputArray, dictArray in Hj, Hv.
  rewrite Hin, app_nil_r in Hj, Hv. rewrite Hdi, app_nil_r in Hv.
  split; assumption.
Qed.

(** What [Compress] returns on an input without escape symbols, whatever
    the hints, when [input] and [compressor.dictData] have no spare
    capacity: the raw encoding, or the header and the closed stream of
    valid items that cover the input. *)
Lemma Compress_output_shape_hints (fuel : nat) (c : Compressor) (input h : list Z)
      (hints : list (list Z)) (short long dictT : BackrefType) :
  inputSpare = [] -> dictSpare = [] ->
  constants_are_bytes -> lookup_sound ->
  level c = 1 \/ level c = 2 \/ level c = 4 \/ level c = 8 ->
  len (dictData c) < 2 ^ 63 ->
  escape_free input ->
  InitBackRefTypes (len (dictData c)) (level c) = (short, long, dictT) ->
  Compress fuel c input hints = Ok h ->
  h = Version :: NoCompression :: input \/
  exists items,
    valid_items input (dictData c) short long dictT 0 items (len input) /\
    h = Version :: level c :: Close (emit_all [] items 0) /\
    len h < len input + 2.
Proof.
  intros Hin Hdi Hbytes Hsound Hl Hd Hfree Et H. unfold Compress in H.
  destruct (len input >? MaxInputSize) eqn:Esize; [discriminate|].
  destruct (Z.eqb_spec (level c) NoCompression) as [E0 | N0];
    [unfold NoCompression in E0; lia|].
  bind_inv H. rename a into buf.
  destruct (len buf >=? len input + bitLen / 8) eqn:Efall;
    injection H as <-; [now left | right].
  rewrite Z.geb_leb in Efall. apply Z.leb_gt in Efall.
  change (bitLen / 8) with 2 in Efall.
  pose proof (InitBackRefTypes_ok (len (dictData c)) (level c) Hbytes Hl
                ltac:(pose proof (len_nonneg (dictData c)); lia)) as Htypes.
  rewrite Et in Htypes.
  unfold Compress_stream in E. rewrite Et in E.
  bind_inv E. destruct a as [startI bw1].
  bind_inv E. rename a into bw2. injection E as <-.
  assert (Hhint : 0 <= startI <= len input /\
                  exists items1,
                    valid_items input (dictData c) short long dictT 0 items1 startI /\
                    bw1 = emit_all NewWriter items1 0).
  { destruct hints as [|hint [|? ?]].
    - injection E0 as <- <-. pose proof (len_nonneg input).
      split; [lia|]. exists []. split; reflexivity.
    - destruct (compressFromHint_items c _ input hint short long dictT _ _ _
                  Htypes Et E0) as (Hj & items1 & Hv & _ & ->).
      unfold inputArray, dictArray in *. rewrite Hin, Hdi, !app_nil_r in *.
      split; [exact Hj|]. exists items1. split; [exact Hv | reflexivity].
    - injection E0 as <- <-. pose proof (len_nonneg input).
      split; [lia|]. exists []. split; reflexivity. }
  destruct Hhint as (Hrange & items1 & Hv1 & ->).
  match goal with
  | L : Compress_loop _ _ _ ?bs _ _ = Ok _ |- _ =>
      assert (Hbs0 : bs_types short long dictT bs) by (repeat split);
      destruct (Compress_loop_sound c input short long dictT Htypes Hsound Hfree
                  fuel bs startI _ bw2 Hrange Hbs0 L) as (items2 & Hv2 & ->)
  end.
  exists (items1 ++ items2). split; [eapply valid_items_app; eassumption|].
  unfold Header_WriteTo, NewWriter in *. cbn [app Header_Version Header_Level] in *.
  rewrite (emit_all_items_app c input short long dictT items1 [] 0 startI items2 Hv1).
  split; [reflexivity|].
  exact Efall.
Qed.

(** X15.  When [input] and [compressor.dictData] have no spare capacity:
    on an input without escape symbols, with an index that returns
    occurrences only and whatever the hints, what [Compress] returns is the
    raw encoding, or the header followed by a stream of literals and
    matching back-references that cover the input exactly, and is then
    shorter than the raw encoding. *)
Theorem Compress_emits_matches_only (fuel : nat) (c : Compressor)
        (input h : list Z) (hints : list (list Z)) :
  inputSpare = [] -> dictSpare = [] ->
  constants_are_bytes -> lookup_sound ->
  level c = 1 \/ level c = 2 \/ level c = 4 \/ level c = 8 ->
  len (dictData c) < 2 ^ 63 ->
  escape_free input ->
  Compress fuel c input hints = Ok h ->
  let '(short, long, dictT) := InitBackRefTypes (len (dictData c)) (level c) in
  h = Version :: NoCompression :: input \/
  exists items,
    valid_items input (dictData c) short long dictT 0 items (len input) /\
    h = Version :: level c :: Close (emit_all [] items 0) /\
    len h < len input + 2.
Proof.
  intros Hin Hdi Hbytes Hsound Hl Hd Hfree H.
  destruct (InitBackRefTypes (len (dictData c)) (level c))
    as [[short long] dictT] eqn:Et.
  eapply Compress_output_shape_hints; eassumption.
Qed.

(** X16.  When [input] and [compressor.dictData] have no spare capacity, a
    hint cannot corrupt the output: on an input without escape symbols,
    whatever the hints hold, what [Compress] returns decodes to the input,
    under the spec's layout and with the compressor's dictionary.  (With
    spare capacity it can: see [hint_reads_spare_capacity].) *)
Theorem Compress_hint_cannot_corrupt (fuel : nat) (c : Compressor)
        (input h : list Z) (hints : list (list Z)) :
  inputSpare = [] -> dictSpare = [] ->
  constants_are_bytes -> symbols_distinct -> lookup_sound ->
  level c = 1 \/ level c = 2 \/ level c = 4 \/ level c = 8 ->
  len (dictData c) < 2 ^ 63 ->
  escape_free input ->
  Compress fuel c input hints = Ok h ->
  Decompress (dictData c) h = Ok input.
Proof.
  intros Hin Hdi Hbytes Hdist Hsound Hl Hd Hfree Hh.
  destruct (InitBackRefTypes (len (dictData c)) (level c))
    as [[short long] dictT] eqn:Et.
  pose proof (InitBackRefTypes_ok (len (dictData c)) (level c) Hbytes Hl
                ltac:(pose proof (len_nonneg (dictData c)); lia)) as Htypes.
  rewrite Et in Htypes.
  destruct (Compress_output_shape_hints fuel c input h hints short long dictT
              Hin Hdi Hbytes Hsound Hl Hd Hfree Et Hh)
    as [-> | (items & Hv & -> & _)]; [reflexivity|].
  set (bw := emit_all [] items 0).
  cbn [Decompress].
  destruct (Z.eqb_spec (level c) NoCompression) as [E0 | _];
    [unfold NoCompression in E0; lia|].
  rewrite Et. unfold NewReader.
  destruct (bytesToBits_Close bw) as (pad & Hpad & Epad). rewrite Epad.
  assert (Hfuel' : (List.length items < S (List.length (Close bw)))%nat).
  { pose proof (length_emit_all items 0) as H8. fold bw in H8.
    pose proof (length_bytesToBits (Close bw)) as Hb.
    rewrite Epad, length_app in Hb. lia. }
  pose proof (Decompress_items c input short long dictT Htypes Hdist
                (escape_free_bytes input Hfree)
                items 0 _ pad (len input) ltac:(lia) Hv Hfuel' Hpad) as R.
  change (firstn (Z.to_nat 0) input) with (@nil Z) in R.
  fold bw in R. rewrite R. unfold len. now rewrite Nat2Z.id, firstn_all.
Qed.

End AnyHintTheorems.

(** With spare capacity a hint is accepted that no compression of the
    input produces.  Over the dictionary of [NewCompressor(nil, 8)], a
    dict reference at address 3 of the three-byte dictionary is compared
    with the zeros behind it; [Compress] then returns a stream whose first
    reference lies outside the dictionary.  Over an input of six sevens
    that is the head of a longer array of sevens, the compression of twelve
    sevens is replayed to its end, [startI] is twelve, and [Compress]
    returns that compression. *)
Example hint_reads_spare_capacity :
  let header := {| Lzss.Header_Version := 1; Lzss.Header_Level := 8 |} in
  @Lzss.compressFromHint Lzss.sampleConstants spareDict sampleCompressor header
    [0; 0; 0] [1; 8; 255; 0; 3] []
  = Ok (3, Bitio.bytesToBits [255; 0; 3]) /\
  @Lzss.Compress Lzss.sampleConstants Lzss.searchIndex spareDict 25
    sampleCompressor (repeat 0 24) [[1; 8; 255; 2; 3]]
  = Ok [1; 8; 255; 2; 3; 254; 15; 4; 0] /\
  @Lzss.Decompress Lzss.sampleConstants [255; 254; 253]
    [1; 8; 255; 2; 3; 254; 15; 4; 0]
  = Panic PanicSliceBounds /\
  @Lzss.compressFromHint Lzss.sampleConstants spareInput sampleCompressor header
    (repeat 7 6) [1; 8; 7; 254; 7; 0; 0] []
  = Ok (12, Bitio.bytesToBits [7; 254; 7; 0; 0]) /\
  @Lzss.Compress Lzss.sampleConstants Lzss.searchIndex spareInput 25
    sampleCompressor (repeat 7 6) [[1; 8; 7; 254; 7; 0; 0]]
  = Ok [1; 8; 7; 254; 7; 0; 0] /\
  @Lzss.Decompress Lzss.sampleConstants [255; 254; 253] [1; 8; 7; 254; 7; 0; 0]
  = Ok (repeat 7 12).
Proof. repeat split; vm_compute; reflexivity. Qed.

(** ** The dictionary, the types and the search *)

Section DictFacts.
Import Bitio Lzss.
Context {consts : Constants} {sa : SuffixArray} {spare : SpareCapacity}.

Lemma AugmentDict_again (dict : list Z) :
  symbols_distinct -> AugmentDict (AugmentDict dict) = AugmentDict dict.
Proof.
  intros Hd. pose proof (AugmentDict_holds_escapes dict Hd) as Hin.
  unfold AugmentDict at 1.
  destruct (AugmentDict_loop_all_present (AugmentDict dict) Hd) as [_ L].
  now rewrite (L Hin).
Qed.

Lemma AugmentDict_extends (dict : list Z) :
  firstn (List.length dict) (AugmentDict dict) = dict /\
  len (AugmentDict dict) <= len dict + 3.
Proof.
  unfold AugmentDict. destruct (AugmentDict_loop 0 dict).
  - split; [apply firstn_all | lia].
  - split.
    + rewrite firstn_app, Nat.sub_diag, firstn_all. cbn [firstn]. apply app_nil_r.
    + rewrite len_app. change (len [SymbolDict; SymbolShort; SymbolLong]) with 3. lia.
Qed.

(** X17.  [AugmentDict] is idempotent; its result holds the three escape
    symbols, starts with the dictionary given and is at most three bytes
    longer. *)
Theorem AugmentDict_idempotent (dict : list Z) :
  symbols_distinct ->
  AugmentDict (AugmentDict dict) = AugmentDict dict /\
  In SymbolDict (AugmentDict dict) /\ In SymbolShort (AugmentDict dict) /\
  In SymbolLong (AugmentDict dict) /\
  firstn (List.length dict) (AugmentDict dict) = dict /\
  len (AugmentDict dict) <= len dict + 3.
Proof.
  intros Hd.
  destruct (AugmentDict_holds_escapes dict Hd) as (H1 & H2 & H3).
  destruct (AugmentDict_extends dict) as [Hpre Hlen].
  split; [now apply AugmentDict_again|]. auto.
Qed.

(** X18.  [NewCompressor] returns whenever the dictionary leaves room
    for three more bytes under [MaxDictSize], and fails with the size error
    when the dictionary alone exceeds [MaxDictSize].  The compressor it
    returns has the level given and a dictionary that starts with the one
    given, holds the three escape symbols and is within [MaxDictSize]; from
    this dictionary [NewCompressor] makes the same compressor again. *)
Theorem NewCompressor_dictionary (dict : list Z) (lvl : Level) :
  symbols_distinct ->
  (len dict + 3 <= MaxDictSize -> returns (NewCompressor dict lvl)) /\
  (forall c, NewCompressor dict lvl = Ok c ->
     level c = lvl /\ len (dictData c) <= MaxDictSize /\
     firstn (List.length dict) (dictData c) = dict /\
     In SymbolDict (dictData c) /\ In SymbolShort (dictData c) /\
     In SymbolLong (dictData c) /\
     NewCompressor (dictData c) lvl = Ok c) /\
  (MaxDictSize < len dict -> NewCompressor dict lvl = Err ErrDictSize).
Proof.
  intros Hd.
  pose proof (AugmentDict_again dict Hd) as Hidem.
  destruct (AugmentDict_holds_escapes dict Hd) as (H1 & H2 & H3).
  destruct (AugmentDict_extends dict) as [Hpre Hlen].
  unfold NewCompressor. split; [|split].
  - intros Hsize. destruct (Z.gtb_spec (len (AugmentDict dict)) MaxDictSize);
      [lia | apply Ok_returns].
  - intros c E. destruct (Z.gtb_spec (len (AugmentDict dict)) MaxDictSize) as [|Hfit];
      [discriminate|].
    injection E as <-. cbn [level dictData]. rewrite Hidem.
    destruct (Z.gtb_spec (len (AugmentDict dict)) MaxDictSize); [lia|]. auto 10.
  - intros Hbig.
    assert (len dict <= len (AugmentDict dict)).
    { rewrite <- Hpre at 1. unfold len. rewrite length_firstn. lia. }
    destruct (Z.gtb_spec (len (AugmentDict dict)) MaxDictSize); [reflexivity | lia].
Qed.

Lemma wordAlign_rounds_up (lvl a : Z) :
  1 <= lvl -> 0 <= a -> a + lvl <= 256 ->
  wordAlign lvl a mod lvl = 0 /\ a <= wordAlign lvl a < a + lvl.
Proof.
  intros Hl Ha Hsum. unfold wordAlign, NoCompression.
  destruct (Z.eqb_spec lvl 0); [lia|].
  rewrite (Z.mod_small a 256) by lia.
  rewrite (Z.mod_small (a + lvl - 1) 256) by lia.
  pose proof (Z.mul_div_le (a + lvl - 1) lvl ltac:(lia)) as Hle.
  pose proof (Z.mul_succ_div_gt (a + lvl - 1) lvl ltac:(lia)) as Hgt.
  assert (0 <= (a + lvl - 1) / lvl) by (apply Z.div_pos; lia).
  rewrite (Z.mod_small ((a + lvl - 1) / lvl * lvl) 256) by nia.
  split; [apply Z.mod_mul; lia | nia].
Qed.

(** X19.  For a level from 1 to 192 the address widths of the three types
    are the least multiples of the level that are at least 14, 19 and
    [bits.Len(dictLen)]; every offset into the dictionary fits in the
    address field of the dict type; and only the dict type is
    [dictOnly]. *)
Theorem InitBackRefTypes_address_widths (dictLen : Z) (lvl : Level) :
  1 <= lvl <= 192 -> 0 <= dictLen < 2 ^ 63 ->
  let '(short, long, dict) := InitBackRefTypes dictLen lvl in
  (nbBitsAddress short mod lvl = 0 /\ 14 <= nbBitsAddress short < 14 + lvl) /\
  (nbBitsAddress long mod lvl = 0 /\ 19 <= nbBitsAddress long < 19 + lvl) /\
  (nbBitsAddress dict mod lvl = 0 /\
   bits_Len dictLen <= nbBitsAddress dict < bits_Len dictLen + lvl /\
   dictLen < 2 ^ nbBitsAddress dict) /\
  dictOnly short = false /\ dictOnly long = false /\ dictOnly dict = true.
Proof.
  intros Hl Hd. unfold InitBackRefTypes, newBackRefType.
  cbn [nbBitsAddress dictOnly].
  destruct (bits_Len_bounds dictLen Hd) as [Hb Hlt].
  destruct (wordAlign_rounds_up lvl 14) as [M1 R1]; try lia.
  destruct (wordAlign_rounds_up lvl 19) as [M2 R2]; try lia.
  destruct (wordAlign_rounds_up lvl (bits_Len dictLen)) as [M3 R3]; try lia.
  repeat split; try assumption; try lia.
  eapply Z.lt_le_trans; [exact Hlt|]. apply Z.pow_le_mono_r; lia.
Qed.

(** X20.  [findBackRef] at a position of the input, with an index that
    returns occurrences only, returns without panic.  Its result is
    (-1, -1) or a match: the length is between the minimal length
    ([nbBytesBackRef] for -1) and [maxLength] and stays inside the input;
    the address is in the dictionary (dict type) or among the [maxAddress]
    positions before [i] (other types); and the bytes there are those at
    [i].  It is (-1, -1) when fewer bytes than the minimal length are
    left. *)
Theorem findBackRef_within_window (c : Compressor) (input : list Z) (i : Z)
        (t : BackrefType) (minLength : Z) :
  lookup_sound -> 0 <= i <= len input -> 0 <= maxLength t ->
  exists a l,
    findBackRef c input input i t minLength = Ok (a, l) /\
    (l = -1 \/
     ((if minLength =? -1 then nbBytesBackRef t else minLength) <= l <= maxLength t /\
      i + l <= len input /\
      if dictOnly t then
        0 <= a /\ a + l <= len (dictData c) /\
        sub (dictData c) a (a + l) = sub input i (i + l)
      else
        Z.max 0 (i - maxAddress t) <= a < i /\
        forall k, 0 <= k < l ->
          nth_error input (Z.to_nat (a + k)) = nth_error input (Z.to_nat (i + k)))) /\
    (len input < i + (if minLength =? -1 then nbBytesBackRef t else minLength) ->
     (a, l) = (-1, -1)).
Proof.
  intros Hsound Hi Hmax.
  destruct (findBackRef_returns c input i t minLength Hi Hmax) as [[a l] E].
  exists a, l. split; [exact E|]. split.
  - pose proof (findBackRef_sound c input Hsound i t minLength a l ltac:(lia) E) as Hc.
    destruct Hc as [Hn | (Hmin & Hend & Hlen & Hm)]; [now left | right].
    cbn [length bType address] in *.
    split; [lia|]. split; [lia|].
    destruct (dictOnly t).
    + destruct Hm as (Ha & Hd & Hk). split; [lia|]. split; [lia|].
      destruct (Z.le_gt_cases 0 l).
      * apply sub_ext; try lia. exact Hk.
      * unfold sub. replace (Z.to_nat (a + l - a)) with 0%nat by lia.
        replace (Z.to_nat (i + l - i)) with 0%nat by lia. reflexivity.
    + destruct Hm as (Ha & Hreach & Hk). split; [lia | exact Hk].
  - intros Hshort. unfold findBackRef in E. cbn zeta in E.
    destruct (Z.gtb_spec
                (i + (if minLength =? -1 then nbBytesBackRef t else minLength))
                (len input)); [|lia].
    now injection E as <- <-.
Qed.

End DictFacts.

(** ** The properties above, at concrete inputs *)

(** The number 42 written in two decimal digits after the symbol 7. *)
Lemma WriteNum_ReadNum_witness :
  10 = 10 /\
  firstn 1 [7; 2; 4] = [7] /\
  len [7; 2; 4] = len [7] + Z.max 0 2 /\
  Stream.ReadNum {| Stream.D := [7; 2; 4]; Stream.NbSymbs := 10 |} (len [7]) 2
  = Ok 42.
Proof.
  apply (WriteNum_ReadNum {| Stream.D := [7]; Stream.NbSymbs := 10 |}
           {| Stream.D := [7; 2; 4]; Stream.NbSymbs := 10 |} 42 2).
  - lia.
  - reflexivity.
Defined.

(** 42 fits in two decimal digits. *)
Lemma WriteNum_overflow_iff_witness :
  (42 < 10 ^ 2 ->
   exists s', Stream.WriteNum {| Stream.D := []; Stream.NbSymbs := 10 |} 42 2
              = Stream.Written s' /\
              Forall (fun x => 0 <= x < 10) (skipn 0 (Stream.D s'))) /\
  (10 ^ 2 <= 42 ->
   Stream.WriteNum {| Stream.D := []; Stream.NbSymbs := 10 |} 42 2
   = Stream.PanicOverflow).
Proof.
  apply (WriteNum_overflow_iff {| Stream.D := []; Stream.NbSymbs := 10 |} 42 2).
  - simpl. lia.
  - lia.
  - lia.
Defined.

(** Three bits in elements of three bits: two bits to an element. *)
Lemma Pack_elements_fit_witness :
  Forall (fun e => 0 <= e < 2 ^ (3 - 1)) [1; 1].
Proof.
  apply (Pack_elements_fit {| Stream.D := [1; 0; 1]; Stream.NbSymbs := 2 |} 3 [1; 1]).
  - lia.
  - repeat constructor; simpl; lia.
  - reflexivity.
Defined.

(** Two bytes as four symbols of four bits. *)
Lemma NewStream_ToBytes_witness :
  exists s,
    Stream.NewStream [171; 205] 4 = Ok s /\
    Stream.NbSymbs s = 2 ^ 4 /\
    Stream.Len s * 4 = 8 * len [171; 205] /\
    Forall (fun x => 0 <= x < Stream.NbSymbs s) (Stream.D s) /\
    Stream.ToBytes s = Ok [171; 205].
Proof.
  apply (NewStream_ToBytes [171; 205] 4).
  - lia.
  - repeat constructor; lia.
  - reflexivity.
Defined.

(** Hexadecimal digits broken up into bits. *)
Lemma BreakUp_digits_witness :
  exists s' k,
    Stream.BreakUp 63 {| Stream.D := [5; 14]; Stream.NbSymbs := 16 |} 2 = Ok s' /\
    Stream.NbSymbs s' = 2 /\
    0 <= k /\ 16 <= 2 ^ k /\ (0 < k -> 2 ^ (k - 1) < 16) /\
    Stream.Len s' = 2 * k /\
    Forall (fun x => 0 <= x < 2) (Stream.D s') /\
    forall i : nat, (i < 2)%nat ->
      Stream.digitsBE 2 (Stream.group (Stream.D s') k (Z.of_nat i))
      = nth i [5; 14] 0.
Proof.
  apply (BreakUp_digits 63 {| Stream.D := [5; 14]; Stream.NbSymbs := 16 |} 2).
  - lia.
  - simpl. lia.
  - repeat constructor; simpl; lia.
  - lia.
Defined.

(** Three symbols of two bits in elements of five bits, one byte each. *)
Lemma FillBytes_ReadBytes_round_trip_witness :
  let w := (5 - 1) / 2 in
  let B := (5 + 7) / 8 in
  let nbElems := (len [1; 2; 3] + w - 1) / w in
  exists out,
    Stream.FillBytes {| Stream.D := [1; 2; 3]; Stream.NbSymbs := 4 |} (repeat 9 7) 5
    = Ok out /\
    out = Stream.PutUint32 (len [1; 2; 3])
          ++ flat_map (fun i => Stream.bigEndianBytes (Z.to_nat B)
                                  (Stream.digitsBE (2 ^ 2)
                                     (Stream.group [1; 2; 3] w (Z.of_nat i))))
               (seq 0 (Z.to_nat nbElems))
          ++ skipn (Z.to_nat (4 + nbElems * B)) (repeat 9 7) /\
    len out = len (repeat 9 7) /\
    Stream.ReadBytes {| Stream.D := [0]; Stream.NbSymbs := 4 |} out 5
    = Ok {| Stream.D := [1; 2; 3]; Stream.NbSymbs := 4 |}.
Proof.
  apply (FillBytes_ReadBytes_round_trip
           {| Stream.D := [1; 2; 3]; Stream.NbSymbs := 4 |}
           {| Stream.D := [0]; Stream.NbSymbs := 4 |} (repeat 9 7) 5 2).
  - lia.
  - reflexivity.
  - reflexivity.
  - lia.
  - repeat constructor; lia.
  - reflexivity.
  - vm_compute. discriminate.
Defined.

(** Two zeros after the first symbol. *)
Lemma RunLen_maximal_zero_run_witness :
  (-1 <= 0 < 2 ^ 63 - 1 ->
   exists r,
     Stream.RunLen {| Stream.D := [5; 0; 0; 3]; Stream.NbSymbs := 8 |} 0 = Ok r /\
     1 <= r /\
     (forall k, 1 <= k < r ->
        Stream.At {| Stream.D := [5; 0; 0; 3]; Stream.NbSymbs := 8 |} (0 + k) = Ok 0) /\
     (0 + r < Stream.Len {| Stream.D := [5; 0; 0; 3]; Stream.NbSymbs := 8 |} ->
      exists x, Stream.At {| Stream.D := [5; 0; 0; 3]; Stream.NbSymbs := 8 |} (0 + r) = Ok x /\
                x <> 0) /\
     (r = 1 \/ 0 + r <= Stream.Len {| Stream.D := [5; 0; 0; 3]; Stream.NbSymbs := 8 |})) /\
  (- 2 ^ 63 <= 0 < -1 \/ 0 = 2 ^ 63 - 1 ->
   Stream.RunLen {| Stream.D := [5; 0; 0; 3]; Stream.NbSymbs := 8 |} 0
   = Panic PanicIndexOutOfRange).
Proof.
  apply (RunLen_maximal_zero_run {| Stream.D := [5; 0; 0; 3]; Stream.NbSymbs := 8 |} 0).
  vm_compute. reflexivity.
Defined.

(** Two streams of three bits, hashed by the identity. *)
Lemma Checksum_binds_stream_witness :
  [1; 1; 3] = (fun l : list Z => l) [1; 1; 3] /\
  [2; 1; 3] = (fun l : list Z => l) [2; 1; 3] /\
  firstn (List.length (@nil Z)) [1; 1; 3] = [] /\
  firstn (List.length (@nil Z)) [2; 1; 3] = [] /\
  ([1; 1; 3] = [2; 1; 3] ->
   Stream.D {| Stream.D := [1; 0; 1]; Stream.NbSymbs := 2 |}
   = Stream.D {| Stream.D := [0; 1; 1]; Stream.NbSymbs := 2 |}).
Proof.
  apply (Checksum_binds_stream (fun l => l)
           {| Stream.D := [1; 0; 1]; Stream.NbSymbs := 2 |}
           {| Stream.D := [0; 1; 1]; Stream.NbSymbs := 2 |} [] 3
           [1; 1; 3] [1; 1; 3] [2; 1; 3] [2; 1; 3]).
  - lia.
  - reflexivity.
  - repeat constructor; simpl; lia.
  - repeat constructor; simpl; lia.
  - reflexivity.
  - reflexivity.
Defined.

(** Three symbols of two bits: one byte, with room for a fourth symbol. *)
Lemma ToBytes_NewStream_witness :
  exists bytes extra,
    Stream.ToBytes {| Stream.D := [1; 2; 3]; Stream.NbSymbs := 4 |} = Ok bytes /\
    len bytes = (Stream.Len {| Stream.D := [1; 2; 3]; Stream.NbSymbs := 4 |} * 2 + 7) / 8 /\
    Z.of_nat extra
    = (8 * len bytes - Stream.Len {| Stream.D := [1; 2; 3]; Stream.NbSymbs := 4 |} * 2) / 2 /\
    Stream.NewStream bytes 2
    = Ok {| Stream.D := [1; 2; 3] ++ repeat 0 extra; Stream.NbSymbs := 4 |}.
Proof.
  apply (ToBytes_NewStream {| Stream.D := [1; 2; 3]; Stream.NbSymbs := 4 |} 2).
  - lia.
  - reflexivity.
  - repeat constructor; simpl; lia.
Defined.

(** A compressor whose dictionary lacks the escapes does not find the
    escape [0xff]. *)
Lemma Compress_error_is_size_or_escape_witness :
  (ErrNoBackref 0 = ErrInputSize /\
   len [255] > @Lzss.MaxInputSize Lzss.sampleConstants) \/
  (exists j b, ErrNoBackref 0 = ErrNoBackref j /\ index [255] j = Ok b /\
               (b = @Lzss.SymbolDict Lzss.sampleConstants \/
                b = @Lzss.SymbolShort Lzss.sampleConstants \/
                b = @Lzss.SymbolLong Lzss.sampleConstants)).
Proof.
  apply (@Compress_error_is_size_or_escape Lzss.sampleConstants Lzss.searchIndex Lzss.noSpare 1
           {| Lzss.dictData := []; Lzss.level := 8 |} [255] [] (ErrNoBackref 0)).
  reflexivity.
Defined.

(** With the dictionary of [NewCompressor] the escape [0xff] is found. *)
Lemma Compress_encodes_every_escape_witness :
  sampleCompress [255] [] <> Err (ErrNoBackref 0).
Proof.
  apply (@Compress_encodes_every_escape Lzss.sampleConstants Lzss.searchIndex Lzss.noSpare 2
           [] 8 sampleCompressor [255] [] 0).
  - repeat split; discriminate.
  - exact searchLongest_complete.
  - reflexivity.
Defined.

(** A hint whose dict reference reads five bytes at address 3 of the
    three-byte dictionary: the zeros behind it, which equal the first five
    bytes of the input. *)
Lemma compressFromHint_replays_only_matches_witness :
  let '(short, long, dictT) :=
    @Lzss.InitBackRefTypes Lzss.sampleConstants
      (len (Lzss.dictData sampleCompressor)) (Lzss.level sampleCompressor) in
  exists items,
    Bitio.bytesToBits [255; 2; 3] = Lzss.emit_all [] items 0 /\
    @Lzss.literals_ok Lzss.sampleConstants (repeat 0 24) 0 items /\
    0 <= 5 <= len (@Lzss.inputArray spareDict (repeat 0 24)) /\
    @Lzss.valid_items Lzss.sampleConstants
      (@Lzss.inputArray spareDict (repeat 0 24))
      (@Lzss.dictArray spareDict sampleCompressor) short long dictT 0 items 5 /\
    (@Lzss.inputSpare spareDict = [] -> @Lzss.dictSpare spareDict = [] ->
     0 <= 5 <= len (repeat 0 24) /\
     @Lzss.valid_items Lzss.sampleConstants (repeat 0 24)
       (Lzss.dictData sampleCompressor) short long dictT 0 items 5).
Proof.
  apply (@compressFromHint_replays_only_matches Lzss.sampleConstants spareDict
           sampleCompressor
           {| Lzss.Header_Version := 1; Lzss.Header_Level := 8 |}
           (repeat 0 24) [1; 8; 255; 2; 3] []
           5 (Bitio.bytesToBits [255; 2; 3])).
  - repeat split; discriminate.
  - right; right; right. reflexivity.
  - reflexivity.
  - vm_compute. reflexivity.
Defined.

(** The compression of twelve [a] as a hint for twenty-four. *)
Lemma Compress_emits_matches_only_witness :
  let '(short, long, dictT) :=
    @Lzss.InitBackRefTypes Lzss.sampleConstants
      (len (Lzss.dictData sampleCompressor)) (Lzss.level sampleCompressor) in
  [1; 8; 97; 254; 7; 0; 0; 254; 8; 11; 0]
  = @Lzss.Version Lzss.sampleConstants :: Lzss.NoCompression :: repeat 97 24 \/
  exists items,
    @Lzss.valid_items Lzss.sampleConstants (repeat 97 24)
      (Lzss.dictData sampleCompressor) short long dictT 0 items (len (repeat 97 24)) /\
    [1; 8; 97; 254; 7; 0; 0; 254; 8; 11; 0]
    = @Lzss.Version Lzss.sampleConstants :: Lzss.level sampleCompressor
        :: Bitio.Close (Lzss.emit_all [] items 0) /\
    len [1; 8; 97; 254; 7; 0; 0; 254; 8; 11; 0] < len (repeat 97 24) + 2.
Proof.
  apply (@Compress_emits_matches_only Lzss.sampleConstants Lzss.searchIndex
           Lzss.noSpare 25
           sampleCompressor (repeat 97 24) [1; 8; 97; 254; 7; 0; 0; 254; 8; 11; 0]
           [[1; 8; 97; 254; 7; 0; 0]]).
  - reflexivity.
  - reflexivity.
  - repeat split; discriminate.
  - exact searchLongest_sound.
  - right; right; right. reflexivity.
  - reflexivity.
  - unfold Lzss.escape_free. apply Forall_forall. intros b Hb.
    apply repeat_spec in Hb. subst b. split; [lia | reflexivity].
  - vm_compute. reflexivity.
Defined.

Lemma Compress_hint_cannot_corrupt_witness :
  @Lzss.Decompress Lzss.sampleConstants (Lzss.dictData sampleCompressor)
    [1; 8; 97; 254; 7; 0; 0; 254; 8; 11; 0]
  = Ok (repeat 97 24).
Proof.
  apply (@Compress_hint_cannot_corrupt Lzss.sampleConstants Lzss.searchIndex
           Lzss.noSpare 25
           sampleCompressor (repeat 97 24) [1; 8; 97; 254; 7; 0; 0; 254; 8; 11; 0]
           [[1; 8; 97; 254; 7; 0; 0]]).
  - reflexivity.
  - reflexivity.
  - repeat split; discriminate.
  - repeat split; discriminate.
  - exact searchLongest_sound.
  - right; right; right. reflexivity.
  - reflexivity.
  - unfold Lzss.escape_free. apply Forall_forall. intros b Hb.
    apply repeat_spec in Hb. subst b. split; [lia | reflexivity].
  - vm_compute. reflexivity.
Defined.

Lemma AugmentDict_idempotent_witness :
  @Lzss.AugmentDict Lzss.sampleConstants (@Lzss.AugmentDict Lzss.sampleConstants [255])
  = @Lzss.AugmentDict Lzss.sampleConstants [255] /\
  In (@Lzss.SymbolDict Lzss.sampleConstants) (@Lzss.AugmentDict Lzss.sampleConstants [255]) /\
  In (@Lzss.SymbolShort Lzss.sampleConstants) (@Lzss.AugmentDict Lzss.sampleConstants [255]) /\
  In (@Lzss.SymbolLong Lzss.sampleConstants) (@Lzss.AugmentDict Lzss.sampleConstants [255]) /\
  firstn (List.length [255]) (@Lzss.AugmentDict Lzss.sampleConstants [255]) = [255] /\
  len (@Lzss.AugmentDict Lzss.sampleConstants [255]) <= len [255] + 3.
Proof.
  apply (@AugmentDict_idempotent Lzss.sampleConstants [255]).
  repeat split; discriminate.
Defined.

Lemma NewCompressor_dictionary_witness :
  (len (@nil Z) + 3 <= @Lzss.MaxDictSize Lzss.sampleConstants ->
   returns (@Lzss.NewCompressor Lzss.sampleConstants [] 8)) /\
  (forall c, @Lzss.NewCompressor Lzss.sampleConstants [] 8 = Ok c ->
     Lzss.level c = 8 /\
     len (Lzss.dictData c) <= @Lzss.MaxDictSize Lzss.sampleConstants /\
     firstn (List.length (@nil Z)) (Lzss.dictData c) = [] /\
     In (@Lzss.SymbolDict Lzss.sampleConstants) (Lzss.dictData c) /\
     In (@Lzss.SymbolShort Lzss.sampleConstants) (Lzss.dictData c) /\
     In (@Lzss.SymbolLong Lzss.sampleConstants) (Lzss.dictData c) /\
     @Lzss.NewCompressor Lzss.sampleConstants (Lzss.dictData c) 8 = Ok c) /\
  (@Lzss.MaxDictSize Lzss.sampleConstants < len (@nil Z) ->
   @Lzss.NewCompressor Lzss.sampleConstants [] 8 = Err ErrDictSize).
Proof.
  apply (@NewCompressor_dictionary Lzss.sampleConstants [] 8).
  repeat split; discriminate.
Defined.

Lemma InitBackRefTypes_address_widths_witness :
  let '(short, long, dict) := @Lzss.InitBackRefTypes Lzss.sampleConstants 3 8 in
  (Lzss.nbBitsAddress short mod 8 = 0 /\ 14 <= Lzss.nbBitsAddress short < 14 + 8) /\
  (Lzss.nbBitsAddress long mod 8 = 0 /\ 19 <= Lzss.nbBitsAddress long < 19 + 8) /\
  (Lzss.nbBitsAddress dict mod 8 = 0 /\
   Lzss.bits_Len 3 <= Lzss.nbBitsAddress dict < Lzss.bits_Len 3 + 8 /\
   3 < 2 ^ Lzss.nbBitsAddress dict) /\
  Lzss.dictOnly short = false /\ Lzss.dictOnly long = false /\
  Lzss.dictOnly dict = true.
Proof.
  apply (@InitBackRefTypes_address_widths Lzss.sampleConstants 3 8).
  - lia.
  - lia.
Defined.

(** The search for a short reference in the middle of twenty-four [a]. *)
Lemma findBackRef_within_window_witness :
  exists a l,
    @Lzss.findBackRef Lzss.searchIndex sampleCompressor (repeat 97 24) (repeat 97 24) 12
      (Lzss.bType (Lzss.bShort tied_candidates)) (-1) = Ok (a, l) /\
    (l = -1 \/
     ((if -1 =? -1 then Lzss.nbBytesBackRef (Lzss.bType (Lzss.bShort tied_candidates))
       else -1) <= l <= Lzss.maxLength (Lzss.bType (Lzss.bShort tied_candidates)) /\
      12 + l <= len (repeat 97 24) /\
      if Lzss.dictOnly (Lzss.bType (Lzss.bShort tied_candidates)) then
        0 <= a /\ a + l <= len (Lzss.dictData sampleCompressor) /\
        sub (Lzss.dictData sampleCompressor) a (a + l) = sub (repeat 97 24) 12 (12 + l)
      else
        Z.max 0 (12 - Lzss.maxAddress (Lzss.bType (Lzss.bShort tied_candidates))) <= a < 12 /\
        forall k, 0 <= k < l ->
          nth_error (repeat 97 24) (Z.to_nat (a + k))
          = nth_error (repeat 97 24) (Z.to_nat (12 + k)))) /\
    (len (repeat 97 24)
     < 12 + (if -1 =? -1 then Lzss.nbBytesBackRef (Lzss.bType (Lzss.bShort tied_candidates))
             else -1) ->
     (a, l) = (-1, -1)).
Proof.
  apply (@findBackRef_within_window Lzss.searchIndex sampleCompressor (repeat 97 24) 12
           (Lzss.bType (Lzss.bShort tied_candidates)) (-1)).
  - exact searchLongest_sound.
  - vm_compute. split; discriminate.
  - vm_compute. discriminate.
Defined.

(** Twelve [a], compressed and decoded. *)
Lemma round_trip_escape_free_witness :
  exists h,
    sampleCompress (repeat 97 12) [] = Ok h /\
    @Lzss.Decompress Lzss.sampleConstants (Lzss.dictData sampleCompressor) h
    = Ok (repeat 97 12).
Proof.
  apply (@round_trip_escape_free Lzss.sampleConstants Lzss.searchIndex Lzss.noSpare 13
           sampleCompressor (repeat 97 12)).
  - repeat split; discriminate.
  - repeat split; discriminate.
  - exact searchLongest_sound.
  - right; right; right. reflexivity.
  - reflexivity.
  - unfold Lzss.escape_free. apply Forall_forall. intros b Hb.
    apply repeat_spec in Hb. subst b. split; [lia | reflexivity].
  - vm_compute. discriminate.
  - vm_compute. discriminate.
Defined.
